(** * Well-trajectory key points: decoder and tolerance metric

    A shallow embedding of the post-processing core of [main.py]:

    - [macro_f1_with_tolerance]  (the tolerance-aware metric),
    - [dp_post_process]          (candidate generation and constrained search),
    - [advanced_post_process]    (per-well batch driver),

    and of the code around it:

    - [extract_keypoints_from_design]  (key points of the design trajectory),
    - [align_design_to_actual]   (the map built from the warping path),
    - [create_advanced_features_v2]  (relative depth, differences,
      monotonicity flags and prior columns),
    - [sample_hard_negatives]    (the rows kept for training).

    Conventions of the embedding.

    - NumPy [float64] values (probabilities, angles, scores) are embedded as
      exact rationals [Q]; every comparison of the source is the same
      comparison on [Q].
    - A float64 test whose outcome at the threshold depends on the rounding
      of NumPy's reduction is a parameter of the development where a
      statement depends on it: [x.std() < t] in the decoder and the step
      tests of the monotonicity flags.  The exact tests are instances.
    - NumPy integer arrays are [list Z]; array positions are [nat] where the
      source only indexes with them and [Z] where it does arithmetic on them.
    - Python dictionaries used for lookups only are [gmap]; the key point
      assignment, whose iteration order the batch driver relies on, is an
      association list in insertion order.
    - A Python exception is the result [None].
    - Library functions are embedded by their documented behaviour:
      [np.unique], [np.where], [argmin], pandas' [unique], Python's stable
      [list.sort], and scikit-learn's [f1_score].  [np.argsort], whose order
      among equal values is not fixed by NumPy's default sort, is a
      parameter of the development; so are [savgol_filter],
      [np.random.choice] and the path returned by [fastdtw]. *)

From Stdlib Require Import ZArith QArith Qabs Lia Lqa.
From stdpp Require Import base option list sorting gmap strings.

Local Open Scope Z_scope.

(** ** NumPy, pandas and scikit-learn primitives used by the source *)

Module Np.

(** [np.where(mask)[0]]: the positions at which [mask] holds, ascending. *)
Fixpoint where_from (i : nat) (mask : list bool) : list nat :=
  match mask with
  | [] => []
  | b :: m => if b then i :: where_from (S i) m else where_from (S i) m
  end.

Definition where_ (mask : list bool) : list nat := where_from 0 mask.

(** [a[mask]] for a boolean [mask] of the length of [a]. *)
Fixpoint bool_index {A} (a : list A) (mask : list bool) : list A :=
  match a, mask with
  | x :: a', b :: m => if b then x :: bool_index a' m else bool_index a' m
  | _, _ => []
  end.

(** [a[indices]] for an array of in-range positions. *)
Definition take_indices {A} (a : list A) (indices : list nat) : list A :=
  omap (fun i => a !! i) indices.

(** [a == v], elementwise. *)
Definition eq_mask (a : list Z) (v : Z) : list bool := map (Z.eqb v) a.

(** [np.unique(a)]: the distinct values of [a], ascending. *)
Fixpoint insert_unique (x : Z) (l : list Z) : list Z :=
  match l with
  | [] => [x]
  | y :: l' =>
      if x <? y then x :: l
      else if x =? y then l
      else y :: insert_unique x l'
  end.

Definition unique (a : list Z) : list Z := foldr insert_unique [] a.

(** [Series.unique()] of pandas: distinct values in order of first
    appearance. *)
Fixpoint unique_from (seen : list Z) (a : list Z) : list Z :=
  match a with
  | [] => []
  | x :: a' =>
      if bool_decide (x ∈ seen) then unique_from seen a'
      else x :: unique_from (x :: seen) a'
  end.

Definition pd_unique (a : list Z) : list Z := unique_from [] a.

Definition Qltb (x y : Q) : bool := negb (Qle_bool y x).

#[global] Instance Qeq_decision : RelDecision Qeq := Qeq_dec.

Definition Qsum (a : list Q) : Q := foldr Qplus 0%Q a.

(** [a.mean()] *)
Definition mean (a : list Q) : Q :=
  (Qsum a / inject_Z (Z.of_nat (length a)))%Q.

(** [a.var()] with the default [ddof=0]; [a.std()] is its square root. *)
Definition var (a : list Q) : Q :=
  mean (map (fun x => ((x - mean a) * (x - mean a))%Q) a).

(** [a.std() < t], for [0 < t], in exact arithmetic: the variance is below
    [t * t].  NumPy evaluates the test in float64; this is the instance of
    the test without rounding. *)
Definition std_lt_exact (a : list Q) (t : Q) : bool := Qltb (var a) (t * t).

(** [a[lo:hi]] for [0 <= lo]; like Python, a slice is cut at the end of
    [a]. *)
Definition slice {A} (a : list A) (lo hi : Z) : list A :=
  take (Z.to_nat hi - Z.to_nat lo)%nat (drop (Z.to_nat lo) a).

(** [np.diff(a, prepend=a[0])] for a non-empty [a]. *)
Definition diff_prepend (a : list Q) : list Q :=
  match a with
  | [] => []
  | x0 :: _ => zip_with Qminus a (x0 :: a)
  end.

(** [a.min()] and [a.argmin()] (first position of the minimum) of a
    non-empty array. *)
Fixpoint argmin_from (i : nat) (best : nat) (bv : Q) (a : list Q) : nat :=
  match a with
  | [] => best
  | x :: a' =>
      if Qltb x bv then argmin_from (S i) i x a'
      else argmin_from (S i) best bv a'
  end.

Definition argmin (a : list Q) : nat :=
  match a with
  | [] => 0%nat
  | x :: a' => argmin_from 1 0 x a'
  end.

Definition min (a : list Q) : Q :=
  match a with
  | [] => 0%Q
  | x :: a' => foldl (fun m y => if Qltb y m then y else m) x a'
  end.

End Np.

(** ** scikit-learn's [f1_score(y_true, y_pred, average='macro',
       zero_division=0)]

    With [labels=None] the classes averaged over are the sorted distinct
    labels that occur in [y_true] or [y_pred]. *)

Module Sk.

Definition count (k : Z) (a : list Z) : Z :=
  Z.of_nat (length (filter (fun v => v = k) a)).

(** true positives of class [k] *)
Definition tp (k : Z) (y_true y_pred : list Z) : Z :=
  Z.of_nat (length (filter (fun p => p.1 = k ∧ p.2 = k) (zip y_true y_pred))).

(** F1 of one class, [2 tp / (true_sum + pred_sum)], and [0] where the
    quotient is undefined ([zero_division=0]). *)
Definition f1_class (y_true y_pred : list Z) (k : Z) : Q :=
  let denom := count k y_true + count k y_pred in
  if denom =? 0 then 0%Q
  else (inject_Z (2 * tp k y_true y_pred) / inject_Z denom)%Q.

Definition unique_labels (y_true y_pred : list Z) : list Z :=
  Np.unique (y_true ++ y_pred).

(** Arrays of different lengths are rejected ([ValueError]); the value on
    empty arrays is not modelled. *)
Definition f1_score_macro (y_true y_pred : list Z) : option Q :=
  if negb (length y_true =? length y_pred)%nat then None
  else if (length y_true =? 0)%nat then None
  else Some (Np.mean (map (f1_class y_true y_pred)
                          (unique_labels y_true y_pred))).

(** The macro average as the specification words it, for comparison: the
    mean over the four classes [0..3], a class without true and without
    predicted instances counting as [0]. *)
Definition macro_f1_four_classes (y_true y_pred : list Z) : Q :=
  ((f1_class y_true y_pred 0 + f1_class y_true y_pred 1
    + f1_class y_true y_pred 2 + f1_class y_true y_pred 3) / 4)%Q.

End Sk.

(** ** 1. The tolerance-aware metric *)

Module Metric.

(** The first global position of class [kp] inside one well:
    [indices[labels == kp][0]], when there is one. *)
Definition keypoints (indices : list nat) (labels : list Z) : gmap Z nat :=
  foldl (fun d kp =>
           match Np.bool_index indices (Np.eq_mask labels kp) with
           | p :: _ => <[kp := p]> d
           | [] => d
           end) ∅ [1; 2; 3].

(** One iteration of the forgiveness loop for class [kp]. *)
Definition forgive (true_keypoints pred_keypoints : gmap Z nat)
    (tolerance_first tolerance_rest : Z)
    (y_pred_adjusted : list Z) (kp : Z) : list Z :=
  match true_keypoints !! kp, pred_keypoints !! kp with
  | Some true_pos, Some pred_pos =>
      let tolerance := if kp =? 1 then tolerance_first else tolerance_rest in
      if Z.abs (Z.of_nat true_pos - Z.of_nat pred_pos) <=? tolerance
      then <[true_pos := kp]> (<[pred_pos := 0]> y_pred_adjusted)
      else y_pred_adjusted
  | _, _ => y_pred_adjusted
  end.

(** The body of the loop over wells. *)
Definition adjust_well (y_true y_pred well_ids : list Z)
    (tolerance_first tolerance_rest : Z)
    (y_pred_adjusted : list Z) (well_id : Z) : list Z :=
  let mask := Np.eq_mask well_ids well_id in
  let indices := Np.where_ mask in
  let true_labels := Np.bool_index y_true mask in
  let pred_labels := Np.bool_index y_pred mask in
  let true_keypoints := keypoints indices true_labels in
  let pred_keypoints := keypoints indices pred_labels in
  foldl (forgive true_keypoints pred_keypoints tolerance_first tolerance_rest)
        y_pred_adjusted [1; 2; 3].

(** [y_pred_adjusted] after the loop over [np.unique(well_ids)]. *)
Definition adjust (y_true y_pred well_ids : list Z)
    (tolerance_first tolerance_rest : Z) : list Z :=
  foldl (adjust_well y_true y_pred well_ids tolerance_first tolerance_rest)
        y_pred (Np.unique well_ids).

(** Indexing [y_true] or [y_pred] with a mask of another length raises
    [IndexError]; this happens in the first iteration, so only when
    [well_ids] is not empty. *)
Definition shapes_ok (y_true y_pred well_ids : list Z) : bool :=
  match well_ids with
  | [] => true
  | _ => (length y_true =? length well_ids)%nat
         && (length y_pred =? length well_ids)%nat
  end.

Definition macro_f1_with_tolerance (y_true y_pred well_ids : list Z)
    (tolerance_first tolerance_rest : Z) : option Q :=
  if shapes_ok y_true y_pred well_ids then
    let y_true_adjusted := y_true in
    let y_pred_adjusted :=
      adjust y_true y_pred well_ids tolerance_first tolerance_rest in
    Sk.f1_score_macro y_true_adjusted y_pred_adjusted
  else None.

End Metric.

(** ** 2. Candidate generation and the constrained search *)

Module Decoder.

(** One row of the [N x 4] probability matrix. *)
Record proba_row := ProbaRow { p0 : Q; p1 : Q; p2 : Q; p3 : Q }.

(** [model_proba[:, kp]] *)
Definition column (kp : Z) (model_proba : list proba_row) : list Q :=
  map (fun r => if kp =? 1 then p1 r else if kp =? 2 then p2 r
                else if kp =? 3 then p3 r else p0 r) model_proba.

(** A candidate is a pair [(idx, total_score)]. *)
Definition candidate : Type := Z * Q.

(** The returned dictionary [{kp: idx}], in insertion order. *)
Definition assignment : Type := list (Z * Z).

Definition position (kp : Z) (a : assignment) : option Z :=
  (fun r => r.2.2) <$> list_find (fun e => e.1 = kp) a.

Definition K : nat := 10.

(** [a[-k:]] *)
Definition last_k {A} (k : nat) (a : list A) : list A :=
  drop (length a - k) a.

(** [a[idx]] for an in-range [idx]. *)
Definition at_ (a : list Q) (idx : Z) : Q :=
  default 0%Q (a !! Z.to_nat idx).

(** The physical-trend bonus [phys_score] of position [idx] for class
    [kp].  [std_lt a t] is the test [a.std() < t] as NumPy evaluates it in
    float64; the rounding of the reduction is not fixed by NumPy, so the
    test is a parameter. *)
Definition phys_score (std_lt : list Q -> Q -> bool)
    (n : Z) (jx jx_diff : list Q) (kp idx : Z) : Q :=
  if kp =? 1 then
    if idx <? n - 10 then
      let future_trend :=
        (Np.mean (Np.slice jx (idx + 1) (idx + 11)) - at_ jx idx)%Q in
      if Np.Qltb (5 # 10) future_trend then (3 # 10)%Q else 0%Q
    else 0%Q
  else if kp =? 2 then
    if (10 <=? idx) && (idx <? n - 10) then
      let window := Np.slice jx_diff (idx - 10) (idx + 10) in
      if std_lt window (2 # 10) then (3 # 10)%Q else 0%Q
    else 0%Q
  else if kp =? 3 then
    if idx <? n - 10 then
      let future_trend :=
        (Np.mean (Np.slice jx (idx + 1) (idx + 11)) - at_ jx idx)%Q in
      if Np.Qltb future_trend (- (3 # 10)) then (3 # 10)%Q else 0%Q
    else 0%Q
  else 0%Q.

(** The prior-proximity bonus [prior_score]. *)
Definition prior_score (prior_info : gmap Z Z) (kp idx : Z) : Q :=
  match prior_info !! kp with
  | Some prior =>
      let dist := Z.abs (idx - prior) in
      if dist <? 15 then ((2 # 10) * (1 - inject_Z dist / 15))%Q else 0%Q
  | None => 0%Q
  end.

(** [list.sort(key=lambda x: x[1], reverse=True)]: a stable sort, so
    candidates of equal score keep their relative order. *)
Fixpoint insert_desc (x : candidate) (l : list candidate) : list candidate :=
  match l with
  | [] => [x]
  | y :: l' =>
      if Qle_bool y.2 x.2 then x :: l else y :: insert_desc x l'
  end.

Definition sort_desc (l : list candidate) : list candidate :=
  foldr insert_desc [] l.

(** The staged state of the search: [(best_combo, best_score)]. *)
Definition search_state : Type := option assignment * Q.

Definition try_kp3 (kp1_idx : Z) (kp1_score : Q) (kp2_idx : Z) (kp2_score : Q)
    (st : search_state) (c3 : option Z * Q) : search_state :=
  let '(kp3_idx, kp3_score) := c3 in
  if match kp3_idx with Some i => i <? kp2_idx + 20 | None => false end
  then st
  else
    let combo_score :=
      (kp1_score + kp2_score
       + match kp3_idx with Some _ => kp3_score | None => 0 end)%Q in
    if Np.Qltb st.2 combo_score then
      (Some match kp3_idx with
            | Some i => [(1, kp1_idx); (2, kp2_idx); (3, i)]
            | None => [(1, kp1_idx); (2, kp2_idx)]
            end, combo_score)
    else st.

Definition try_kp2 (cands3 : list candidate) (kp1_idx : Z) (kp1_score : Q)
    (st : search_state) (c2 : candidate) : search_state :=
  let '(kp2_idx, kp2_score) := c2 in
  if kp2_idx <? kp1_idx + 20 then st
  else foldl (try_kp3 kp1_idx kp1_score kp2_idx kp2_score) st
             (map (fun c => (Some c.1, c.2)) (take 5 cands3) ++ [(None, 0%Q)]).

Definition try_kp1 (cands2 cands3 : list candidate)
    (st : search_state) (c1 : candidate) : search_state :=
  let '(kp1_idx, kp1_score) := c1 in
  foldl (try_kp2 cands3 kp1_idx kp1_score) st (take 5 cands2).

Definition search (cands1 cands2 cands3 : list candidate) : search_state :=
  foldl (try_kp1 cands2 cands3) (None, (-1)%Q) (take 5 cands1).

(** The fallback: the head of each non-empty candidate list. *)
Definition fallback (cands : Z -> list candidate) : assignment :=
  foldl (fun best_combo kp =>
           match cands kp with
           | c :: _ => best_combo ++ [(kp, c.1)]
           | [] => best_combo
           end) [] [1; 2; 3].

(** [desc c c']: [c] may stand before [c'] in a list sorted by descending
    score. *)
Definition desc (c c' : candidate) : Prop := (c'.2 <= c.2)%Q.

(** The assignments the search can record: ordered and spaced. *)
Definition spaced (a : assignment) : Prop :=
  (∃ i1 i2, a = [(1, i1); (2, i2)] ∧ i1 + 20 ≤ i2)
  ∨ (∃ i1 i2 i3, a = [(1, i1); (2, i2); (3, i3)]
                 ∧ i1 + 20 ≤ i2 ∧ i2 + 20 ≤ i3).

(** Invariants of the search loop: a recorded combination is spaced, and
    until one is recorded [best_score] is still [-1]. *)
Definition sound (st : search_state) : Prop :=
  ∀ a, st.1 = Some a → spaced a.

Definition fresh (st : search_state) : Prop :=
  st.1 = None → st.2 = (-1)%Q.

Section WithArgsort.

(** [np.argsort]: the positions of an array in ascending order of value.
    NumPy's default sort is not stable, so the order of positions of
    equal value is left open: the development is parametric in the
    function, and [argsort_stable] below is one instance. *)
Variable argsort : list Q -> list Z.

(** [a.std() < t] as NumPy evaluates it in float64, the parameter of
    [phys_score]; [Np.std_lt_exact] is the instance in exact arithmetic. *)
Variable std_lt : list Q -> Q -> bool.

Definition top_k_indices (kp_proba : list Q) : list Z :=
  last_k K (argsort kp_proba).

(** The candidates of class [kp] as appended by the generation loop. *)
Definition scored (jx : list Q) (model_proba : list proba_row)
    (prior_info : gmap Z Z) (kp : Z) : list candidate :=
  let n := Z.of_nat (length jx) in
  let jx_diff := Np.diff_prepend jx in
  let kp_proba := column kp model_proba in
  omap (fun idx =>
          if Np.Qltb (1 # 10) (at_ kp_proba idx) then
            let score := at_ kp_proba idx in
            let total_score :=
              (score + phys_score std_lt n jx jx_diff kp idx
               + prior_score prior_info kp idx)%Q in
            Some (idx, total_score)
          else None)
       (top_k_indices kp_proba).

(** [candidates[kp]] after sorting. *)
Definition candidates (jx : list Q) (model_proba : list proba_row)
    (prior_info : gmap Z Z) (kp : Z) : list candidate :=
  sort_desc (scored jx model_proba prior_info kp).

(** [jx[0]] raises [IndexError] on an empty well. *)
Definition dp_post_process (jx : list Q) (model_proba : list proba_row)
    (prior_info : gmap Z Z) : option assignment :=
  match jx with
  | [] => None
  | _ =>
      let cands := candidates jx model_proba prior_info in
      match (search (cands 1) (cands 2) (cands 3)).1 with
      | Some best_combo => Some best_combo
      | None => Some (fallback cands)
      end
  end.

End WithArgsort.

(** A stable argsort: insertion of positions from the right. *)
Fixpoint insert_asc (a : list Q) (i : Z) (l : list Z) : list Z :=
  match l with
  | [] => [i]
  | j :: l' =>
      if Qle_bool (at_ a i) (at_ a j) then i :: l else j :: insert_asc a i l'
  end.

Definition argsort_stable (a : list Q) : list Z :=
  foldr (insert_asc a) [] (map Z.of_nat (seq 0 (length a))).

End Decoder.

(** ** 3. The batch driver *)

Module Batch.
Import Decoder.

(** One row of [test_features]: the columns the driver reads. *)
Record sample := Sample {
  well_id : Z;
  JX : Q;
  dist_to_prior_kp1 : Q;
  dist_to_prior_kp2 : Q;
  dist_to_prior_kp3 : Q
}.

(** The data frame: its rows, and the classes [kp] for which the column
    [dist_to_prior_kp{kp}] exists. *)
Record frame := Frame {
  rows : list sample;
  dist_columns : list Z
}.

Definition dist_to_prior (kp : Z) (s : sample) : Q :=
  if kp =? 1 then dist_to_prior_kp1 s
  else if kp =? 2 then dist_to_prior_kp2 s
  else dist_to_prior_kp3 s.

Definition row_add (a b : proba_row) : proba_row :=
  ProbaRow (p0 a + p0 b) (p1 a + p1 b) (p2 a + p2 b) (p3 a + p3 b).

Definition row_scale (w : Q) (a : proba_row) : proba_row :=
  ProbaRow (p0 a * w) (p1 a * w) (p2 a * w) (p3 a * w).

(** The rows that [proba] contributes to a matrix of [N] rows under
    NumPy's broadcasting: its own rows when there are [N] of them, its
    single row repeated when there is one; any other number of rows cannot
    be broadcast. *)
Definition broadcast_rows (N : nat) (proba : list proba_row)
    : option (list proba_row) :=
  if (length proba =? N)%nat then Some proba
  else match proba with
       | [r] => Some (replicate N r)
       | _ => None
       end.

(** [final_proba += proba * weights[name]]: a missing weight raises
    [KeyError], a matrix that cannot be broadcast to the rows of
    [final_proba] raises [ValueError]. *)
Definition accumulate (weights : gmap string Q)
    (final_proba : option (list proba_row))
    (entry : string * list proba_row) : option (list proba_row) :=
  fp ← final_proba;
  w ← weights !! entry.1;
  proba ← broadcast_rows (length fp) entry.2;
  Some (zip_with (fun a r => row_add a (row_scale w r)) fp proba).

Definition fuse (N : nat) (tree_preds dl_preds : list (string * list proba_row))
    (weights : gmap string Q) : option (list proba_row) :=
  let zeros := replicate N (ProbaRow 0 0 0 0) in
  foldl (accumulate weights) (foldl (accumulate weights) (Some zeros) tree_preds)
        dl_preds.

(** [prior_keypoints] of one well. *)
Definition prior_keypoints (columns : list Z) (group : list sample)
    : gmap Z Z :=
  foldl (fun d kp =>
           if bool_decide (kp ∈ columns) then
             let dists := map (dist_to_prior kp) group in
             if Np.Qltb (Np.min dists) 900
             then <[kp := Z.of_nat (Np.argmin dists)]> d
             else d
           else d) ∅ [1; 2; 3].

(** Writing one entry of [best_combo] into [final_predictions]. *)
Definition mark (len_group : Z) (group_indices : list nat)
    (final_predictions : list Z) (e : Z * Z) : list Z :=
  let '(kp, idx) := e in
  if (0 <=? idx) && (idx <? len_group) then
    match group_indices !! Z.to_nat idx with
    | Some global_idx => <[global_idx := kp]> final_predictions
    | None => final_predictions
    end
  else final_predictions.

(** The label that the loop over [best_combo.items()] leaves at position
    [idx] of a well: a later entry at the position overwrites an earlier
    one, and a position without an entry keeps 0. *)
Definition written_label (best_combo : assignment) (idx : Z) : Z :=
  foldl (fun v e => if e.2 =? idx then e.1 else v) 0 best_combo.

(** [test_features['well_id'] == w] and [np.where(mask)[0]]. *)
Definition well_mask (test_features : frame) (w : Z) : list bool :=
  map (fun s => well_id s =? w) (rows test_features).

Definition group_indices (test_features : frame) (w : Z) : list nat :=
  Np.where_ (well_mask test_features w).

Section WithArgsort.

Variable argsort : list Q -> list Z.
Variable std_lt : list Q -> Q -> bool.

(** The key points decoded for one well. *)
Definition decode_well (test_features : frame)
    (final_proba : list proba_row) (w : Z) : option assignment :=
  let mask := well_mask test_features w in
  let group := Np.bool_index (rows test_features) mask in
  let group_proba :=
    Np.take_indices final_proba (group_indices test_features w) in
  dp_post_process argsort std_lt (map JX group) group_proba
    (prior_keypoints (dist_columns test_features) group).

(** The body of the loop over wells. *)
Definition process_well (test_features : frame)
    (final_proba : list proba_row)
    (final_predictions : option (list Z)) (w : Z) : option (list Z) :=
  preds ← final_predictions;
  let mask := well_mask test_features w in
  let group := Np.bool_index (rows test_features) mask in
  best_combo ← decode_well test_features final_proba w;
  Some (foldl (mark (Z.of_nat (length group))
                    (group_indices test_features w))
              preds best_combo).

Definition advanced_post_process (test_features : frame)
    (tree_preds dl_preds : list (string * list proba_row))
    (weights : gmap string Q) : option (list Z) :=
  let N := length (rows test_features) in
  final_proba ← fuse N tree_preds dl_preds weights;
  foldl (process_well test_features final_proba)
        (Some (replicate N 0))
        (Np.pd_unique (map well_id (rows test_features))).

(** A label [kp] at the global index [g] stems from the decoding of the
    well of [g]. *)
Definition justified (tf : frame) (final_proba : list proba_row)
    (g : nat) (kp : Z) : Prop :=
  ∃ w best_combo idx,
    map well_id (rows tf) !! g = Some w
    ∧ decode_well tf final_proba w = Some best_combo
    ∧ (kp, idx) ∈ best_combo
    ∧ group_indices tf w !! Z.to_nat idx = Some g.

(** Invariant of the loop over wells. *)
Definition labelled (tf : frame) (final_proba : list proba_row)
    (o : option (list Z)) : Prop :=
  ∃ preds, o = Some preds
    ∧ length preds = length (rows tf)
    ∧ ∀ g kp, preds !! g = Some kp → kp ≠ 0 →
              justified tf final_proba g kp.

(** The label vector after the wells [done] have been handled: a sample of
    a handled well carries the label written for its position in the
    well, every other sample still carries 0. *)
Definition handled (tf : frame) (final_proba : list proba_row)
    (done : list Z) (preds : list Z) : Prop :=
  length preds = length (rows tf)
  ∧ ∀ g w, map well_id (rows tf) !! g = Some w →
      (w ∈ done →
       ∃ best_combo j,
         decode_well tf final_proba w = Some best_combo
         ∧ group_indices tf w !! j = Some g
         ∧ preds !! g = Some (written_label best_combo (Z.of_nat j)))
      ∧ (w ∉ done → preds !! g = Some 0).

End WithArgsort.

End Batch.

(** ** 4. The metric over a store of arrays

    The same function with its arrays held in a store, so that the copies
    and the in-place writes of the source are explicit; the functions of
    [Metric] reappear with the suffix [_st]. *)

Module Store.

Abbreviation loc := nat.
Abbreviation store := (list (list Z)).

(** Computations over the store that may raise. *)
Definition M (A : Type) : Type := store -> option (A * store).

#[global] Instance store_ret : MRet M := fun A x h => Some (x, h).

#[global] Instance store_bind : MBind M := fun A B f m h =>
  match m h with Some (x, h') => f x h' | None => None end.

Definition raise {A} : M A := fun _ => None.

(** Reading the array at [l]. *)
Definition load (l : loc) : M (list Z) :=
  fun h => match h !! l with Some a => Some (a, h) | None => None end.

(** [a.copy()]: a fresh array with the contents of the one at [l]. *)
Definition copy (l : loc) : M loc :=
  fun h => match h !! l with
           | Some a => Some (length h, h ++ [a])
           | None => None
           end.

(** [a[i] = v] on the array at [l]; out of range raises [IndexError]. *)
Definition setitem (l : loc) (i : nat) (v : Z) : M unit :=
  fun h => match h !! l with
           | Some a =>
               if (i <? length a)%nat then Some (tt, <[l := <[i := v]> a]> h)
               else None
           | None => None
           end.

Definition of_option {A} (o : option A) : M A :=
  match o with Some x => mret x | None => raise end.

(** [for x in xs: body x] *)
Fixpoint for_each {A} (xs : list A) (body : A -> M unit) : M unit :=
  match xs with
  | [] => mret tt
  | x :: xs' => body x;; for_each xs' body
  end.

Definition forgive_st (true_keypoints pred_keypoints : gmap Z nat)
    (tolerance_first tolerance_rest : Z)
    (y_pred_adjusted : loc) (kp : Z) : M unit :=
  match true_keypoints !! kp, pred_keypoints !! kp with
  | Some true_pos, Some pred_pos =>
      let tolerance := if kp =? 1 then tolerance_first else tolerance_rest in
      if Z.abs (Z.of_nat true_pos - Z.of_nat pred_pos) <=? tolerance
      then setitem y_pred_adjusted pred_pos 0;;
           setitem y_pred_adjusted true_pos kp
      else mret tt
  | _, _ => mret tt
  end.

Definition adjust_well_st (y_true y_pred well_ids : loc)
    (tolerance_first tolerance_rest : Z)
    (y_pred_adjusted : loc) (well_id : Z) : M unit :=
  ids ← load well_ids;
  yt ← load y_true;
  yp ← load y_pred;
  if negb ((length yt =? length ids)%nat && (length yp =? length ids)%nat)
  then raise
  else
    let mask := Np.eq_mask ids well_id in
    let indices := Np.where_ mask in
    let true_labels := Np.bool_index yt mask in
    let pred_labels := Np.bool_index yp mask in
    let true_keypoints := Metric.keypoints indices true_labels in
    let pred_keypoints := Metric.keypoints indices pred_labels in
    for_each [1; 2; 3]
      (forgive_st true_keypoints pred_keypoints tolerance_first
                  tolerance_rest y_pred_adjusted).

(** The two working copies are the arrays allocated first, so they sit at
    the two locations that follow the store on entry. *)
Definition macro_f1_with_tolerance_st (y_true y_pred well_ids : loc)
    (tolerance_first tolerance_rest : Z) : M Q :=
  y_true_adjusted ← copy y_true;
  y_pred_adjusted ← copy y_pred;
  ids ← load well_ids;
  for_each (Np.unique ids)
    (adjust_well_st y_true y_pred well_ids tolerance_first tolerance_rest
                    y_pred_adjusted);;
  a ← load y_true_adjusted;
  b ← load y_pred_adjusted;
  of_option (Sk.f1_score_macro a b).

End Store.

(** ** Concrete wells used to instantiate the properties *)

Module Wells.
Import Decoder.

(** [n] rows, row [i] being [f i]. *)
Definition rows_of (n : nat) (f : nat → proba_row) : list proba_row :=
  map f (seq 0 n).

Definition background : proba_row := ProbaRow 1 0 0 0.

(** A flat well of 30 samples with a class-1 spike at 5 and a class-2
    spike at 10: the only pair is too close. *)
Definition jx_flat30 : list Q := replicate 30 1%Q.
Definition proba_close : list proba_row :=
  rows_of 30 (fun i =>
    if (i =? 5)%nat then ProbaRow 0 (9 # 10) 0 0
    else if (i =? 10)%nat then ProbaRow 0 0 (9 # 10) 0
    else background).

(** A flat well of 60 samples with spikes at 5 and 40. *)
Definition jx_flat60 : list Q := replicate 60 1%Q.
Definition proba_spaced : list proba_row :=
  rows_of 60 (fun i =>
    if (i =? 5)%nat then ProbaRow 0 (9 # 10) 0 0
    else if (i =? 40)%nat then ProbaRow 0 0 (9 # 10) 0
    else background).

(** A well of 12 samples that steps from 0 to 1 right after its first
    sample, with a class-1 spike at position 0. *)
Definition jx_step12 : list Q := 0%Q :: replicate 11 1%Q.
Definition proba_first : list proba_row :=
  rows_of 12 (fun i =>
    if (i =? 0)%nat then ProbaRow 0 (9 # 10) 0 0 else background).

(** A flat well of 20 samples with a class-2 spike at position 10, and
    one with the spike at the last position. *)
Definition jx_flat20 : list Q := replicate 20 1%Q.
Definition proba_last20 : list proba_row :=
  rows_of 20 (fun i =>
    if (i =? 19)%nat then ProbaRow 0 0 (9 # 10) 0 else background).

(** A flat well of 40 samples with a class-2 spike at position 15. *)
Definition jx_flat40 : list Q := replicate 40 1%Q.
Definition proba_mid40 : list proba_row :=
  rows_of 40 (fun i =>
    if (i =? 15)%nat then ProbaRow 0 0 (9 # 10) 0 else background).

(** A well of 70 samples that steps from 0 to 1 after sample 50; class 1
    has probability 0.8 at position 5 and 0.5 at position 50. *)
Definition jx_step70 : list Q := replicate 51 0%Q ++ replicate 19 1%Q.
Definition proba_tie : list proba_row :=
  rows_of 70 (fun i =>
    if (i =? 5)%nat then ProbaRow 0 (8 # 10) 0 0
    else if (i =? 50)%nat then ProbaRow 0 (5 # 10) 0 0
    else background).

(** Two wells of 30 samples each, stored one after the other, without a
    usable prior; spikes at global rows 5, 28 (well 100) and 33, 57
    (well 200). *)
Definition two_wells : Batch.frame :=
  Batch.Frame
    (map (fun i => Batch.Sample (if (i <? 30)%nat then 100 else 200)
                                1 999 999 999) (seq 0 60))
    [1; 2; 3].
Definition proba_two_wells : list proba_row :=
  rows_of 60 (fun i =>
    if ((i =? 5) || (i =? 33))%nat then ProbaRow 0 (9 # 10) 0 0
    else if ((i =? 28) || (i =? 57))%nat then ProbaRow 0 0 (9 # 10) 0
    else background).
Definition tree_preds_lgb : list (string * list proba_row) :=
  [("lgb"%string, proba_two_wells)].
Definition weights_lgb : gmap string Q := {[ "lgb"%string := (7 # 10)%Q ]}.

(** A well of 200 samples whose angle rises from sample 40 to 60, stays
    flat to 150 and falls to 180, with spikes of 0.9 at positions 45
    (class 1), 100 (class 2) and 160 (class 3) over a low background. *)
Definition jx_profile200 : list Q :=
  map (fun i =>
         if (i <? 40)%nat then 0%Q
         else if (i <? 60)%nat then inject_Z (Z.of_nat (i - 40))
         else if (i <? 150)%nat then 20%Q
         else if (i <? 180)%nat
              then (20 - inject_Z (Z.of_nat (i - 150)) * (1 # 2))%Q
         else 5%Q) (seq 0 200).
Definition proba_spikes200 : list proba_row :=
  rows_of 200 (fun i =>
    if (i =? 45)%nat then ProbaRow 0 (9 # 10) 0 0
    else if (i =? 100)%nat then ProbaRow 0 0 (9 # 10) 0
    else if (i =? 160)%nat then ProbaRow 0 0 0 (9 # 10)
    else ProbaRow (97 # 100) (1 # 100) (1 # 100) (1 # 100)).

(** Label vectors of 60 samples of one well: class 1 at position 50 in the
    truth and at position 51 in the prediction. *)
Definition labels_at (p : nat) : list Z :=
  map (fun i => if (i =? p)%nat then 1 else 0) (seq 0 60).
Definition one_well60 : list Z := replicate 60 7.

(** Three samples of one well with prior distances 5, 2, 7 for class 1,
    and one sample whose prior distance is 950. *)
Definition group_prior : list Batch.sample :=
  [Batch.Sample 7 1 5 999 999; Batch.Sample 7 1 2 999 999;
   Batch.Sample 7 1 7 999 999].
Definition group_far : list Batch.sample := [Batch.Sample 7 1 950 999 999].

End Wells.

(** ** Predicates used to state further properties *)

Module Props.

(** [t] is the first position of well [w] at which [y] carries the label
  [kp]. *)
Definition first_in_well (well_ids y : list Z) (w kp : Z) (t : nat) : Prop :=
well_ids !! t = Some w ∧ y !! t = Some kp
∧ ∀ t', (t' < t)%nat → well_ids !! t' = Some w → y !! t' ≠ Some kp.

(** [v] is one of the key point labels 1, 2, 3. *)
Definition is_keypoint (v : Z) : Prop := v = 1 ∨ v = 2 ∨ v = 3.

End Props.

(** ** The combinations enumerated by the search *)

Module Combos.
Import Decoder.

(** A class-1 candidate, a class-2 candidate and an optional class-3
  candidate. *)
Definition combo : Type := candidate * candidate * option candidate.

(** The ordering and spacing constraints of the search. *)
Definition admissible (c : combo) : Prop :=
c.1.1.1 + 20 ≤ c.1.2.1
∧ ∀ c3, c.2 = Some c3 → c.1.2.1 + 20 ≤ c3.1.

(** [combo_score] and the dictionary recorded for a combination. *)
Definition combo_score (c : combo) : Q :=
(c.1.1.2 + c.1.2.2 + match c.2 with Some c3 => c3.2 | None => 0 end)%Q.

Definition combo_assignment (c : combo) : assignment :=
match c.2 with
| Some c3 => [(1, c.1.1.1); (2, c.1.2.1); (3, c3.1)]
| None => [(1, c.1.1.1); (2, c.1.2.1)]
end.

(** The combinations the loops run over: the first five candidates of each
  class, class 3 being optional. *)
Definition searched (cands1 cands2 cands3 : list candidate) (c : combo)
  : Prop :=
c.1.1 ∈ take 5 cands1 ∧ c.1.2 ∈ take 5 cands2
∧ ∀ c3, c.2 = Some c3 → c3 ∈ take 5 cands3.

(** Invariant of the search loop: the recorded combination is one that was
  enumerated and found admissible, with [best_score] its score. *)
Definition achieved (cands1 cands2 cands3 : list candidate)
  (st : search_state) : Prop :=
∀ a, st.1 = Some a →
  ∃ c, searched cands1 cands2 cands3 c ∧ admissible c
       ∧ a = combo_assignment c ∧ st.2 = combo_score c.

End Combos.

(** ** Further concrete wells *)

Module MoreWells.
Import Decoder.

(** A flat well of 60 samples with spikes at 5 (class 1), 40 (class 2) and
  50 (class 3): the class-3 spike is too close to the class-2 one. *)
Definition proba_class3_close : list proba_row :=
Wells.rows_of 60 (fun i =>
  if (i =? 5)%nat then ProbaRow 0 (9 # 10) 0 0
  else if (i =? 40)%nat then ProbaRow 0 0 (9 # 10) 0
  else if (i =? 50)%nat then ProbaRow 0 0 0 (9 # 10)
  else Wells.background).

(** A well of 30 samples in which no class reaches the confidence floor. *)
Definition proba_quiet : list proba_row :=
Wells.rows_of 30 (fun _ => ProbaRow (7 # 10) (1 # 10) (1 # 10) (1 # 10)).

(** Three samples of one well whose class-1 prior distances are those to
  position 1. *)
Definition group_aligned : list Batch.sample :=
[Batch.Sample 7 1 1 999 999; Batch.Sample 7 1 0 999 999;
 Batch.Sample 7 1 1 999 999].

End MoreWells.

(** ** The weighted sum computed by the fusion *)

Module Fusion.
Import Decoder.

(** The entry of class [kp] that a source contributes to row [i] of a fused
matrix of [N] rows: that of its row [i] when it has [N] rows, and that
of its first row otherwise (a source of a single row is broadcast). *)
Definition source_entry (N : nat) (proba : list proba_row) (kp : Z)
  (i : nat) : Q :=
default 0%Q
  (column kp proba !! (if (length proba =? N)%nat then i else 0%nat)).

(** The sum, over the sources in order, of [weights[name] * proba[i, kp]]. *)
Definition weighted_sum (N : nat) (weights : gmap string Q)
  (sources : list (string * list proba_row)) (kp : Z) (i : nat) : Q :=
Np.Qsum (map (fun e => (source_entry N e.2 kp i
                        * default 0%Q (weights !! e.1))%Q) sources).

End Fusion.

(** ** 5. Key points of the design trajectory *)

Module Design.

(** [for i in range(lo, lo + n): if f(i): return i]: the first index of a
  range at which [f] holds. *)
Fixpoint find_from (f : Z -> bool) (lo : Z) (n : nat) : option Z :=
match n with
| O => None
| S n' => if f lo then Some lo else find_from f (lo + 1) n'
end.

(** The first index of [range(lo, hi)] at which [f] holds. *)
Definition first_in_range (f : Z -> bool) (lo hi : Z) : option Z :=
find_from f lo (Z.to_nat (hi - lo)).

(** The three criteria on the smoothed rate of change of the angle. *)
Definition increase_at (s : list Q) (i : Z) : bool :=
Np.Qltb (Np.mean (Np.slice s (i - 5) i)) (5 # 100)
&& Np.Qltb (15 # 100) (Np.mean (Np.slice s i (i + 5))).

Definition stabilize_at (s : list Q) (i : Z) : bool :=
Np.Qltb (1 # 10) (Np.mean (Np.slice s (i - 5) i))
&& Np.Qltb (Qabs (Np.mean (Np.slice s i (i + 10)))) (5 # 100).

Definition decrease_at (s : list Q) (i : Z) : bool :=
Np.Qltb (Qabs (Np.mean (Np.slice s (i - 5) i))) (5 # 100)
&& Np.Qltb (Np.mean (Np.slice s i (i + 5))) (- (1 # 10)).

(** The three searches on the smoothed series [s]. *)
Definition locate (s : list Q) : gmap Z Z :=
let n := Z.of_nat (length s) in
let keypoints : gmap Z Z := ∅ in
let keypoints :=
  match first_in_range (increase_at s) 10 (n - 10) with
  | Some i => <[1 := i]> keypoints
  | None => keypoints
  end in
let keypoints :=
  match keypoints !! 1 with
  | Some k1 =>
      match first_in_range (stabilize_at s) (k1 + 20) (n - 10) with
      | Some i => <[2 := i]> keypoints
      | None => keypoints
      end
  | None => keypoints
  end in
match keypoints !! 2 with
| Some k2 =>
    match first_in_range (decrease_at s) (k2 + 20) (n - 10) with
    | Some i => <[3 := i]> keypoints
    | None => keypoints
    end
| None => keypoints
end.

Section WithSavgol.

(** [scipy.signal.savgol_filter(x, window_length, polyorder)], a parameter
of the development; [None] stands for the exception it raises on a
window it rejects. *)
Variable savgol_filter : list Q -> nat -> nat -> option (list Q).

(** [design_data] is the column [JX_design], or [None]. *)
Definition extract_keypoints_from_design (design_data : option (list Q))
: option (gmap Z Z) :=
match design_data with
| None => Some ∅
| Some [] => Some ∅
| Some jx_design =>
  let jx_diff := Np.diff_prepend jx_design in
  jx_diff_smooth ←
    savgol_filter jx_diff (Nat.min 11 (length jx_diff)) 2;
  Some (locate jx_diff_smooth)
end.

End WithSavgol.

(** An instance that does not smooth at all. *)
Definition no_smoothing (x : list Q) (window_length polyorder : nat)
  : option (list Q) := Some x.

End Design.

(** A design whose angle is flat for 15 samples, rises by 1 per sample for
    30 samples, is flat for 30 samples and falls by 1 per sample for 25
    samples. *)
Module DesignWells.

Definition jx_design : list Q :=
map (fun i =>
       if (i <? 15)%nat then 0%Q
       else if (i <? 45)%nat then inject_Z (Z.of_nat (i - 15))
       else if (i <? 75)%nat then 30%Q
       else (30 - inject_Z (Z.of_nat (i - 75)))%Q) (seq 0 100).

End DesignWells.

(** ** 6. Features of one well *)

Module Features.

(** [features['depth_pct'] = np.arange(n) / max(n-1, 1)] *)
Definition depth_pct (n : nat) : list Q :=
map (fun i => (inject_Z (Z.of_nat i)
               / inject_Z (Z.max (Z.of_nat n - 1) 1))%Q) (seq 0 n).

(** [np.abs(np.arange(n) - actual_idx)] *)
Definition abs_distance (n : nat) (actual_idx : Z) : list Z :=
map (fun i => Z.abs (Z.of_nat i - actual_idx)) (seq 0 n).

(** The columns [dist_to_prior_kp{kp_type}] and [near_prior_kp{kp_type}] of
  a well of [n] samples with design data, for a class of
  [prior_keypoints]: distances to the aligned position when the design
  key point has one, the sentinel 999 otherwise.  A class without a
  design key point gets no column here. *)
Definition prior_columns (n : nat) (prior_keypoints : gmap Z Z)
  (alignment_map : option (gmap Z Z)) (kp_type : Z)
  : option (list Z * list Z) :=
match prior_keypoints !! kp_type with
| None => None
| Some design_idx =>
    match alignment_map ≫= (fun m => m !! design_idx) with
    | Some actual_idx =>
        let dist_to_prior := abs_distance n actual_idx in
        Some (dist_to_prior,
              map (fun d => if d <? 15 then 1 else 0) dist_to_prior)
    | None => Some (replicate n 999, replicate n 0)
    end
end.

(** [s.diff().fillna(0)] on a column. *)
Definition diff_fillna (s : list Q) : list Q :=
match s with
| [] => []
| _ :: t => 0%Q :: zip_with Qminus t s
end.

(** The columns [JX_diff_1], [JX_diff_2] and [JX_diff_3]: each is taken
  from the filled column before it. *)
Definition JX_diff_1 (jx : list Q) : list Q := diff_fillna jx.
Definition JX_diff_2 (jx : list Q) : list Q := diff_fillna (JX_diff_1 jx).
Definition JX_diff_3 (jx : list Q) : list Q := diff_fillna (JX_diff_2 jx).

(** The pairs of consecutive entries of [a], one for each entry of
  [np.diff(a)]. *)
Definition steps (a : list Q) : list (Q * Q) :=
match a with
| [] => []
| _ :: t => zip a t
end.

(** [group['JX'].iloc[i:end].values] with [end = min(n, i + w)]. *)
Definition window_values (jx : list Q) (i w : nat) : list Q :=
take (Nat.min (length jx) (i + w) - i) (drop i jx).

(** The columns [monotonic_inc_{w}] and [monotonic_dec_{w}].  The tests
  [np.diff(window) >= -0.01] and [np.diff(window) <= 0.01] are taken
  step by step: [diff_ge x y] and [diff_le x y] stand for the test of
  the float64 difference of a sample [x] and the next sample [y].  The
  difference is rounded before it is compared, so the tests are
  parameters. *)
Definition monotonic_inc (diff_ge : Q -> Q -> bool) (jx : list Q) (w : nat)
  : list Z :=
map (fun i =>
       let window := window_values jx i w in
       if (1 <? length window)%nat then
         if forallb (fun p => diff_ge p.1 p.2) (steps window)
         then 1 else 0
       else 0)
    (seq 0 (length jx)).

Definition monotonic_dec (diff_le : Q -> Q -> bool) (jx : list Q) (w : nat)
  : list Z :=
map (fun i =>
       let window := window_values jx i w in
       if (1 <? length window)%nat then
         if forallb (fun p => diff_le p.1 p.2) (steps window)
         then 1 else 0
       else 0)
    (seq 0 (length jx)).

(** The step tests in exact arithmetic: instances of the tests without
  rounding. *)
Definition diff_ge_exact (x y : Q) : bool := Qle_bool (- (1 # 100)) (y - x).
Definition diff_le_exact (x y : Q) : bool := Qle_bool (y - x) (1 # 100).

End Features.

(** ** 7. Sampling of hard negatives *)

Module Sampling.

(** One row of the frame: the columns [well_id] and [label].  The frame has
  the default index, so the index label of a row is its position. *)
Record row := Row { well_id : Z; label : Z }.

(** [group.loc[idx, 'label']] *)
Definition label_at (df : list row) (idx : nat) : Z :=
default 0 (label <$> df !! idx).

(** [max(1, int(len * ratio))], the product taken exactly. *)
Definition int (x : Q) : Z := Z.quot (Qnum x) (Zpos (Qden x)).

Definition n_sample (len : nat) (ratio : Q) : nat :=
Nat.max 1 (Z.to_nat (int (inject_Z (Z.of_nat len) * ratio))).

(** [group.index.get_loc(idx)]: the position of a label in the index. *)
Definition get_loc (index : list nat) (idx : nat) : option nat :=
fst <$> list_find (fun x => x = idx) index.

(** [group.index] for [group = df[df['well_id'] == w]]. *)
Definition group_index (df : list row) (w : Z) : list nat :=
Np.where_ (map (fun r => well_id r =? w) df).

(** The body of the loop over positions: a negative is added to
  [hard_neg_indices]. *)
Definition window_step (df : list row) (index : list nat)
  (hard_neg_indices : gset nat) (pos : Z) : gset nat :=
match index !! Z.to_nat pos with
| Some idx =>
    if label_at df idx =? 0 then {[ idx ]} ∪ hard_neg_indices
    else hard_neg_indices
| None => hard_neg_indices
end.

(** The negatives within [window] positions of the key point [kp_idx],
  added to [hard_neg_indices]. *)
Definition hard_window (df : list row) (index : list nat) (window : Z)
  (hard_neg_indices : gset nat) (kp_idx : nat) : gset nat :=
match get_loc index kp_idx with
| Some kp_pos =>
    let start := Z.max 0 (Z.of_nat kp_pos - window) in
    let end_ :=
      Z.min (Z.of_nat (length index)) (Z.of_nat kp_pos + window + 1) in
    foldl (window_step df index) hard_neg_indices
          (seqZ start (end_ - start))
| None => hard_neg_indices
end.

Section WithChoice.

(** [np.random.choice(a, size=k, replace=False)], drawing from the global
generator: a parameter of the development, together with the type of
the generator's state.  [None] is the [ValueError] of a draw that
cannot be made. *)
Context {rng : Type}.
Variable choice : rng -> list nat -> nat -> option (list nat * rng).

(** The draw returns some of the elements it is given, each at most as
often as it is given. *)
Definition draws_from_its_argument : Prop :=
forall g a k l g', choice g a k = Some (l, g') -> l ⊆+ a.

(** The draw succeeds when no more elements are asked for than there
are. *)
Definition draws_when_possible : Prop :=
forall g a k, (k <= length a)%nat -> is_Some (choice g a k).

(** The body of the loop over wells; the state is [sampled_list] (the index
labels of each piece) and the generator.  The order in which a Python
set is listed is not specified; [elements] stands for it. *)
Definition sample_well (df : list row) (window : Z) (ratio : Q)
(st : list (list nat) * rng) (w : Z)
: option (list (list nat) * rng) :=
let '(sampled_list, g) := st in
let index := group_index df w in
let keypoint_indices := filter (fun idx => label_at df idx ≠ 0) index in
match keypoint_indices with
| [] =>
  let neg_indices := filter (fun idx => label_at df idx = 0) index in
  if (0 <? length neg_indices)%nat then
    '(sampled_neg, g') ←
      choice g neg_indices (n_sample (length neg_indices) ratio);
    Some (sampled_list ++ [sampled_neg], g')
  else Some (sampled_list, g)
| _ =>
  let sampled_list := sampled_list ++ [keypoint_indices] in
  let hard_neg_indices :=
    foldl (hard_window df index window) ∅ keypoint_indices in
  let sampled_list :=
    if decide (hard_neg_indices ≠ ∅)
    then sampled_list ++ [elements hard_neg_indices]
    else sampled_list in
  let all_neg_indices : gset nat :=
    list_to_set (filter (fun idx => label_at df idx = 0) index) in
  let easy_neg_indices := all_neg_indices ∖ hard_neg_indices in
  if decide (easy_neg_indices ≠ ∅) then
    let n_easy_sample := n_sample (size easy_neg_indices) ratio in
    '(sampled_easy, g') ←
      choice g (elements easy_neg_indices)
             (Nat.min n_easy_sample (size easy_neg_indices));
    Some (sampled_list ++ [sampled_easy], g')
  else Some (sampled_list, g)
end.

Definition sample_step (df : list row) (window : Z) (ratio : Q)
(acc : option (list (list nat) * rng)) (w : Z)
: option (list (list nat) * rng) :=
st ← acc; sample_well df window ratio st w.

(** The index labels of the rows kept, in ascending order, and the
generator afterwards.  [pd.concat] raises on an empty list of
pieces. *)
Definition sample_hard_negatives (df : list row) (window : Z) (ratio : Q)
(g : rng) : option (list nat * rng) :=
'(sampled_list, g') ←
foldl (sample_step df window ratio) (Some ([], g))
      (Np.pd_unique (map well_id df));
match sampled_list with
| [] => None
| _ => Some (merge_sort (≤)%nat (concat sampled_list), g')
end.

End WithChoice.

(** The rows of the well [w] that the sampling is meant to keep: a key
  point, or a negative at most [window] positions of the well away from a
  key point. *)
Definition must_keep (df : list row) (window : Z) (w : Z) (idx : nat)
  : Prop :=
(idx ∈ group_index df w ∧ label_at df idx ≠ 0)
∨ ∃ kp_idx kp_pos p,
    group_index df w !! kp_pos = Some kp_idx
    ∧ label_at df kp_idx ≠ 0
    ∧ group_index df w !! p = Some idx
    ∧ label_at df idx = 0
    ∧ Z.abs (Z.of_nat p - Z.of_nat kp_pos) ≤ window.

(** An instance of the draw: the first [k] elements, with no generator
  state. *)
Definition choose_first (g : unit) (a : list nat) (k : nat)
  : option (list nat * unit) :=
if (k <=? length a)%nat then Some (take k a, g) else None.

End Sampling.

(** A frame of two wells: well 1 holds a key point at row 3 among seven
    rows, well 2 holds four negatives. *)
Module SamplingFrames.
Import Sampling.

Definition df : list row :=
[Row 1 0; Row 1 0; Row 1 0; Row 1 2; Row 1 0; Row 1 0; Row 1 0;
 Row 2 0; Row 2 0; Row 2 0; Row 2 0].

End SamplingFrames.

(** ** 8. The alignment map of a warping path *)

Module Alignment.

(** The body of the loop over the path: the actual index is appended to
  the list of its design index. *)
Definition append_pair (alignment_map : gmap Z (list Z)) (p : Z * Z)
  : gmap Z (list Z) :=
let '(design_idx, actual_idx) := p in
<[ design_idx := default [] (alignment_map !! design_idx) ++ [actual_idx] ]>
  alignment_map.

(** [int(np.mean(v))] *)
Definition int_mean (v : list Z) : Z :=
Sampling.int (Np.mean (map inject_Z v)).

(** The map from design index to actual index that
  [align_design_to_actual] builds from the path returned by [fastdtw]. *)
Definition alignment_map (path : list (Z * Z)) : gmap Z Z :=
int_mean <$> foldl append_pair ∅ path.

(** A path that advances in both coordinates, as a warping path does. *)
Definition monotone_path (path : list (Z * Z)) : Prop :=
∀ d1 a1 d2 a2,
  (d1, a1) ∈ path → (d2, a2) ∈ path → d1 < d2 → a1 ≤ a2.

End Alignment.

(** * Properties *)

(** ** Facts about the array primitives *)

Module NpFacts.
Import Np.

Lemma where_from_aligned {A} (y : list A) mask i j p v :
  where_from i mask !! j = Some p →
  bool_index y mask !! j = Some v →
  (i ≤ p)%nat ∧ y !! (p - i)%nat = Some v.
Proof.
  revert y i j. induction mask as [|b m IH]; intros y i j Hw Hb.
  - destruct y; discriminate.
  - destruct y as [|x y]; [discriminate|]. simpl in *.
    destruct b.
    + destruct j as [|j]; simpl in *.
      * simplify_eq. split; [lia|]. by rewrite Nat.sub_diag.
      * destruct (IH _ _ _ Hw Hb) as [Hle Hy]. split; [lia|].
        replace (p - i)%nat with (S (p - S i)) by lia. done.
    + destruct (IH _ _ _ Hw Hb) as [Hle Hy]. split; [lia|].
      replace (p - i)%nat with (S (p - S i)) by lia. done.
Qed.

Lemma where_aligned {A} (y : list A) mask j p v :
  where_ mask !! j = Some p →
  bool_index y mask !! j = Some v →
  y !! p = Some v.
Proof.
  intros Hw Hb. destruct (where_from_aligned y mask 0 j p v Hw Hb) as [_ H].
  by rewrite Nat.sub_0_r in H.
Qed.

Lemma where_from_bound mask i p :
  p ∈ where_from i mask → (i ≤ p < i + length mask)%nat.
Proof.
  revert i. induction mask as [|b m IH]; intros i Hp; simpl in *.
  - by apply elem_of_nil in Hp.
  - destruct b.
    + apply elem_of_cons in Hp as [->|Hp]; [lia|]. apply IH in Hp. lia.
    + apply IH in Hp. lia.
Qed.

Lemma where_bound mask p : p ∈ where_ mask → (p < length mask)%nat.
Proof. intros H. apply where_from_bound in H. lia. Qed.

Lemma where_from_NoDup mask i : NoDup (where_from i mask).
Proof.
revert i. induction mask as [|b m IH]; intros i; simpl; [constructor|].
destruct b; [|apply IH].
constructor; [|apply IH].
intros H. apply where_from_bound in H. lia.
Qed.

Lemma where_NoDup mask : NoDup (where_ mask).
Proof. apply where_from_NoDup. Qed.

Lemma length_bool_index_where {A} (a : list A) mask i :
  length a = length mask →
  length (bool_index a mask) = length (where_from i mask).
Proof.
  revert a i. induction mask as [|b m IH]; intros [|x a] i Hl;
    simplify_eq/=; try done.
  destruct b; simpl; [f_equal|]; by apply IH.
Qed.

Lemma bool_index_eq_mask_head {A} (a : list A) (l : list Z) k p r :
  bool_index a (eq_mask l k) = p :: r →
  ∃ j, a !! j = Some p ∧ l !! j = Some k.
Proof.
  revert l. induction a as [|x a IH]; intros l H; [discriminate|].
  destruct l as [|y l]; [discriminate|]. simpl in H.
  destruct (Z.eqb_spec k y) as [->|Hne].
  - simplify_eq. by exists 0%nat.
  - destruct (IH _ H) as (j & ? & ?). by exists (S j).
Qed.

Lemma insert_unique_elem x y l : y ∈ insert_unique x l ↔ y = x ∨ y ∈ l.
Proof.
  induction l as [|z l IH]; simpl.
  - rewrite list_elem_of_singleton. rewrite elem_of_nil. tauto.
  - destruct (Z.ltb_spec x z).
    + rewrite elem_of_cons. tauto.
    + destruct (Z.eqb_spec x z) as [->|].
      * rewrite elem_of_cons. tauto.
      * rewrite !elem_of_cons, IH. tauto.
Qed.

Lemma unique_elem y l : y ∈ unique l ↔ y ∈ l.
Proof.
  induction l as [|x l IH]; simpl; [done|].
  rewrite insert_unique_elem, elem_of_cons, IH. tauto.
Qed.

Lemma insert_unique_sorted x l :
  StronglySorted Z.lt l → StronglySorted Z.lt (insert_unique x l).
Proof.
  induction 1 as [|z l Hs IH Hall]; simpl.
  - repeat constructor.
  - destruct (Z.ltb_spec x z).
    + constructor; [by constructor|]. constructor; [done|].
      eapply Forall_impl; [exact Hall|]. simpl. intros; lia.
    + destruct (Z.eqb_spec x z) as [->|]; [by constructor|].
      constructor; [done|]. apply Forall_forall. intros y Hy.
      apply insert_unique_elem in Hy as [->|Hy]; [lia|].
      rewrite Forall_forall in Hall. by apply Hall.
Qed.

Lemma unique_sorted l : StronglySorted Z.lt (unique l).
Proof.
  induction l; simpl; [constructor|]. by apply insert_unique_sorted.
Qed.

Lemma unique_NoDup l : NoDup (unique l).
Proof.
  generalize (unique_sorted l). induction 1 as [|z l' Hs IH Hall].
  - constructor.
  - constructor; [|done]. intros Hin. rewrite Forall_forall in Hall.
    apply Hall in Hin. lia.
Qed.

(** *** Folds *)

Lemma map_fmap {A B} (f : A → B) (l : list A) : map f l = f <$> l.
Proof. reflexivity. Qed.

Lemma foldl_invariant {A B} (P : A → Prop) (f : A → B → A) l st :
  (∀ st x, x ∈ l → P st → P (f st x)) → P st → P (foldl f st l).
Proof.
  revert st. induction l as [|x l IH]; intros st Hf Hst; [done|].
  simpl. apply IH.
  - intros st' y Hy. apply Hf. by apply elem_of_cons; right.
  - apply Hf; [by apply elem_of_cons; left|done].
Qed.

(** A fold that reaches an element at which [Q] is established from [P],
    [P] being kept before and [Q] after. *)
Lemma foldl_reaches {A B} (P Q : A → Prop) (f : A → B → A) l st x :
  x ∈ l →
  (∀ st y, P st → P (f st y)) →
  (∀ st y, Q st → Q (f st y)) →
  (∀ st, P st → Q (f st x)) →
  P st → Q (foldl f st l).
Proof.
  intros Hx HP HQ Hrec Hst.
  apply list_elem_of_split in Hx as (l1 & l2 & ->).
  rewrite foldl_app. cbn [foldl].
  apply foldl_invariant; [by intros; apply HQ|].
  apply Hrec. apply foldl_invariant; [by intros; apply HP|done].
Qed.
End NpFacts.

(** ** Facts about the macro F1 score *)

Module SkFacts.
Import Np NpFacts Sk.

Lemma Qsum_ones {A} (f : A → Q) (l : list A) :
  (∀ x, x ∈ l → f x == 1)%Q →
  (Qsum (map f l) == inject_Z (Z.of_nat (length l)))%Q.
Proof.
  induction l as [|x l IH]; intros H; simpl; [reflexivity|].
  rewrite H by (apply elem_of_cons; auto).
  rewrite IH by (intros; apply H, elem_of_cons; auto).
  rewrite Nat2Z.inj_succ, <- Z.add_1_l, inject_Z_plus. reflexivity.
Qed.

Lemma mean_ones {A} (f : A → Q) (l : list A) :
  l ≠ [] → (∀ x, x ∈ l → f x == 1)%Q → (mean (map f l) == 1)%Q.
Proof.
  intros Hne H. unfold mean. rewrite Qsum_ones by done.
  rewrite length_map. apply Qmult_inv_r.
  destruct l; [done|]. simpl. discriminate.
Qed.

Lemma Qsum_Permutation (l k : list Q) : l ≡ₚ k → (Qsum l == Qsum k)%Q.
Proof.
  induction 1; simpl; try reflexivity.
  - by rewrite IHPermutation.
  - ring.
  - etransitivity; eassumption.
Qed.

Lemma tp_diag k y : tp k y y = count k y.
Proof.
  unfold tp, count. f_equal.
  induction y as [|x y IH]; [done|]. simpl.
  rewrite !filter_cons. simpl.
  destruct (decide (x = k)) as [->|Hne].
  - rewrite decide_True by done. simpl. by rewrite IH.
  - rewrite decide_False by tauto. done.
Qed.

Lemma count_pos k y : k ∈ y → 0 < count k y.
Proof.
  intros Hin. unfold count.
  assert (k ∈ filter (λ v, v = k) y) as H by (by apply list_elem_of_filter).
  destruct (filter _ y); [by apply elem_of_nil in H|]. simpl. lia.
Qed.

Lemma count_zero k y : k ∉ y → count k y = 0.
Proof.
  intros Hin. unfold count.
  destruct (filter (λ v, v = k) y) as [|x r] eqn:E; [done|].
  assert (x ∈ filter (λ v, v = k) y) as H by (rewrite E; apply elem_of_cons; auto).
  apply list_elem_of_filter in H as [-> H]. done.
Qed.

Lemma f1_class_exact y k : k ∈ y → (f1_class y y k == 1)%Q.
Proof.
  intros Hin. unfold f1_class. rewrite tp_diag.
  pose proof (count_pos k y Hin) as Hpos.
  destruct (Z.eqb_spec (count k y + count k y) 0); [lia|].
  replace (2 * count k y) with (count k y + count k y) by lia.
  apply Qmult_inv_r. unfold Qeq; simpl. lia.
Qed.

Lemma f1_class_absent yt yp k : k ∉ yt → k ∉ yp → f1_class yt yp k = 0%Q.
Proof.
  intros H1 H2. unfold f1_class. by rewrite !count_zero by done.
Qed.

Lemma f1_score_macro_exact y :
  y ≠ [] → ∃ q, f1_score_macro y y = Some q ∧ (q == 1)%Q.
Proof.
  intros Hne. unfold f1_score_macro.
  rewrite Nat.eqb_refl. simpl.
  destruct y as [|x y]; [done|]. simpl length. simpl Nat.eqb. cbv iota.
  eexists; split; [reflexivity|].
  apply mean_ones.
  - intros E. assert (x ∈ unique_labels (x :: y) (x :: y)) as H.
    { apply (proj2 (unique_elem _ _)). apply elem_of_cons; auto. }
    rewrite E in H. by apply elem_of_nil in H.
  - intros k Hk. unfold unique_labels in Hk.
    apply (proj1 (unique_elem _ _)) in Hk. apply f1_class_exact.
    apply elem_of_app in Hk. tauto.
Qed.

(** Over labels in [0..3] the classes averaged over are those of
    [0; 1; 2; 3] that occur. *)
Lemma unique_labels_four yt yp :
  (∀ v, v ∈ yt ++ yp → 0 ≤ v ≤ 3) →
  unique_labels yt yp ≡ₚ filter (λ k, k ∈ yt ++ yp) [0; 1; 2; 3].
Proof.
  intros Hr. apply NoDup_Permutation.
  - apply unique_NoDup.
  - apply NoDup_filter.
    repeat (constructor; [rewrite ?elem_of_cons, elem_of_nil; lia|]).
    constructor.
  - intros k. unfold unique_labels. rewrite unique_elem, list_elem_of_filter.
    split; [|tauto]. intros Hk. split; [done|].
    apply Hr in Hk. rewrite !elem_of_cons.
    assert (k = 0 ∨ k = 1 ∨ k = 2 ∨ k = 3) by lia. tauto.
Qed.

Lemma Qsum_present yt yp :
  (Qsum (map (f1_class yt yp) (filter (λ k, k ∈ yt ++ yp) [0; 1; 2; 3]%Z))
   == f1_class yt yp 0%Z + f1_class yt yp 1%Z + f1_class yt yp 2%Z
      + f1_class yt yp 3%Z)%Q.
Proof.
  assert (Habs : ∀ k, k ∉ yt ++ yp → f1_class yt yp k = 0%Q).
  { intros k Hk. apply f1_class_absent; intros ?; apply Hk, elem_of_app; auto. }
  rewrite !filter_cons, filter_nil.
  repeat case_decide; unfold Qsum; cbn [map foldr];
    repeat match goal with
           | H : ¬ (?k ∈ _) |- _ => rewrite (Habs k H); clear H
           end; ring.
Qed.
End SkFacts.

(** ** The tolerance-aware metric *)

Module MetricFacts.
Import Np NpFacts Sk SkFacts Metric.

Lemma keypoints_lookup indices labels kp :
  keypoints indices labels !! kp =
    if bool_decide (kp ∈ [1; 2; 3])
    then head (bool_index indices (eq_mask labels kp)) else None.
Proof.
  unfold keypoints. simpl.
  destruct (decide (kp = 3)) as [->|N3];
    [|destruct (decide (kp = 2)) as [->|N2];
      [|destruct (decide (kp = 1)) as [->|N1]]].
  4: { rewrite bool_decide_eq_false_2
         by (rewrite !elem_of_cons, elem_of_nil; intros [|[|[|]]]; done).
       repeat (destruct (bool_index _ _));
         rewrite ?lookup_insert_ne by done; apply lookup_empty. }
  all: rewrite bool_decide_eq_true_2
         by (rewrite !elem_of_cons; auto).
  all: repeat (destruct (bool_index _ _)); simpl;
    rewrite ?lookup_insert_eq, ?lookup_insert_ne by done;
    rewrite ?lookup_insert_eq, ?lookup_insert_ne by done;
    rewrite ?lookup_insert_eq, ?lookup_insert_ne by done;
    try done.
Qed.

Lemma keypoints_Some indices labels kp p :
  keypoints indices labels !! kp = Some p →
  kp ∈ [1; 2; 3] ∧ ∃ j, indices !! j = Some p ∧ labels !! j = Some kp.
Proof.
  rewrite keypoints_lookup. case_bool_decide; [|done].
  destruct (bool_index _ _) as [|q r] eqn:E; [done|]. simpl.
  intros [= ->]. split; [done|]. by eapply bool_index_eq_mask_head.
Qed.

(** A key point found in a well sits at a position of the array that
    carries its label. *)
Lemma keypoints_well y well_ids well_id kp p :
  keypoints (where_ (eq_mask well_ids well_id))
            (bool_index y (eq_mask well_ids well_id)) !! kp = Some p →
  kp ∈ [1; 2; 3] ∧ y !! p = Some kp ∧ (p < length well_ids)%nat.
Proof.
  intros H. apply keypoints_Some in H as (Hkp & j & Hi & Hl).
  split; [done|]. split.
  - by eapply where_aligned.
  - apply list_elem_of_lookup_2, where_bound in Hi.
    unfold eq_mask in Hi. by rewrite length_map in Hi.
Qed.

Lemma adjust_well_exact y well_ids tf tr well_id :
  adjust_well y y well_ids tf tr y well_id = y.
Proof.
  unfold adjust_well.
  set (tk := keypoints _ _).
  assert (Hstep : ∀ kp, forgive tk tk tf tr y kp = y).
  { intros kp. unfold forgive. destruct (tk !! kp) as [p|] eqn:E; [|done].
    apply keypoints_well in E as (_ & Hy & _).
    destruct (_ <=? _); [|done].
    rewrite list_insert_insert_eq. by apply list_insert_id. }
  simpl. by rewrite !Hstep.
Qed.

Lemma adjust_exact y well_ids tf tr : adjust y y well_ids tf tr = y.
Proof.
  unfold adjust. induction (unique well_ids) as [|w ws IH]; [done|].
  simpl. by rewrite adjust_well_exact.
Qed.

Lemma forgive_length tk pk tf tr adj kp :
  length (forgive tk pk tf tr adj kp) = length adj.
Proof.
  unfold forgive. repeat case_match; rewrite ?length_insert; done.
Qed.

Lemma adjust_well_length yt yp ids tf tr adj w :
  length (adjust_well yt yp ids tf tr adj w) = length adj.
Proof. unfold adjust_well. simpl. by rewrite !forgive_length. Qed.

Lemma adjust_length yt yp ids tf tr :
  length (adjust yt yp ids tf tr) = length yp.
Proof.
  unfold adjust. generalize yp at 2 3.
  induction (unique ids) as [|w ws IH]; intros adj; simpl; [done|].
  by rewrite IH, adjust_well_length.
Qed.

Lemma Forall_insert' {A} (P : A → Prop) l i x :
  Forall P l → P x → Forall P (<[i:=x]> l).
Proof.
  intros Hl Hx. destruct (decide (i < length l)%nat).
  - by apply Forall_insert.
  - by rewrite list_insert_ge by lia.
Qed.

Lemma forgive_labels (P : Z → Prop) tk pk tf tr adj kp :
  P 0 → P kp → Forall P adj → Forall P (forgive tk pk tf tr adj kp).
Proof.
  intros H0 Hk Hadj. unfold forgive.
  repeat case_match; try done.
  all: apply Forall_insert'; [|done]; by apply Forall_insert'.
Qed.

Lemma adjust_labels (P : Z → Prop) yt yp ids tf tr :
  P 0 → P 1 → P 2 → P 3 → Forall P yp → Forall P (adjust yt yp ids tf tr).
Proof.
  intros H0 H1 H2 H3. unfold adjust. generalize yp at 1 3.
  induction (unique ids) as [|w ws IH]; intros adj Hadj; simpl; [done|].
  apply IH. unfold adjust_well. cbn [foldl].
  do 3 (apply forgive_labels; [done..|]). done.
Qed.

Lemma shapes_ok_true yt yp ids :
  length yt = length ids → length yp = length ids → shapes_ok yt yp ids = true.
Proof.
  intros H1 H2. unfold shapes_ok. destruct ids; [done|].
  by rewrite H1, H2, Nat.eqb_refl.
Qed.

End MetricFacts.

(** ** The metric over the store *)

Module StoreFacts.
Import Store.

Section Run.
(** The store on entry [h], and the two copies appended to it. *)
Variables (h : store) (a : list Z).

Let y_pred_adjusted : loc := S (length h).

Lemma setitem_adjusted adj i v :
  (i < length adj)%nat →
  setitem y_pred_adjusted i v (h ++ [a; adj])
  = Some (tt, h ++ [a; <[i := v]> adj]).
Proof.
  intros Hi. unfold setitem, y_pred_adjusted.
  rewrite lookup_app_r by lia.
  replace (S (length h) - length h)%nat with 1%nat by lia. simpl.
  apply Nat.ltb_lt in Hi. rewrite Hi. do 2 f_equal.
  rewrite insert_app_r_alt by lia.
  by replace (S (length h) - length h)%nat with 1%nat by lia.
Qed.

Lemma forgive_run tk pk tf tr adj kp :
  (∀ p, tk !! kp = Some p → (p < length adj)%nat) →
  (∀ p, pk !! kp = Some p → (p < length adj)%nat) →
  forgive_st tk pk tf tr y_pred_adjusted kp (h ++ [a; adj])
  = Some (tt, h ++ [a; Metric.forgive tk pk tf tr adj kp]).
Proof.
  intros Ht Hp. unfold forgive_st, Metric.forgive.
  destruct (tk !! kp) as [tp|]; [|done].
  destruct (pk !! kp) as [pp|]; [|done].
  destruct (_ <=? _); [|done].
  unfold mbind, store_bind.
  rewrite setitem_adjusted by auto.
  rewrite setitem_adjusted by (rewrite length_insert; auto). done.
Qed.

Lemma for_each_forgive_run tk pk tf tr kps adj :
  (∀ kp p, tk !! kp = Some p → (p < length adj)%nat) →
  (∀ kp p, pk !! kp = Some p → (p < length adj)%nat) →
  for_each kps (forgive_st tk pk tf tr y_pred_adjusted) (h ++ [a; adj])
  = Some (tt, h ++ [a; foldl (Metric.forgive tk pk tf tr) adj kps]).
Proof.
  revert adj. induction kps as [|kp kps IH]; intros adj Ht Hp; [done|].
  cbn [for_each foldl]. unfold mbind, store_bind.
  rewrite forgive_run by eauto.
  apply IH; intros ??; rewrite MetricFacts.forgive_length; eauto.
Qed.

Variables (y_true y_pred well_ids : loc) (yt yp ids : list Z).
Hypothesis Hyt : h !! y_true = Some yt.
Hypothesis Hyp : h !! y_pred = Some yp.
Hypothesis Hids : h !! well_ids = Some ids.
Hypothesis Hlt : length yt = length ids.
Hypothesis Hlp : length yp = length ids.

Lemma load_old l x adj :
  h !! l = Some x → load l (h ++ [a; adj]) = Some (x, h ++ [a; adj]).
Proof.
  intros Hl. unfold load. by rewrite (lookup_app_l_Some _ _ _ _ Hl).
Qed.

Lemma adjust_well_run tf tr adj w :
  length adj = length ids →
  adjust_well_st y_true y_pred well_ids tf tr y_pred_adjusted w
    (h ++ [a; adj])
  = Some (tt, h ++ [a; Metric.adjust_well yt yp ids tf tr adj w]).
Proof.
  intros Hadj. unfold adjust_well_st, mbind, store_bind.
  rewrite (load_old _ _ _ Hids), (load_old _ _ _ Hyt), (load_old _ _ _ Hyp).
  rewrite Hlt, Hlp, Nat.eqb_refl. cbn [andb negb].
  unfold Metric.adjust_well.
  apply for_each_forgive_run; intros kp p Hk;
    apply MetricFacts.keypoints_well in Hk as (_ & _ & Hlen); lia.
Qed.

Lemma for_each_adjust_well_run tf tr ws adj :
  length adj = length ids →
  for_each ws (adjust_well_st y_true y_pred well_ids tf tr y_pred_adjusted)
    (h ++ [a; adj])
  = Some (tt, h ++ [a; foldl (Metric.adjust_well yt yp ids tf tr) adj ws]).
Proof.
  revert adj. induction ws as [|w ws IH]; intros adj Hadj; [done|].
  cbn [for_each foldl]. unfold mbind, store_bind.
  rewrite adjust_well_run by done.
  apply IH. by rewrite MetricFacts.adjust_well_length.
Qed.
End Run.

(** The run of the whole function: it appends the two working copies to
    the store and changes nothing else. *)
Lemma macro_f1_with_tolerance_run h y_true y_pred well_ids yt yp ids tf tr q :
  h !! y_true = Some yt →
  h !! y_pred = Some yp →
  h !! well_ids = Some ids →
  length yt = length ids →
  length yp = length ids →
  Metric.macro_f1_with_tolerance yt yp ids tf tr = Some q →
  macro_f1_with_tolerance_st y_true y_pred well_ids tf tr h
  = Some (q, h ++ [yt; Metric.adjust yt yp ids tf tr]).
Proof.
  intros Hyt Hyp Hids Hlt Hlp Hq.
  unfold macro_f1_with_tolerance_st, mbind, store_bind, copy.
  rewrite Hyt. rewrite (lookup_app_l_Some _ _ _ _ Hyp).
  rewrite length_app. cbn [length]. rewrite Nat.add_1_r.
  rewrite <- app_assoc. cbn [app].
  rewrite (load_old _ _ _ _ _ Hids).
  rewrite (for_each_adjust_well_run h yt y_true y_pred well_ids yt yp ids)
    by done.
  fold (Metric.adjust yt yp ids tf tr).
  unfold load.
  rewrite lookup_app_r by lia. rewrite Nat.sub_diag. cbn [lookup list_lookup].
  rewrite lookup_app_r by lia.
  replace (S (length h) - length h)%nat with 1%nat by lia.
  cbn [lookup list_lookup].
  unfold Metric.macro_f1_with_tolerance in Hq.
  rewrite MetricFacts.shapes_ok_true in Hq by done.
  rewrite Hq. done.
Qed.
End StoreFacts.

(** ** Candidate generation and the search *)

Module DecoderFacts.
Import Np Decoder.

Lemma Qltb_lt x y : Qltb x y = true ↔ (x < y)%Q.
Proof.
  unfold Qltb. rewrite negb_true_iff. split.
  - intros H. apply Qnot_le_lt. intros Hle.
    apply Qle_bool_iff in Hle. congruence.
  - intros H. destruct (Qle_bool y x) eqn:E; [|done].
    apply Qle_bool_iff in E. by apply Qlt_not_le in H.
Qed.

Lemma Qle_bool_false x y : Qle_bool x y = false → (y < x)%Q.
Proof.
  intros H. apply Qltb_lt. unfold Qltb. by rewrite H.
Qed.

(** *** The stable descending sort *)

Lemma insert_desc_perm x l : insert_desc x l ≡ₚ x :: l.
Proof.
  induction l as [|y l IH]; simpl; [done|].
  destruct (Qle_bool y.2 x.2); [done|].
  rewrite IH. apply perm_swap.
Qed.

Lemma sort_desc_perm l : sort_desc l ≡ₚ l.
Proof.
  induction l as [|x l IH]; simpl; [done|].
  by rewrite insert_desc_perm, IH.
Qed.

Lemma insert_desc_sorted x l :
  StronglySorted desc l → StronglySorted desc (insert_desc x l).
Proof.
  induction 1 as [|y l Hs IH Hall]; simpl.
  - repeat constructor.
  - destruct (Qle_bool y.2 x.2) eqn:E.
    + apply Qle_bool_iff in E. constructor; [by constructor|].
      constructor; [done|].
      eapply Forall_impl; [exact Hall|]. unfold desc. intros c Hc.
      by eapply Qle_trans.
    + apply Qle_bool_false in E. constructor; [done|].
      rewrite insert_desc_perm. constructor; [|done].
      unfold desc. by apply Qlt_le_weak.
Qed.

Lemma sort_desc_sorted l : StronglySorted desc (sort_desc l).
Proof.
  induction l; simpl; [constructor|]. by apply insert_desc_sorted.
Qed.

(** Stability: among the candidates of one score the order is that of the
    input. *)
Lemma insert_desc_stable q x l :
  filter (λ c : candidate, c.2 == q)%Q (insert_desc x l)
  = filter (λ c : candidate, c.2 == q)%Q (x :: l).
Proof.
  induction l as [|y l IH]; simpl; [done|].
  destruct (Qle_bool y.2 x.2) eqn:E; [done|].
  apply Qle_bool_false in E.
  rewrite (filter_cons _ y), IH, !filter_cons.
  destruct (decide (x.2 == q)%Q) as [Hx|Hx]; [|done].
  destruct (decide (y.2 == q)%Q) as [Hy|Hy]; [|done].
  rewrite Hx, Hy in E. by apply Qlt_irrefl in E.
Qed.

Lemma sort_desc_stable q l :
  filter (λ c : candidate, c.2 == q)%Q (sort_desc l)
  = filter (λ c : candidate, c.2 == q)%Q l.
Proof.
  induction l as [|x l IH]; simpl; [done|].
  by rewrite insert_desc_stable, !filter_cons, IH.
Qed.

Lemma sorted_head_max c l c' :
  StronglySorted desc (c :: l) → c' ∈ c :: l → (c'.2 <= c.2)%Q.
Proof.
  intros Hs Hin. apply StronglySorted_inv in Hs as [_ Hall].
  apply elem_of_cons in Hin as [->|Hin]; [apply Qle_refl|].
  rewrite Forall_forall in Hall. by apply Hall.
Qed.

Lemma sorted_take n l : StronglySorted desc l → StronglySorted desc (take n l).
Proof.
  intros Hs. revert n. induction Hs as [|c l Hs IH Hall]; intros [|n]; simpl;
    try constructor; [apply IH|].
  by apply Forall_take.
Qed.

Lemma sorted_lookup l i j c c' :
  StronglySorted desc l → (i < j)%nat →
  l !! i = Some c → l !! j = Some c' → (c'.2 <= c.2)%Q.
Proof.
  intros Hs. revert i j. induction Hs as [|x l Hs IH Hall]; intros i j Hij Hi Hj.
  - done.
  - destruct j as [|j]; [lia|]. simpl in Hj. destruct i as [|i].
    + simpl in Hi. simplify_eq. rewrite Forall_forall in Hall.
      apply Hall. by eapply list_elem_of_lookup_2.
    + simpl in Hi. apply (IH i j); [lia|done..].
Qed.
End DecoderFacts.

Module SearchFacts.
Import Np NpFacts Decoder DecoderFacts.

(** *** Scores are above the confidence floor *)

Lemma phys_score_nonneg std_lt n jx jx_diff kp idx :
  (0 <= phys_score std_lt n jx jx_diff kp idx)%Q.
Proof.
  unfold phys_score. repeat case_match; done.
Qed.

Lemma phys_score_values std_lt n jx jx_diff kp idx :
  phys_score std_lt n jx jx_diff kp idx = 0%Q
  ∨ phys_score std_lt n jx jx_diff kp idx = (3 # 10)%Q.
Proof.
  unfold phys_score. repeat case_match; auto.
Qed.

Lemma prior_score_nonneg prior_info kp idx :
  (0 <= prior_score prior_info kp idx)%Q.
Proof.
  unfold prior_score. destruct (prior_info !! kp) as [p|]; [|done].
  destruct (Z.ltb_spec (Z.abs (idx - p)) 15) as [Hlt|]; [|done].
  apply Qmult_le_0_compat; [done|].
  assert (inject_Z (Z.abs (idx - p)) / 15 <= 1)%Q; [|lra].
  apply Qle_shift_div_r; [done|].
  rewrite Qmult_1_l. change 15%Q with (inject_Z 15).
  rewrite <- Zle_Qle. lia.
Qed.

Section WithArgsort.
Variable argsort : list Q → list Z.
Variable std_lt : list Q → Q → bool.

Lemma scored_elem jx model_proba prior_info kp c :
  c ∈ scored argsort std_lt jx model_proba prior_info kp ↔
  c.1 ∈ top_k_indices argsort (column kp model_proba)
  ∧ (1 # 10 < at_ (column kp model_proba) c.1)%Q
  ∧ c.2 = (at_ (column kp model_proba) c.1
           + phys_score std_lt (Z.of_nat (length jx)) jx (diff_prepend jx) kp c.1
           + prior_score prior_info kp c.1)%Q.
Proof.
  unfold scored. rewrite list_elem_of_omap. split.
  - intros (idx & Hidx & Hc).
    destruct (Qltb _ _) eqn:E; [|done]. simplify_eq. simpl.
    by apply Qltb_lt in E.
  - intros (Hidx & Hp & Hs). exists c.1. split; [done|].
    apply Qltb_lt in Hp. rewrite Hp. destruct c; simpl in *. by subst.
Qed.

Lemma candidates_elem jx model_proba prior_info kp c :
  c ∈ candidates argsort std_lt jx model_proba prior_info kp ↔
  c ∈ scored argsort std_lt jx model_proba prior_info kp.
Proof. unfold candidates. by rewrite sort_desc_perm. Qed.

Lemma candidates_score_floor jx model_proba prior_info kp c :
  c ∈ candidates argsort std_lt jx model_proba prior_info kp → (1 # 10 < c.2)%Q.
Proof.
  rewrite candidates_elem, scored_elem. intros (_ & Hp & ->).
  pose proof (phys_score_nonneg std_lt (Z.of_nat (length jx)) jx
                (diff_prepend jx) kp c.1).
  pose proof (prior_score_nonneg prior_info kp c.1). lra.
Qed.
End WithArgsort.

(** *** The search *)

Lemma try_kp3_sound i1 s1 i2 s2 st c3 :
  i1 + 20 ≤ i2 → sound st → sound (try_kp3 i1 s1 i2 s2 st c3).
Proof.
  intros H12 Hst. unfold try_kp3. destruct c3 as [[i3|] s3].
  - destruct (Z.ltb_spec i3 (i2 + 20)); [done|].
    destruct (Qltb _ _); [|done].
    intros a [= <-]. right. by exists i1, i2, i3.
  - destruct (Qltb _ _); [|done].
    intros a [= <-]. left. by exists i1, i2.
Qed.

Lemma try_kp3_keeps i1 s1 i2 s2 st c3 :
  (is_Some st.1 → is_Some (try_kp3 i1 s1 i2 s2 st c3).1)
  ∧ (fresh st → fresh (try_kp3 i1 s1 i2 s2 st c3)).
Proof.
  unfold try_kp3, fresh. destruct c3 as [[i3|] s3];
    repeat case_match; simpl; split; try done; eauto.
Qed.

Lemma try_kp2_sound cands3 i1 s1 st c2 :
  sound st → sound (try_kp2 cands3 i1 s1 st c2).
Proof.
  intros Hst. unfold try_kp2. destruct c2 as [i2 s2].
  destruct (Z.ltb_spec i2 (i1 + 20)); [done|].
  apply foldl_invariant; [|done]. intros. by apply try_kp3_sound.
Qed.

Lemma try_kp2_keeps cands3 i1 s1 st c2 :
  (is_Some st.1 → is_Some (try_kp2 cands3 i1 s1 st c2).1)
  ∧ (fresh st → fresh (try_kp2 cands3 i1 s1 st c2)).
Proof.
  unfold try_kp2. destruct c2 as [i2 s2].
  destruct (i2 <? i1 + 20); [done|].
  split; intros H; (apply foldl_invariant; [|done]); intros;
    by apply try_kp3_keeps.
Qed.

(** A pair that violates the spacing records nothing. *)
Lemma try_kp2_rejected cands3 i1 s1 st c2 :
  c2.1 < i1 + 20 → try_kp2 cands3 i1 s1 st c2 = st.
Proof.
  intros H. unfold try_kp2. destruct c2 as [i2 s2]. simpl in H.
  by destruct (Z.ltb_spec i2 (i1 + 20)); [|lia].
Qed.

(** A spaced pair of positive total score records a combination, if none
    was recorded before. *)
Lemma try_kp2_records cands3 i1 s1 st c2 :
  i1 + 20 ≤ c2.1 → (-1 < s1 + c2.2)%Q → fresh st →
  is_Some (try_kp2 cands3 i1 s1 st c2).1.
Proof.
  intros H12 Hpos Hst. unfold try_kp2. destruct c2 as [i2 s2]. simpl in *.
  destruct (Z.ltb_spec i2 (i1 + 20)); [lia|].
  rewrite foldl_app. cbn [foldl].
  set (st' := foldl _ st _).
  assert (fresh st') as Hst'.
  { apply foldl_invariant; [|done]. intros. by apply try_kp3_keeps. }
  unfold try_kp3. destruct (Qltb st'.2 _) eqn:E; [done|].
  destruct (st'.1) eqn:E1; [done|].
  rewrite (Hst' E1) in E. exfalso.
  apply not_true_iff_false in E. apply E, Qltb_lt. lra.
Qed.

Lemma try_kp1_sound cands2 cands3 st c1 :
  sound st → sound (try_kp1 cands2 cands3 st c1).
Proof.
  intros Hst. unfold try_kp1. destruct c1 as [i1 s1].
  apply foldl_invariant; [|done]. intros. by apply try_kp2_sound.
Qed.

Lemma try_kp1_keeps cands2 cands3 st c1 :
  (is_Some st.1 → is_Some (try_kp1 cands2 cands3 st c1).1)
  ∧ (fresh st → fresh (try_kp1 cands2 cands3 st c1)).
Proof.
  unfold try_kp1. destruct c1 as [i1 s1].
  split; intros H; (apply foldl_invariant; [|done]); intros;
    by apply try_kp2_keeps.
Qed.

Lemma search_sound cands1 cands2 cands3 :
  sound (search cands1 cands2 cands3).
Proof.
  unfold search. apply foldl_invariant; [|done].
  intros. by apply try_kp1_sound.
Qed.

Lemma try_kp1_records cands2 cands3 st c1 c2 :
  c2 ∈ take 5 cands2 → c1.1 + 20 ≤ c2.1 → (-1 < c1.2 + c2.2)%Q →
  fresh st → is_Some (try_kp1 cands2 cands3 st c1).1.
Proof.
  intros Hc2 H12 Hpos Hst. unfold try_kp1. destruct c1 as [i1 s1].
  apply (foldl_reaches fresh (λ st, is_Some st.1) _ _ _ c2); try done.
  - intros. by apply try_kp2_keeps.
  - intros. by apply try_kp2_keeps.
  - intros. by apply try_kp2_records.
Qed.

(** A spaced pair among the candidates searched makes the search record a
    combination. *)
Lemma search_complete cands1 cands2 cands3 c1 c2 :
  c1 ∈ take 5 cands1 → c2 ∈ take 5 cands2 →
  c1.1 + 20 ≤ c2.1 → (-1 < c1.2 + c2.2)%Q →
  is_Some (search cands1 cands2 cands3).1.
Proof.
  intros Hc1 Hc2 H12 Hpos. unfold search.
  apply (foldl_reaches fresh (λ st, is_Some st.1) _ _ _ c1); try done.
  - intros. by apply try_kp1_keeps.
  - intros. by apply try_kp1_keeps.
  - intros. by eapply try_kp1_records.
Qed.

(** Without a spaced pair the search records nothing. *)
Lemma search_none cands1 cands2 cands3 :
  (∀ c1 c2, c1 ∈ take 5 cands1 → c2 ∈ take 5 cands2 → c2.1 < c1.1 + 20) →
  (search cands1 cands2 cands3).1 = None.
Proof.
  intros Hno. unfold search.
  apply (foldl_invariant (λ st : search_state, st.1 = None)); [|done].
  intros st [i1 s1] Hc1 Hst. unfold try_kp1.
  apply (foldl_invariant (λ st : search_state, st.1 = None)); [|done].
  intros st' c2 Hc2 Hst'. rewrite try_kp2_rejected; [done|].
  by apply (Hno (i1, s1) c2).
Qed.

(** *** Reading an assignment *)

Lemma spaced_positions a :
  spaced a →
  ∃ i1 i2, position 1 a = Some i1 ∧ position 2 a = Some i2
           ∧ i1 + 20 ≤ i2
           ∧ ∀ i3, position 3 a = Some i3 → i2 + 20 ≤ i3.
Proof.
  intros [(i1 & i2 & -> & H12)|(i1 & i2 & i3 & -> & H12 & H23)];
    exists i1, i2; repeat split; try done.
  intros i3' [= <-]. done.
Qed.

(** *** The fallback *)

Lemma fallback_position cands kp :
  kp ∈ [1; 2; 3] →
  position kp (fallback cands) = (λ c : candidate, c.1) <$> head (cands kp).
Proof.
  intros Hkp. unfold fallback. cbn [foldl].
  rewrite !elem_of_cons, elem_of_nil in Hkp.
  destruct Hkp as [->|[->|[->|[]]]];
    destruct (cands 1) as [|[??]?], (cands 2) as [|[??]?],
             (cands 3) as [|[??]?]; reflexivity.
Qed.

Lemma fallback_nonempty cands kp :
  kp ∈ [1; 2; 3] → cands kp ≠ [] → fallback cands ≠ [].
Proof.
  intros Hkp Hne Hnil.
  pose proof (fallback_position cands kp Hkp) as Hpos.
  rewrite Hnil in Hpos. by destruct (cands kp).
Qed.
End SearchFacts.

(** ** The batch driver *)

Module BatchFacts.
Import Np NpFacts Decoder Batch.

Lemma where_from_elem mask i p :
  p ∈ where_from i mask ↔ (i ≤ p)%nat ∧ mask !! (p - i)%nat = Some true.
Proof.
  revert i. induction mask as [|b m IH]; intros i; simpl.
  - rewrite elem_of_nil. naive_solver.
  - assert (∀ j, (i < j)%nat → (j - i)%nat = S (j - S i)) as Hsub by lia.
    destruct b; rewrite ?elem_of_cons, IH; split.
    + intros [->|[Hle Hm]]; [rewrite Nat.sub_diag; auto|].
      split; [lia|]. by rewrite Hsub by lia.
    + intros [Hle Hm]. destruct (decide (p = i)) as [|Hne]; [by left|right].
      split; [lia|]. by rewrite Hsub in Hm by lia.
    + intros [Hle Hm]. split; [lia|]. by rewrite Hsub by lia.
    + intros [Hle Hm]. destruct (decide (p = i)) as [->|Hne].
      * by rewrite Nat.sub_diag in Hm.
      * split; [lia|]. by rewrite Hsub in Hm by lia.
Qed.

Lemma where_elem mask p : p ∈ where_ mask ↔ mask !! p = Some true.
Proof.
  unfold where_. rewrite where_from_elem, Nat.sub_0_r. naive_solver lia.
Qed.

Lemma bool_index_nonempty {A} (a : list A) mask p :
  length a = length mask → mask !! p = Some true → bool_index a mask ≠ [].
Proof.
  revert mask p. induction a as [|x a IH]; intros [|b m] p Hlen Hp;
    simplify_eq/=.
  destruct b; [done|]. destruct p as [|p]; [done|]. by eapply IH.
Qed.

(** *** pandas' [unique] *)

Lemma unique_from_elem seen a w :
  w ∈ unique_from seen a ↔ w ∈ a ∧ w ∉ seen.
Proof.
  revert seen. induction a as [|x a IH]; intros seen; simpl.
  - rewrite elem_of_nil. tauto.
  - case_bool_decide as Hx.
    + rewrite IH, elem_of_cons. naive_solver.
    + rewrite elem_of_cons, IH, !elem_of_cons.
      destruct (decide (w = x)); naive_solver.
Qed.

Lemma unique_from_NoDup seen a : NoDup (unique_from seen a).
Proof.
  revert seen. induction a as [|x a IH]; intros seen; simpl.
  - constructor.
  - case_bool_decide; [done|]. constructor; [|done].
    rewrite unique_from_elem, elem_of_cons. naive_solver.
Qed.

Lemma pd_unique_elem a w : w ∈ pd_unique a ↔ w ∈ a.
Proof.
  unfold pd_unique. rewrite unique_from_elem, elem_of_nil. tauto.
Qed.

Lemma pd_unique_NoDup a : NoDup (pd_unique a).
Proof. apply unique_from_NoDup. Qed.

(** *** Marking the decoded key points *)

Lemma mark_length len gi preds e : length (mark len gi preds e) = length preds.
Proof.
  unfold mark. destruct e as [kp idx].
  repeat case_match; by rewrite ?length_insert.
Qed.

(** After marking, an entry is either as before or was written for an
    entry of [best_combo]. *)
Lemma mark_lookup len gi preds e g v :
  mark len gi preds e !! g = Some v →
  preds !! g = Some v
  ∨ (v = e.1 ∧ 0 ≤ e.2 < len ∧ gi !! Z.to_nat e.2 = Some g).
Proof.
  unfold mark. destruct e as [kp idx]. simpl.
  destruct (Z.leb_spec 0 idx), (Z.ltb_spec idx len); cbn [andb]; auto.
  destruct (gi !! Z.to_nat idx) as [g'|] eqn:E; auto.
  intros Hl. apply list_lookup_insert_Some in Hl as [(-> & -> & _)|[_ Hl]];
    [right|by left]. repeat split; (done || lia).
Qed.

Lemma foldl_mark_length len gi best_combo preds :
  length (foldl (mark len gi) preds best_combo) = length preds.
Proof.
  revert preds. induction best_combo as [|e l IH]; intros preds; [done|].
  simpl. by rewrite IH, mark_length.
Qed.

Lemma foldl_mark_lookup len gi best_combo preds g v :
  foldl (mark len gi) preds best_combo !! g = Some v →
  preds !! g = Some v
  ∨ ∃ e, e ∈ best_combo ∧ v = e.1 ∧ 0 ≤ e.2 < len
         ∧ gi !! Z.to_nat e.2 = Some g.
Proof.
  revert preds. induction best_combo as [|e l IH]; intros preds; [by left|].
  simpl. intros H. apply IH in H as [H|(e' & He' & ?)].
  - apply mark_lookup in H as [H|H]; [by left|right].
    exists e. split; [apply elem_of_cons; by left|done].
  - right. exists e'. split; [apply elem_of_cons; by right|done].
Qed.

(** A mark of the well leaves the labels outside the well alone. *)
Lemma mark_other len gi preds e g :
  g ∉ gi → mark len gi preds e !! g = preds !! g.
Proof.
  intros Hg. unfold mark. destruct e as [kp idx].
  destruct ((0 <=? idx) && (idx <? len)); [|done].
  destruct (gi !! Z.to_nat idx) as [g'|] eqn:E; [|done].
  apply list_lookup_insert_ne. intros ->. apply Hg.
  by eapply list_elem_of_lookup_2.
Qed.

Lemma foldl_mark_other len gi best_combo preds g :
  g ∉ gi → foldl (mark len gi) preds best_combo !! g = preds !! g.
Proof.
  intros Hg. revert preds.
  induction best_combo as [|e l IH]; intros preds; [done|].
  simpl. by rewrite IH, mark_other.
Qed.

(** A mark at position [j] of the well writes its class at the global
    index of [j]; a mark elsewhere leaves that index alone. *)
Lemma mark_at len gi preds kp idx j g v0 :
  NoDup gi → len = Z.of_nat (length gi) →
  gi !! j = Some g → preds !! g = Some v0 →
  mark len gi preds (kp, idx) !! g
  = Some (if idx =? Z.of_nat j then kp else v0).
Proof.
  intros Hnd -> Hj Hv0. unfold mark.
  apply lookup_lt_Some in Hj as Hjlt. apply lookup_lt_Some in Hv0 as Hglt.
  destruct (Z.eqb_spec idx (Z.of_nat j)) as [->|Hne].
  - destruct (Z.leb_spec 0 (Z.of_nat j)); [|lia].
    destruct (Z.ltb_spec (Z.of_nat j) (Z.of_nat (length gi))); [|lia].
    cbn [andb]. rewrite Nat2Z.id, Hj.
    by apply list_lookup_insert_eq.
  - destruct (Z.leb_spec 0 idx), (Z.ltb_spec idx (Z.of_nat (length gi)));
      cbn [andb]; try done.
    destruct (gi !! Z.to_nat idx) as [g'|] eqn:E; [|done].
    rewrite list_lookup_insert_ne; [done|].
    intros ->. apply Hne.
    assert (Z.to_nat idx = j) by (by eapply NoDup_lookup). lia.
Qed.

Lemma foldl_mark_at len gi best_combo preds j g v0 :
  NoDup gi → len = Z.of_nat (length gi) →
  gi !! j = Some g → preds !! g = Some v0 →
  foldl (mark len gi) preds best_combo !! g
  = Some (foldl (λ v e, if e.2 =? Z.of_nat j then e.1 else v) v0
                best_combo).
Proof.
  intros Hnd Hlen Hj. revert preds v0.
  induction best_combo as [|[kp idx] l IH]; intros preds v0 Hv0; [done|].
  cbn [foldl]. apply IH. by apply mark_at.
Qed.

Lemma well_mask_lookup tf w g :
  well_mask tf w !! g = Some true ↔ map well_id (rows tf) !! g = Some w.
Proof.
  unfold well_mask. rewrite !map_fmap, !list_lookup_fmap.
  destruct (rows tf !! g) as [s|]; simpl; [|done].
  destruct (Z.eqb_spec (well_id s) w); naive_solver.
Qed.

Lemma group_indices_inj tf w i j g :
  group_indices tf w !! i = Some g → group_indices tf w !! j = Some g →
  i = j.
Proof. apply NoDup_lookup, where_NoDup. Qed.

Section WithArgsort.
Variable argsort : list Q → list Z.
Variable std_lt : list Q → Q → bool.

Lemma dp_post_process_Some jx model_proba prior_info :
  jx ≠ [] → is_Some (dp_post_process argsort std_lt jx model_proba prior_info).
Proof.
  intros Hjx. unfold dp_post_process. destruct jx; [done|].
  by destruct (search _ _ _).1.
Qed.

(** Every well that occurs has a sample, so its decoding raises
    nothing. *)
Lemma decode_well_Some tf final_proba w :
  w ∈ map well_id (rows tf) →
  is_Some (decode_well argsort std_lt tf final_proba w).
Proof.
  intros Hw. apply list_elem_of_lookup_1 in Hw as [g Hg].
  apply well_mask_lookup in Hg.
  unfold decode_well. apply dp_post_process_Some.
  intros Hnil. apply map_eq_nil in Hnil. revert Hnil.
  eapply bool_index_nonempty; [|done].
  unfold well_mask. by rewrite length_map.
Qed.

Lemma process_well_labelled tf final_proba o w :
  w ∈ map well_id (rows tf) →
  labelled argsort std_lt tf final_proba o →
  labelled argsort std_lt tf final_proba
    (process_well argsort std_lt tf final_proba o w).
Proof.
  intros Hw (preds & -> & Hlen & Hj).
  destruct (decode_well_Some tf final_proba w Hw) as [a Ha].
  unfold process_well. cbn [mbind option_bind]. rewrite Ha. cbn [mbind option_bind].
  eexists. split; [done|]. split.
  - by rewrite foldl_mark_length.
  - intros g kp Hg Hkp.
    apply foldl_mark_lookup in Hg as [Hg|([kp' idx] & He & -> & _ & Hgi)].
    + by apply Hj.
    + exists w, a, idx. repeat split; try done.
      apply well_mask_lookup, where_elem.
      by eapply list_elem_of_lookup_2.
Qed.

(** One turn of the loop over wells handles its well. *)
Lemma process_well_handled tf final_proba done preds w :
  w ∈ map well_id (rows tf) →
  w ∉ done →
  handled argsort std_lt tf final_proba done preds →
  ∃ preds',
    process_well argsort std_lt tf final_proba (Some preds) w = Some preds'
    ∧ handled argsort std_lt tf final_proba (w :: done) preds'.
Proof.
  intros Hw Hnew [Hlen Hh].
  destruct (decode_well_Some tf final_proba w Hw) as [a Ha].
  unfold process_well. cbn [mbind option_bind]. rewrite Ha.
  cbn [mbind option_bind]. eexists. split; [done|]. split.
  - by rewrite foldl_mark_length.
  - intros g w' Hg.
    assert (Hlenmask : length (rows tf) = length (well_mask tf w)).
    { unfold well_mask. by rewrite length_map. }
    destruct (decide (w' = w)) as [->|Hne].
    + split; [intros _|intros Hno; exfalso; apply Hno, elem_of_cons; by left].
      assert (g ∈ group_indices tf w) as Hin.
      { by apply where_elem, well_mask_lookup. }
      apply list_elem_of_lookup_1 in Hin as [j Hj].
      exists a, j. split; [done|]. split; [done|].
      apply (foldl_mark_at _ _ _ _ j g 0); try done.
      * apply where_NoDup.
      * f_equal. by apply length_bool_index_where.
      * by apply (Hh g w Hg).
    + assert (g ∉ group_indices tf w) as Hout.
      { intros Hin. apply where_elem, well_mask_lookup in Hin.
        rewrite Hg in Hin. by injection Hin. }
      rewrite foldl_mark_other by done. split.
      * intros Hin. apply elem_of_cons in Hin as [?|Hin]; [done|].
        by apply (Hh g w' Hg).
      * intros Hno. apply (Hh g w' Hg). intros Hin. apply Hno.
        apply elem_of_cons. by right.
Qed.

Lemma foldl_process_well_handled tf final_proba ws :
  NoDup ws →
  (∀ w, w ∈ ws → w ∈ map well_id (rows tf)) →
  ∀ done preds,
    (∀ w, w ∈ ws → w ∉ done) →
    handled argsort std_lt tf final_proba done preds →
    ∃ preds',
      foldl (process_well argsort std_lt tf final_proba) (Some preds) ws
      = Some preds'
      ∧ handled argsort std_lt tf final_proba (reverse ws ++ done) preds'.
Proof.
  induction ws as [|w ws IH]; intros Hnd Hids done preds Hfresh Hh.
  - exists preds. by split.
  - apply NoDup_cons in Hnd as [Hw Hnd]. cbn [foldl].
    destruct (process_well_handled tf final_proba done preds w)
      as (preds1 & -> & Hh1); try done.
    { apply Hids, elem_of_cons. by left. }
    { apply Hfresh, elem_of_cons. by left. }
    destruct (IH Hnd
                (λ w' Hw',
                   Hids w' (proj2 (elem_of_cons _ _ _) (or_intror Hw')))
                (w :: done) preds1) as (preds' & Hrun & Hh'); [|done|].
    { intros w' Hw' Hin. apply elem_of_cons in Hin as [->|Hin]; [done|].
      apply (Hfresh w'); [|done]. apply elem_of_cons. by right. }
    exists preds'. split; [done|].
    by rewrite reverse_cons, <- app_assoc.
Qed.

Lemma advanced_post_process_handled tf tree_preds dl_preds weights fp :
  fuse (length (rows tf)) tree_preds dl_preds weights = Some fp →
  ∃ preds,
    advanced_post_process argsort std_lt tf tree_preds dl_preds weights
    = Some preds
    ∧ handled argsort std_lt tf fp
        (reverse (pd_unique (map well_id (rows tf)))) preds.
Proof.
  intros Hf. unfold advanced_post_process. rewrite Hf.
  cbn [mbind option_bind].
  destruct (foldl_process_well_handled tf fp
              (pd_unique (map well_id (rows tf)))
              (pd_unique_NoDup _)
              (λ w, proj1 (pd_unique_elem _ w))
              [] (replicate (length (rows tf)) 0))
    as (preds & Hrun & Hh).
  - intros w _. apply not_elem_of_nil.
  - split; [by rewrite length_replicate|]. intros g w Hg. split.
    + by intros ?%elem_of_nil.
    + intros _. apply lookup_replicate_2.
      apply lookup_lt_Some in Hg. by rewrite length_map in Hg.
  - exists preds. split; [done|]. by rewrite app_nil_r in Hh.
Qed.

Lemma advanced_post_process_labelled tf tree_preds dl_preds weights fp :
  fuse (length (rows tf)) tree_preds dl_preds weights = Some fp →
  labelled argsort std_lt tf fp
    (advanced_post_process argsort std_lt tf tree_preds dl_preds weights).
Proof.
  intros Hf. unfold advanced_post_process. rewrite Hf.
  cbn [mbind option_bind].
  apply foldl_invariant.
  - intros o w Hw. apply process_well_labelled. by apply pd_unique_elem.
  - eexists. split; [done|]. split; [by rewrite length_replicate|].
    intros g kp Hg. apply lookup_replicate in Hg as [-> _]. done.
Qed.
End WithArgsort.
End BatchFacts.

Module PriorFacts.
Import Np Decoder Batch DecoderFacts.

(** [argmin] points at the value [min] computes. *)
Lemma argmin_from_min pre a best bv :
  (pre ++ a) !! best = Some bv → (best < length pre)%nat →
  (pre ++ a) !! argmin_from (length pre) best bv a
  = Some (foldl (λ m y, if Qltb y m then y else m) bv a).
Proof.
  revert pre best bv. induction a as [|x a IH]; intros pre best bv Hb Hlt.
  - done.
  - cbn [argmin_from foldl].
    replace (pre ++ x :: a) with ((pre ++ [x]) ++ a) in *
      by (by rewrite <- app_assoc).
    replace (S (length pre)) with (length (pre ++ [x]))
      by (rewrite length_app; simpl; lia).
    destruct (Qltb x bv).
    + apply IH; [|rewrite length_app; simpl; lia].
      rewrite lookup_app_l by (rewrite length_app; simpl; lia).
      by rewrite lookup_app_r, Nat.sub_diag by lia.
    + apply IH; [done|rewrite length_app; simpl; lia].
Qed.

Lemma argmin_min a : a ≠ [] → a !! argmin a = Some (min a).
Proof.
  destruct a as [|x a]; [done|]. intros _. unfold argmin, min.
  apply (argmin_from_min [x] a 0 x); simpl; [done|lia].
Qed.

(** [min] is a lower bound. *)
Lemma foldl_min_le bv a :
  (foldl (λ m y, if Qltb y m then y else m) bv a <= bv)%Q
  ∧ ∀ d, d ∈ a → (foldl (λ m y, if Qltb y m then y else m) bv a <= d)%Q.
Proof.
  revert bv. induction a as [|x a IH]; intros bv; simpl.
  - split; [apply Qle_refl|]. intros d Hd. by apply elem_of_nil in Hd.
  - destruct (Qltb x bv) eqn:E.
    + apply Qltb_lt in E. destruct (IH x) as [Hx Ha]. split; [lra|].
      intros d Hd. apply elem_of_cons in Hd as [->|Hd]; auto.
    + assert (bv <= x)%Q as Hle.
      { apply Qnot_lt_le. intros Hlt. apply Qltb_lt in Hlt. congruence. }
      destruct (IH bv) as [Hb Ha]. split; [done|].
      intros d Hd. apply elem_of_cons in Hd as [->|Hd]; [lra|auto].
Qed.

Lemma min_le a d : d ∈ a → (min a <= d)%Q.
Proof.
  destruct a as [|x a]; [intros H; by apply elem_of_nil in H|].
  unfold min. destruct (foldl_min_le x a) as [Hx Ha].
  intros Hd. apply elem_of_cons in Hd as [->|Hd]; auto.
Qed.

(** No earlier position carries the minimum. *)
Lemma argmin_from_first pre a best bv j d :
  (pre ++ a) !! best = Some bv → (best < length pre)%nat →
  (∀ k e, (k < best)%nat → pre !! k = Some e → (bv < e)%Q) →
  (∀ e, e ∈ pre → (bv <= e)%Q) →
  (j < argmin_from (length pre) best bv a)%nat →
  (pre ++ a) !! j = Some d →
  (foldl (λ m y, if Qltb y m then y else m) bv a < d)%Q.
Proof.
  revert pre best bv. induction a as [|x a IH];
    intros pre best bv Hb Hlt Hfirst Hall Hj Hd.
  - simpl in *. rewrite app_nil_r in Hd. by eapply Hfirst.
  - cbn [argmin_from foldl] in *.
    replace (pre ++ x :: a) with ((pre ++ [x]) ++ a) in *
      by (by rewrite <- app_assoc).
    replace (S (length pre)) with (length (pre ++ [x])) in Hj
      by (rewrite length_app; simpl; lia).
    destruct (Qltb x bv) eqn:E.
    + apply Qltb_lt in E.
      eapply (IH (pre ++ [x]) (length pre) x); try done.
      * rewrite lookup_app_l by (rewrite length_app; simpl; lia).
        by rewrite lookup_app_r, Nat.sub_diag by lia.
      * rewrite length_app; simpl; lia.
      * intros k e Hk He. rewrite lookup_app_l in He by lia.
        apply list_elem_of_lookup_2, Hall in He. lra.
      * intros e He. apply elem_of_app in He as [He|He].
        -- apply Hall in He. lra.
        -- apply list_elem_of_singleton in He as ->. apply Qle_refl.
    + assert (bv <= x)%Q as Hle.
      { apply Qnot_lt_le. intros Hlt'. apply Qltb_lt in Hlt'. congruence. }
      eapply (IH (pre ++ [x]) best bv); try done.
      * rewrite length_app; simpl; lia.
      * intros k e Hk He. rewrite lookup_app_l in He by lia. by eapply Hfirst.
      * intros e He. apply elem_of_app in He as [He|He]; [auto|].
        by apply list_elem_of_singleton in He as ->.
Qed.

Lemma argmin_first a j d :
  (j < argmin a)%nat → a !! j = Some d → (min a < d)%Q.
Proof.
  destruct a as [|x a]; [done|]. unfold argmin, min. intros Hj Hd.
  apply (argmin_from_first [x] a 0 x j d); simpl; try done; try lia.
  intros e He. apply list_elem_of_singleton in He as ->. apply Qle_refl.
Qed.

Lemma prior_keypoints_lookup columns group kp :
  prior_keypoints columns group !! kp =
    if bool_decide (kp ∈ [1; 2; 3]) && bool_decide (kp ∈ columns)
       && Qltb (min (map (dist_to_prior kp) group)) 900
    then Some (Z.of_nat (argmin (map (dist_to_prior kp) group)))
    else None.
Proof.
  unfold prior_keypoints. cbn [foldl].
  destruct (decide (kp = 3)) as [->|N3];
    [|destruct (decide (kp = 2)) as [->|N2];
      [|destruct (decide (kp = 1)) as [->|N1]]].
  4: { rewrite (bool_decide_eq_false_2 (kp ∈ [1; 2; 3]))
         by (rewrite !elem_of_cons, elem_of_nil; intros [|[|[|]]]; done).
       cbn [andb]. repeat case_match;
         rewrite ?lookup_insert_ne by done; apply lookup_empty. }
  all: rewrite (bool_decide_eq_true_2 (_ ∈ [1; 2; 3]))
         by (rewrite !elem_of_cons; auto).
  all: cbn [andb].
  all: repeat (case_bool_decide; cbn [andb]);
       repeat (destruct (Qltb _ _); cbn [andb]);
       rewrite ?lookup_insert_eq, ?lookup_insert_ne by done;
       rewrite ?lookup_insert_eq, ?lookup_insert_ne by done;
       rewrite ?lookup_insert_eq, ?lookup_insert_ne by done;
       try done.
Qed.
End PriorFacts.

(** ** Further facts about the metric *)

Module MetricMore.
Import Np NpFacts Sk SkFacts Metric MetricFacts Props.

(** *** The range of the score *)

Lemma tp_le_count_true k yt yp : tp k yt yp ≤ count k yt.
Proof.
unfold tp, count. apply inj_le. revert yp.
induction yt as [|x yt IH]; intros [|y yp]; simpl; try lia.
rewrite !filter_cons. simpl. specialize (IH yp).
repeat case_decide; simpl; try lia; naive_solver.
Qed.

Lemma tp_le_count_pred k yt yp : tp k yt yp ≤ count k yp.
Proof.
unfold tp, count. apply inj_le. revert yp.
induction yt as [|x yt IH]; intros [|y yp]; simpl; try lia.
rewrite !filter_cons. simpl. specialize (IH yp).
repeat case_decide; simpl; try lia; naive_solver.
Qed.

Lemma tp_nonneg k yt yp : 0 ≤ tp k yt yp.
Proof. unfold tp. lia. Qed.

Lemma f1_class_range yt yp k : (0 <= f1_class yt yp k <= 1)%Q.
Proof.
unfold f1_class.
pose proof (tp_le_count_true k yt yp). pose proof (tp_le_count_pred k yt yp).
pose proof (tp_nonneg k yt yp).
destruct (Z.eqb_spec (count k yt + count k yp) 0) as [|Hne]; [lra|].
assert (0 < count k yt + count k yp) as Hpos by lia.
assert (0 < inject_Z (count k yt + count k yp))%Q as HposQ.
{ change 0%Q with (inject_Z 0). by rewrite <- Zlt_Qlt. }
split.
- apply Qle_shift_div_l; [done|]. rewrite Qmult_0_l.
  change 0%Q with (inject_Z 0). rewrite <- Zle_Qle. lia.
- apply Qle_shift_div_r; [done|]. rewrite Qmult_1_l.
  rewrite <- Zle_Qle. lia.
Qed.

Lemma Qsum_range (l : list Q) :
(∀ x, x ∈ l → 0 <= x <= 1)%Q →
(0 <= Qsum l <= inject_Z (Z.of_nat (length l)))%Q.
Proof.
induction l as [|x l IH]; intros H.
- split; vm_compute; discriminate.
- cbn [Qsum foldr length]. fold (Qsum l).
  rewrite Nat2Z.inj_succ, <- Z.add_1_l, inject_Z_plus.
  destruct (H x) as [? ?]; [apply elem_of_cons; auto|].
  destruct IH as [? ?]; [intros; apply H, elem_of_cons; auto|].
  change (inject_Z 1) with 1%Q. lra.
Qed.

Lemma mean_range (l : list Q) :
(∀ x, x ∈ l → 0 <= x <= 1)%Q → (0 <= mean l <= 1)%Q.
Proof.
intros H. unfold mean. destruct (Qsum_range l H) as [H0 H1].
destruct l as [|x l]; [split; vm_compute; discriminate|].
assert (0 < inject_Z (Z.of_nat (length (x :: l))))%Q as Hpos.
{ change 0%Q with (inject_Z 0). rewrite <- Zlt_Qlt. simpl. lia. }
split.
- apply Qle_shift_div_l; [done|]. by rewrite Qmult_0_l.
- apply Qle_shift_div_r; [done|]. by rewrite Qmult_1_l.
Qed.

Lemma f1_score_macro_range yt yp q :
f1_score_macro yt yp = Some q → (0 <= q <= 1)%Q.
Proof.
unfold f1_score_macro. repeat case_match; try done. intros [= <-].
apply mean_range. intros x Hx. rewrite map_fmap in Hx.
apply list_elem_of_fmap in Hx as (k & -> & _). apply f1_class_range.
Qed.

(** *** Where the forgiveness loop writes *)

Lemma eq_mask_lookup ids w p :
eq_mask ids w !! p = Some true ↔ ids !! p = Some w.
Proof.
unfold eq_mask. rewrite map_fmap, list_lookup_fmap.
destruct (ids !! p) as [v|]; simpl; [|done].
destruct (Z.eqb_spec w v); naive_solver.
Qed.

(** A key point located in the well [w] lies in [w] and carries its
  label. *)
Lemma keypoints_in_well y ids w kp p :
keypoints (where_ (eq_mask ids w)) (bool_index y (eq_mask ids w)) !! kp
  = Some p →
is_keypoint kp ∧ ids !! p = Some w ∧ y !! p = Some kp
∧ (p < length ids)%nat.
Proof.
intros H. pose proof H as H'.
apply keypoints_well in H as (Hkp & Hy & Hlen).
apply keypoints_Some in H' as (_ & j & Hj & _).
split; [|split; [|done]].
- unfold is_keypoint. rewrite !elem_of_cons, elem_of_nil in Hkp. tauto.
- apply eq_mask_lookup, BatchFacts.where_elem.
  by eapply list_elem_of_lookup_2.
Qed.

Lemma head_first_in_mask (mask : list bool) (y : list Z) kp i t :
length y = length mask →
mask !! t = Some true → y !! t = Some kp →
(∀ t', (t' < t)%nat → mask !! t' = Some true → y !! t' ≠ Some kp) →
head (bool_index (where_from i mask) (eq_mask (bool_index y mask) kp))
= Some (i + t)%nat.
Proof.
revert y i t. induction mask as [|b m IH]; intros [|v y] i t Hlen Hm Hy Hfirst;
  simplify_eq/=.
destruct t as [|t]; simpl in *.
- simplify_eq. simpl. rewrite Z.eqb_refl. simpl. f_equal. lia.
- assert (Hrec : head (bool_index (where_from (S i) m)
                         (eq_mask (bool_index y m) kp))
                 = Some (S i + t)%nat).
  { apply IH; try done. intros t' Ht' Hm'.
    apply (Hfirst (S t')); [lia|done]. }
  replace (i + S t)%nat with (S i + t)%nat by lia.
  destruct b; [|done]. simpl.
  destruct (Z.eqb_spec kp v) as [->|Hne]; [|done].
  exfalso. by apply (Hfirst 0%nat); [lia| |].
Qed.

(** The first labelled position of a well is the one the metric
  locates. *)
Lemma keypoints_first y ids w kp t :
length y = length ids → is_keypoint kp →
first_in_well ids y w kp t →
keypoints (where_ (eq_mask ids w)) (bool_index y (eq_mask ids w)) !! kp
= Some t.
Proof.
intros Hlen Hkp (Hw & Hy & Hfirst). rewrite keypoints_lookup.
rewrite bool_decide_eq_true_2
  by (rewrite !elem_of_cons; unfold is_keypoint in Hkp; tauto).
unfold where_. rewrite (head_first_in_mask _ y kp 0 t); try done.
- unfold eq_mask. by rewrite length_map.
- by apply eq_mask_lookup.
- intros t' Ht' Hm. apply Hfirst; [done|]. by apply eq_mask_lookup.
Qed.

Lemma forgive_untouched tk pk tf tr adj kp g :
tk !! kp ≠ Some g → pk !! kp ≠ Some g →
forgive tk pk tf tr adj kp !! g = adj !! g.
Proof.
intros Ht Hp. unfold forgive.
destruct (tk !! kp) as [t|]; [|done]. destruct (pk !! kp) as [p|]; [|done].
destruct (_ <=? _); [|done].
rewrite !list_lookup_insert_ne by congruence. done.
Qed.

Lemma forgive_true_pos tk pk tf tr adj kp t p :
tk !! kp = Some t → pk !! kp = Some p →
Z.abs (Z.of_nat t - Z.of_nat p) ≤ (if kp =? 1 then tf else tr) →
(t < length adj)%nat →
forgive tk pk tf tr adj kp !! t = Some kp.
Proof.
intros Ht Hp Htol Hlen. unfold forgive. rewrite Ht, Hp.
destruct (Z.leb_spec (Z.abs (Z.of_nat t - Z.of_nat p))
            (if kp =? 1 then tf else tr)); [|lia].
apply list_lookup_insert_eq. by rewrite length_insert.
Qed.

Lemma forgive_pred_pos tk pk tf tr adj kp t p :
tk !! kp = Some t → pk !! kp = Some p →
Z.abs (Z.of_nat t - Z.of_nat p) ≤ (if kp =? 1 then tf else tr) →
p ≠ t → (p < length adj)%nat →
forgive tk pk tf tr adj kp !! p = Some 0.
Proof.
intros Ht Hp Htol Hne Hlen. unfold forgive. rewrite Ht, Hp.
destruct (Z.leb_spec (Z.abs (Z.of_nat t - Z.of_nat p))
            (if kp =? 1 then tf else tr)); [|lia].
rewrite list_lookup_insert_ne by done. by apply list_lookup_insert_eq.
Qed.

(** A position that is not a located key point of the well is left alone
  by the well's iteration. *)
Lemma adjust_well_untouched yt yp ids tf tr adj w g :
(∀ kp, is_keypoint kp → ids !! g = Some w → yt !! g ≠ Some kp) →
(∀ kp, is_keypoint kp → ids !! g = Some w → yp !! g ≠ Some kp) →
adjust_well yt yp ids tf tr adj w !! g = adj !! g.
Proof.
intros Ht Hp. unfold adjust_well. cbn [foldl].
rewrite !forgive_untouched; try done.
all: intros H; apply keypoints_in_well in H as (Hkp & Hw & Hy & _).
all: first [by eapply Ht | by eapply Hp].
Qed.

Lemma adjust_well_other_well yt yp ids tf tr adj w w' g :
ids !! g = Some w' → w ≠ w' →
adjust_well yt yp ids tf tr adj w !! g = adj !! g.
Proof.
intros Hg Hne. apply adjust_well_untouched; intros kp _ Hw; congruence.
Qed.

(** The three iterations of one well, seen at one position: the step of
  class [kp] is the only one that can write there. *)
Lemma adjust_well_only_class yt yp ids tf tr adj w g kp v :
is_keypoint kp →
(∀ kp', is_keypoint kp' → kp' ≠ kp → yt !! g ≠ Some kp') →
(∀ kp', is_keypoint kp' → kp' ≠ kp → yp !! g ≠ Some kp') →
(∀ adj', length adj' = length adj →
   forgive (keypoints (where_ (eq_mask ids w)) (bool_index yt (eq_mask ids w)))
           (keypoints (where_ (eq_mask ids w)) (bool_index yp (eq_mask ids w)))
           tf tr adj' kp !! g = Some v) →
adjust_well yt yp ids tf tr adj w !! g = Some v.
Proof.
intros Hkp Ht Hp Hstep. unfold adjust_well. cbn [foldl].
set (tk := keypoints _ (bool_index yt _)) in *.
set (pk := keypoints _ (bool_index yp _)) in *.
assert (Hother : ∀ kp' adj', is_keypoint kp' → kp' ≠ kp →
          forgive tk pk tf tr adj' kp' !! g = adj' !! g).
{ intros kp' adj' Hkp' Hne. apply forgive_untouched; intros H;
    apply keypoints_in_well in H as (_ & _ & Hy & _).
  - by eapply Ht.
  - by eapply Hp. }
destruct Hkp as [-> | [-> | ->]].
- rewrite !Hother by (unfold is_keypoint; (lia || auto)).
  by apply Hstep.
- rewrite (Hother 3) by (unfold is_keypoint; (lia || auto)).
  apply Hstep. by rewrite forgive_length.
- apply Hstep. by rewrite !forgive_length.
Qed.

Lemma forgive_rejected tk pk tf tr adj kp t p :
tk !! kp = Some t → pk !! kp = Some p →
(if kp =? 1 then tf else tr) < Z.abs (Z.of_nat t - Z.of_nat p) →
forgive tk pk tf tr adj kp = adj.
Proof.
intros Ht Hp Htol. unfold forgive. rewrite Ht, Hp.
by destruct (Z.leb_spec (Z.abs (Z.of_nat t - Z.of_nat p))
               (if kp =? 1 then tf else tr)); [lia|].
Qed.

(** The iterations of one well leave a position alone when the only class
  located there is rejected by the tolerance test. *)
Lemma adjust_well_rejected yt yp ids tf tr adj w g kp t p :
is_keypoint kp →
keypoints (where_ (eq_mask ids w)) (bool_index yt (eq_mask ids w)) !! kp
  = Some t →
keypoints (where_ (eq_mask ids w)) (bool_index yp (eq_mask ids w)) !! kp
  = Some p →
(if kp =? 1 then tf else tr) < Z.abs (Z.of_nat t - Z.of_nat p) →
(∀ kp', is_keypoint kp' → kp' ≠ kp → yt !! g ≠ Some kp') →
(∀ kp', is_keypoint kp' → kp' ≠ kp → yp !! g ≠ Some kp') →
adjust_well yt yp ids tf tr adj w !! g = adj !! g.
Proof.
intros Hkp Ht Hp Htol Hft Hfp. unfold adjust_well. cbn [foldl].
set (tk := keypoints _ (bool_index yt _)) in *.
set (pk := keypoints _ (bool_index yp _)) in *.
assert (Hstep : ∀ kp' adj', is_keypoint kp' →
          forgive tk pk tf tr adj' kp' !! g = adj' !! g).
{ intros kp' adj' Hkp'. destruct (decide (kp' = kp)) as [->|Hne].
  - by rewrite (forgive_rejected _ _ _ _ _ _ t p).
  - apply forgive_untouched; intros H;
      apply keypoints_in_well in H as (_ & _ & Hy & _).
    + by eapply Hft.
    + by eapply Hfp. }
rewrite !Hstep by (unfold is_keypoint; auto). done.
Qed.
End MetricMore.

(** ** Further facts about the search *)

Module SearchMore.
Import Np NpFacts Decoder DecoderFacts SearchFacts Combos.

(** *** The recorded combination was enumerated *)

Lemma try_kp3_achieved C1 C2 C3 c1 c2 st e :
c1 ∈ take 5 C1 → c2 ∈ take 5 C2 → c1.1 + 20 ≤ c2.1 →
e ∈ map (fun c => (Some c.1, c.2)) (take 5 C3) ++ [(None, 0%Q)] →
achieved C1 C2 C3 st →
achieved C1 C2 C3 (try_kp3 c1.1 c1.2 c2.1 c2.2 st e).
Proof.
intros H1 H2 H12 He Hst. unfold try_kp3. destruct e as [[i3|] s3].
- destruct (Z.ltb_spec i3 (c2.1 + 20)); [done|].
  destruct (Qltb _ _); [|done].
  apply elem_of_app in He as [He|He];
    [|apply list_elem_of_singleton in He; discriminate].
  rewrite map_fmap in He. apply list_elem_of_fmap in He as (c3 & [= -> ->] & Hc3).
  intros a [= <-]. exists (c1, c2, Some c3). repeat split; try done.
  + intros ? [= <-]. done.
  + intros ? [= <-]. done.
- destruct (Qltb _ _); [|done].
  intros a [= <-]. exists (c1, c2, None). repeat split; done.
Qed.

Lemma search_achieved C1 C2 C3 : achieved C1 C2 C3 (search C1 C2 C3).
Proof.
unfold search. apply foldl_invariant; [|done].
intros st [i1 s1] H1 Hst. unfold try_kp1.
apply foldl_invariant; [|done].
intros st' [i2 s2] H2 Hst'. unfold try_kp2.
destruct (Z.ltb_spec i2 (i1 + 20)); [done|].
apply foldl_invariant; [|done].
intros st'' e He Hst''.
by apply (try_kp3_achieved C1 C2 C3 (i1, s1) (i2, s2)).
Qed.

(** *** [best_score] never decreases *)

Lemma try_kp3_mono q i1 s1 i2 s2 st e :
(q <= st.2)%Q → (q <= (try_kp3 i1 s1 i2 s2 st e).2)%Q.
Proof.
intros Hq. unfold try_kp3. destruct e as [o s3].
destruct (match o with Some i => _ | None => _ end); [done|].
destruct (Qltb _ _) eqn:E; [|done]. apply Qltb_lt in E. simpl. lra.
Qed.

Lemma try_kp2_mono q C3 i1 s1 st c2 :
(q <= st.2)%Q → (q <= (try_kp2 C3 i1 s1 st c2).2)%Q.
Proof.
intros Hq. unfold try_kp2. destruct c2 as [i2 s2].
destruct (_ <? _); [done|].
apply (foldl_invariant (λ st, q <= st.2)%Q); [|done].
intros. by apply try_kp3_mono.
Qed.

Lemma try_kp1_mono q C2 C3 st c1 :
(q <= st.2)%Q → (q <= (try_kp1 C2 C3 st c1).2)%Q.
Proof.
intros Hq. unfold try_kp1. destruct c1 as [i1 s1].
apply (foldl_invariant (λ st, q <= st.2)%Q); [|done].
intros. by apply try_kp2_mono.
Qed.

(** *** Every admissible combination is scored *)

Lemma try_kp3_scores i1 s1 i2 s2 st o s3 :
match o with Some i => i2 + 20 ≤ i | None => True end →
(s1 + s2 + match o with Some _ => s3 | None => 0 end
 <= (try_kp3 i1 s1 i2 s2 st (o, s3)).2)%Q.
Proof.
intros Hadm. unfold try_kp3.
replace (match o with Some i => i <? i2 + 20 | None => false end)
  with false by (destruct o; [symmetry; apply Z.ltb_ge; lia|done]).
destruct (Qltb _ _) eqn:E; [apply Qle_refl|].
apply Qnot_lt_le. intros Hlt. apply Qltb_lt in Hlt. congruence.
Qed.

Lemma search_upper_bound C1 C2 C3 c :
searched C1 C2 C3 c → admissible c →
(combo_score c <= (search C1 C2 C3).2)%Q.
Proof.
destruct c as [[[i1 s1] [i2 s2]] o]. intros (H1 & H2 & H3) [H12 H23].
simpl in *. unfold search. unfold combo_score. simpl.
set (q := (s1 + s2 + match o with Some c3 => c3.2 | None => 0 end)%Q).
apply (foldl_reaches (λ _, True) (λ st, q <= st.2)%Q _ _ _ (i1, s1));
  try done.
{ intros. by apply try_kp1_mono. }
intros st _. unfold try_kp1.
apply (foldl_reaches (λ _, True) (λ st, q <= st.2)%Q _ _ _ (i2, s2));
  try done.
{ intros. by apply try_kp2_mono. }
intros st' _. unfold try_kp2.
destruct (Z.ltb_spec i2 (i1 + 20)); [lia|].
apply (foldl_reaches (λ _, True) (λ st, q <= st.2)%Q _ _ _
         (match o with Some c3 => (Some c3.1, c3.2) | None => (None, 0%Q) end));
  try done.
- destruct o as [c3|].
  + apply elem_of_app; left. rewrite map_fmap. apply list_elem_of_fmap.
    exists c3. split; [done|]. by apply H3.
  + apply elem_of_app; right. by apply list_elem_of_singleton.
- intros. by apply try_kp3_mono.
- intros st'' _. unfold q. destruct o as [[i3 s3]|]; simpl.
  + apply (try_kp3_scores i1 s1 i2 s2 st'' (Some i3) s3).
    by apply (H23 (i3, s3)).
  + by apply (try_kp3_scores i1 s1 i2 s2 st'' None 0%Q).
Qed.

(** *** The shape of the results *)

Lemma combo_assignment_entries C1 C2 C3 c kp idx :
searched C1 C2 C3 c → (kp, idx) ∈ combo_assignment c →
(kp = 1 ∧ ∃ s, (idx, s) ∈ C1) ∨ (kp = 2 ∧ ∃ s, (idx, s) ∈ C2)
∨ (kp = 3 ∧ ∃ s, (idx, s) ∈ C3).
Proof.
destruct c as [[[i1 s1] [i2 s2]] o]. intros (H1 & H2 & H3) Hin.
simpl in *. apply subseteq_take in H1, H2.
unfold combo_assignment in Hin. simpl in Hin.
destruct o as [[i3 s3]|]; simpl in Hin;
  rewrite !elem_of_cons, elem_of_nil in Hin.
- destruct Hin as [Hin|[Hin|[Hin|[]]]]; simplify_eq; eauto.
  right; right. split; [done|]. exists s3.
  eapply subseteq_take. by apply H3.
- destruct Hin as [Hin|[Hin|[]]]; simplify_eq; eauto.
Qed.

Lemma combo_assignment_positions c :
position 1 (combo_assignment c) = Some c.1.1.1
∧ position 2 (combo_assignment c) = Some c.1.2.1
∧ position 3 (combo_assignment c) = (λ c3 : candidate, c3.1) <$> c.2.
Proof.
destruct c as [[[i1 s1] [i2 s2]] [[i3 s3]|]]; repeat split; reflexivity.
Qed.

Lemma combo_assignment_keys c :
StronglySorted Z.lt (combo_assignment c).*1.
Proof.
unfold combo_assignment. destruct c.2; simpl;
  repeat (constructor; [|repeat constructor; lia]); constructor.
Qed.

Lemma fallback_entries cands kp idx :
(kp, idx) ∈ fallback cands →
kp ∈ [1; 2; 3] ∧ ∃ c l, cands kp = c :: l ∧ idx = c.1.
Proof.
unfold fallback. cbn [foldl].
assert (H3 : ∀ kp', kp' ∈ [1; 2; 3] → ∀ c l, cands kp' = c :: l →
          kp' ∈ [1; 2; 3] ∧ ∃ c0 l0, cands kp' = c0 :: l0 ∧ c.1 = c0.1)
  by eauto.
assert (1 ∈ [1; 2; 3]) as I1 by (rewrite !elem_of_cons; auto).
assert (2 ∈ [1; 2; 3]) as I2 by (rewrite !elem_of_cons; auto).
assert (3 ∈ [1; 2; 3]) as I3 by (rewrite !elem_of_cons; auto).
destruct (cands 1) as [|c1 l1] eqn:E1, (cands 2) as [|c2 l2] eqn:E2,
         (cands 3) as [|c3 l3] eqn:E3; simpl; intros H;
  repeat (apply elem_of_cons in H as [H|H]; [simplify_eq; eauto|]);
  by apply elem_of_nil in H.
Qed.

Lemma fallback_keys cands : StronglySorted Z.lt (fallback cands).*1.
Proof.
unfold fallback. cbn [foldl].
destruct (cands 1), (cands 2), (cands 3); simpl;
  repeat (constructor; [|repeat constructor; lia]); constructor.
Qed.

(** When the search records nothing, the heads of the class-1 and class-2
  lists are too close. *)
Lemma fallback_not_spaced cands i1 i2 :
(search (cands 1) (cands 2) (cands 3)).1 = None →
(∀ kp c, c ∈ cands kp → (1 # 10 < c.2)%Q) →
position 1 (fallback cands) = Some i1 →
position 2 (fallback cands) = Some i2 →
i2 < i1 + 20.
Proof.
intros Hnone Hfloor.
rewrite !fallback_position by (rewrite !elem_of_cons; auto).
destruct (cands 1) as [|c1 l1] eqn:E1; [done|].
destruct (cands 2) as [|c2 l2] eqn:E2; [done|].
simpl. intros [= <-] [= <-].
destruct (Z.lt_ge_cases c2.1 (c1.1 + 20)) as [|Hge]; [done|].
exfalso.
assert (is_Some (search (c1 :: l1) (c2 :: l2) (cands 3)).1) as [a Ha].
{ apply (search_complete _ _ _ c1 c2); try done.
  - simpl. apply elem_of_cons; by left.
  - simpl. apply elem_of_cons; by left.
  - pose proof (Hfloor 1 c1) as F1. pose proof (Hfloor 2 c2) as F2.
    rewrite E1 in F1. rewrite E2 in F2.
    assert (1 # 10 < c1.2)%Q by (apply F1, elem_of_cons; by left).
    assert (1 # 10 < c2.2)%Q by (apply F2, elem_of_cons; by left).
    lra. }
congruence.
Qed.

Lemma prior_score_le prior_info kp idx :
(prior_score prior_info kp idx <= 2 # 10)%Q.
Proof.
unfold prior_score. destruct (prior_info !! kp) as [p|]; [|done].
destruct (Z.ltb_spec (Z.abs (idx - p)) 15) as [Hlt|]; [|done].
assert (0 <= inject_Z (Z.abs (idx - p)) / 15)%Q; [|lra].
apply Qle_shift_div_l; [done|]. rewrite Qmult_0_l.
change 0%Q with (inject_Z 0). rewrite <- Zle_Qle. lia.
Qed.

Lemma phys_score_le std_lt n jx jx_diff kp idx :
(phys_score std_lt n jx jx_diff kp idx <= 3 # 10)%Q.
Proof.
destruct (phys_score_values std_lt n jx jx_diff kp idx) as [-> | ->]; done.
Qed.

Lemma last_k_length {A} k (a : list A) : (length (last_k k a) ≤ k)%nat.
Proof. unfold last_k. rewrite length_drop. lia. Qed.

Lemma omap_length_le {A B} (f : A → option B) l :
(length (omap f l) ≤ length l)%nat.
Proof.
induction l as [|x l IH]; csimpl; [done|]. destruct (f x); simpl; lia.
Qed.

Lemma omap_none {A B} (f : A → option B) l :
(∀ x, f x = None) → omap f l = [].
Proof.
intros H. induction l as [|x l IH]; csimpl; [done|]. by rewrite H.
Qed.
End SearchMore.

(** ** Further facts about the batch driver *)

Module BatchMore.
Import Np NpFacts Decoder DecoderFacts SearchFacts Combos SearchMore Batch
BatchFacts.

Lemma sorted_keys_functional (a : assignment) kp i1 i2 :
StronglySorted Z.lt a.*1 → (kp, i1) ∈ a → (kp, i2) ∈ a → i1 = i2.
Proof.
induction a as [|[k i] a IH]; intros Hs H1 H2.
- by apply elem_of_nil in H1.
- simpl in Hs. apply StronglySorted_inv in Hs as [Hs Hall].
  rewrite Forall_forall in Hall.
  assert (Hfresh : ∀ j, (k, j) ∈ a → False).
  { intros j Hj. assert (k ∈ a.*1) as Hk.
    { apply list_elem_of_fmap. by exists (k, j). }
    apply Hall in Hk. lia. }
  apply elem_of_cons in H1 as [H1|H1], H2 as [H2|H2]; simplify_eq;
    try done; try (exfalso; by eapply Hfresh). by apply IH.
Qed.

Section WithArgsort.
Variable argsort : list Q → list Z.
Variable std_lt : list Q → Q → bool.

(** The dictionary returned by the decoder has its classes among 1, 2, 3 in
increasing order. *)
Lemma dp_post_process_keys jx model_proba prior_info a :
dp_post_process argsort std_lt jx model_proba prior_info = Some a →
StronglySorted Z.lt a.*1 ∧ ∀ kp idx, (kp, idx) ∈ a → kp ∈ [1; 2; 3].
Proof.
unfold dp_post_process. destruct jx as [|x jx1]; [done|].
set (cands := candidates argsort std_lt (x :: jx1) model_proba prior_info).
destruct (search (cands 1) (cands 2) (cands 3)).1 as [b|] eqn:Hs;
intros [= <-].
- destruct (search_achieved _ _ _ b Hs) as (c & Hcs & _ & -> & _).
split; [apply combo_assignment_keys|]. intros kp idx Hin.
destruct (combo_assignment_entries _ _ _ _ _ _ Hcs Hin)
  as [[-> _]|[[-> _]|[-> _]]]; rewrite !elem_of_cons; auto.
- split; [apply fallback_keys|]. intros kp idx Hin.
by apply fallback_entries in Hin as [? _].
Qed.
End WithArgsort.

(** *** Fusing the probability sources *)

Lemma broadcast_rows_Some N proba :
is_Some (broadcast_rows N proba) ↔ length proba = N ∨ length proba = 1%nat.
Proof.
unfold broadcast_rows.
destruct (Nat.eqb_spec (length proba) N) as [Hl|Hl].
- split; [by left|by eexists].
- destruct proba as [|r [|r' proba]]; simpl in *.
  + split; [intros [? ?]; done|lia].
  + split; [by right|by eexists].
  + split; [intros [? ?]; done|lia].
Qed.

Lemma broadcast_rows_lookup N proba rows i :
broadcast_rows N proba = Some rows →
length rows = N
∧ ((i < N)%nat →
   rows !! i = proba !! (if (length proba =? N)%nat then i else 0%nat)).
Proof.
unfold broadcast_rows.
destruct (Nat.eqb_spec (length proba) N) as [Hl|Hl].
- intros [= <-]. done.
- destruct proba as [|r [|r' proba]]; try done. intros [= <-].
  split; [by rewrite length_replicate|].
  intros Hi. by rewrite lookup_replicate_2.
Qed.

Lemma accumulate_Some weights fp e :
is_Some (accumulate weights (Some fp) e)
↔ is_Some (weights !! e.1)
  ∧ (length e.2 = length fp ∨ length e.2 = 1%nat).
Proof.
unfold accumulate. cbn [mbind option_bind].
rewrite <- broadcast_rows_Some.
destruct (weights !! e.1) as [w|]; cbn [mbind option_bind].
- destruct (broadcast_rows (length fp) e.2) as [rows|];
    cbn [mbind option_bind].
  + split; eauto.
  + split; [intros [? ?]; done|]. intros [_ [? ?]]. done.
- split; [intros [? ?]; done|intros [[? ?] _]; done].
Qed.

Lemma accumulate_length weights fp e r :
accumulate weights (Some fp) e = Some r → length r = length fp.
Proof.
unfold accumulate. cbn [mbind option_bind].
destruct (weights !! e.1) as [w|]; cbn [mbind option_bind]; [|done].
destruct (broadcast_rows (length fp) e.2) as [rows|] eqn:Hb;
  cbn [mbind option_bind]; [|done].
destruct (broadcast_rows_lookup _ _ _ 0 Hb) as [Hl _].
intros [= <-]. rewrite length_zip_with. lia.
Qed.

Lemma foldl_accumulate_None weights l :
foldl (accumulate weights) None l = None.
Proof. induction l; cbn [foldl]; done. Qed.

Lemma foldl_accumulate_Some weights l fp :
is_Some (foldl (accumulate weights) (Some fp) l)
↔ ∀ e, e ∈ l → is_Some (weights !! e.1)
               ∧ (length e.2 = length fp ∨ length e.2 = 1%nat).
Proof.
revert fp. induction l as [|e l IH]; intros fp; cbn [foldl].
- split; [intros _ e He; by apply elem_of_nil in He|eauto].
- destruct (accumulate weights (Some fp) e) as [r|] eqn:E.
  + pose proof (accumulate_length _ _ _ _ E) as Hr.
    rewrite IH. rewrite Hr.
    assert (is_Some (accumulate weights (Some fp) e)) as He by (by rewrite E).
    apply accumulate_Some in He. split.
    * intros H e' He'. apply elem_of_cons in He' as [->|He']; auto.
    * intros H e' He'. apply H, elem_of_cons. by right.
  + rewrite foldl_accumulate_None. split; [intros [? ?]; done|].
    intros H. exfalso.
    assert (is_Some (accumulate weights (Some fp) e)) as [? ?];
      [|congruence].
    apply accumulate_Some, H, elem_of_cons. by left.
Qed.

Lemma foldl_accumulate_length weights l fp r :
foldl (accumulate weights) (Some fp) l = Some r → length r = length fp.
Proof.
revert fp. induction l as [|e l IH]; intros fp; cbn [foldl].
- by intros [= <-].
- destruct (accumulate weights (Some fp) e) as [r'|] eqn:E.
  + intros H. apply IH in H. rewrite H. by eapply accumulate_length.
  + by rewrite foldl_accumulate_None.
Qed.

Lemma column_lookup kp (m : list proba_row) i r :
m !! i = Some r →
column kp m !! i
= Some (if kp =? 1 then p1 r else if kp =? 2 then p2 r
        else if kp =? 3 then p3 r else p0 r).
Proof.
intros H. unfold column. by rewrite map_fmap, list_lookup_fmap, H.
Qed.

Lemma accumulate_column weights fp e r kp i v0 :
accumulate weights (Some fp) e = Some r →
column kp fp !! i = Some v0 →
∃ v, column kp r !! i = Some v
     ∧ (v == v0 + Fusion.source_entry (length fp) e.2 kp i
                  * default 0 (weights !! e.1))%Q.
Proof.
unfold accumulate. cbn [mbind option_bind].
destruct (weights !! e.1) as [w|]; cbn [mbind option_bind]; [|done].
destruct (broadcast_rows (length fp) e.2) as [rows|] eqn:Hb;
  cbn [mbind option_bind]; [|done].
intros [= <-] Hv0.
destruct (fp !! i) as [a|] eqn:Ea.
2: { unfold column in Hv0.
     by rewrite map_fmap, list_lookup_fmap, Ea in Hv0. }
apply lookup_lt_Some in Ea as Hi.
destruct (broadcast_rows_lookup _ _ _ i Hb) as [Hl Hrow].
specialize (Hrow Hi).
destruct (rows !! i) as [b|] eqn:Eb.
2: { apply lookup_ge_None in Eb. lia. }
rewrite (column_lookup kp fp i a Ea) in Hv0. injection Hv0 as <-.
unfold Fusion.source_entry.
rewrite (column_lookup kp e.2 _ b (eq_sym Hrow)).
erewrite column_lookup; [|by rewrite lookup_zip_with, Ea, Eb].
eexists. split; [reflexivity|]. simpl.
repeat case_match; simpl; reflexivity.
Qed.

Lemma foldl_accumulate_column weights l fp r kp i v0 :
foldl (accumulate weights) (Some fp) l = Some r →
column kp fp !! i = Some v0 →
∃ v, column kp r !! i = Some v
     ∧ (v == v0 + Fusion.weighted_sum (length fp) weights l kp i)%Q.
Proof.
revert fp v0. induction l as [|e l IH]; intros fp v0; cbn [foldl].
- intros [= <-] Hv0. exists v0. split; [done|].
  unfold Fusion.weighted_sum, Qsum. cbn [map foldr]. ring.
- destruct (accumulate weights (Some fp) e) as [r'|] eqn:E;
    [|by rewrite foldl_accumulate_None].
  intros Hr Hv0.
  destruct (accumulate_column _ _ _ _ kp i v0 E Hv0) as (v1 & Hv1 & Heq1).
  destruct (IH _ _ Hr Hv1) as (v & Hv & Heq).
  exists v. split; [done|]. rewrite Heq, Heq1.
  rewrite (accumulate_length _ _ _ _ E).
  unfold Fusion.weighted_sum, Qsum. cbn [map foldr]. ring.
Qed.
End BatchMore.

(** ** Facts about the design key points *)

Module DesignFacts.
Import Np Design.

Lemma find_from_Some f lo n i :
find_from f lo n = Some i ↔
lo ≤ i < lo + Z.of_nat n ∧ f i = true
∧ ∀ j, lo ≤ j < i → f j = false.
Proof.
revert lo. induction n as [|n IH]; intros lo; simpl.
- split; [done|lia].
- destruct (f lo) eqn:E.
  + split.
    * intros [= <-]. repeat split; try done; lia.
    * intros (Hr & Hi & Hfirst). f_equal.
      destruct (decide (lo = i)) as [|Hne]; [done|].
      rewrite Hfirst in E by lia. done.
  + rewrite IH. split.
    * intros (Hr & Hi & Hfirst). repeat split; try lia; try done.
      intros j Hj. destruct (decide (j = lo)) as [->|]; [done|].
      apply Hfirst. lia.
    * intros (Hr & Hi & Hfirst).
      assert (i ≠ lo) by (intros ->; congruence).
      repeat split; try lia; try done. intros j Hj. apply Hfirst. lia.
Qed.

Lemma find_from_None f lo n :
find_from f lo n = None ↔ ∀ j, lo ≤ j < lo + Z.of_nat n → f j = false.
Proof.
revert lo. induction n as [|n IH]; intros lo; simpl.
- split; [intros _ j Hj; lia|done].
- destruct (f lo) eqn:E.
  + split; [done|]. intros H. rewrite H in E by lia. done.
  + rewrite IH. split.
    * intros H j Hj. destruct (decide (j = lo)) as [->|]; [done|].
      apply H. lia.
    * intros H j Hj. apply H. lia.
Qed.

Lemma first_in_range_Some f lo hi i :
first_in_range f lo hi = Some i ↔
lo ≤ i < hi ∧ f i = true ∧ ∀ j, lo ≤ j < i → f j = false.
Proof.
unfold first_in_range. rewrite find_from_Some.
split; intros (Hr & ? & ?); repeat split; try done; lia.
Qed.

Lemma first_in_range_None f lo hi :
first_in_range f lo hi = None ↔ ∀ j, lo ≤ j < hi → f j = false.
Proof.
unfold first_in_range. rewrite find_from_None.
split; intros H j Hj; apply H; lia.
Qed.

(** The dictionary built by the three searches, key by key. *)
Ltac gmap_lookups :=
repeat first [ rewrite lookup_insert_eq
             | rewrite lookup_insert_ne by done
             | rewrite lookup_empty ].

Ltac locate_cases s :=
unfold locate;
destruct (first_in_range (increase_at s) _ _) as [?k1|];
  cbn [mbind option_bind]; gmap_lookups; [|done];
destruct (first_in_range (stabilize_at s) _ _) as [?k2|];
  cbn [mbind option_bind]; gmap_lookups; [|done];
destruct (first_in_range (decrease_at s) _ _) as [?k3|];
  cbn [mbind option_bind]; gmap_lookups; done.

Lemma locate_1 s :
locate s !! 1
= first_in_range (increase_at s) 10 (Z.of_nat (length s) - 10).
Proof. locate_cases s. Qed.

Lemma locate_2 s :
locate s !! 2
= k1 ← locate s !! 1;
  first_in_range (stabilize_at s) (k1 + 20) (Z.of_nat (length s) - 10).
Proof. rewrite locate_1. locate_cases s. Qed.

Lemma locate_3 s :
locate s !! 3
= k2 ← locate s !! 2;
  first_in_range (decrease_at s) (k2 + 20) (Z.of_nat (length s) - 10).
Proof. rewrite locate_2, locate_1. locate_cases s. Qed.

Lemma locate_other s kp : kp ∉ [1; 2; 3] → locate s !! kp = None.
Proof.
rewrite !elem_of_cons, elem_of_nil. intros Hkp. unfold locate.
repeat (case_match; simpl);
  rewrite ?lookup_insert_ne by (intros <-; tauto); apply lookup_empty.
Qed.
End DesignFacts.

(** ** Facts about the prior columns *)

Module FeatureFacts.
Import Np NpFacts Features DecoderFacts PriorFacts.

Lemma abs_distance_lookup n a i :
(i < n)%nat → abs_distance n a !! i = Some (Z.abs (Z.of_nat i - a)).
Proof.
intros Hi. unfold abs_distance.
rewrite map_fmap, list_lookup_fmap, lookup_seq_lt by done. done.
Qed.

Lemma abs_distance_length n a : length (abs_distance n a) = n.
Proof. unfold abs_distance. by rewrite length_map, length_seq. Qed.

(** On the distances to an in-range position, the minimum is 0 and is
  reached first at that position. *)
Lemma argmin_abs_distance n a :
0 ≤ a < Z.of_nat n →
let dists := map inject_Z (abs_distance n a) in
(min dists == 0)%Q ∧ argmin dists = Z.to_nat a.
Proof.
intros Ha dists.
assert (dists ≠ []) as Hne.
{ intros E. apply (f_equal length) in E. unfold dists in E.
  rewrite length_map, abs_distance_length in E. simpl in E. lia. }
assert (Hlook : ∀ i d, dists !! i = Some d →
          d = inject_Z (Z.abs (Z.of_nat i - a))).
{ intros i d Hd. unfold dists in Hd.
  rewrite map_fmap, list_lookup_fmap in Hd.
  destruct (abs_distance n a !! i) as [z|] eqn:E; [|done].
  assert (i < n)%nat as Hi.
  { apply lookup_lt_Some in E. by rewrite abs_distance_length in E. }
  rewrite abs_distance_lookup in E by done. by simplify_eq/=. }
assert (dists !! Z.to_nat a = Some 0%Q) as Hat.
{ unfold dists. rewrite map_fmap, list_lookup_fmap.
  rewrite abs_distance_lookup by lia. simpl.
  by replace (Z.of_nat (Z.to_nat a) - a) with 0 by lia. }
pose proof (argmin_min dists Hne) as Hmin.
pose proof (Hlook _ _ Hmin) as Hval.
assert (min dists <= 0)%Q as Hle
  by (apply min_le; by eapply list_elem_of_lookup_2).
assert (0 <= min dists)%Q as Hge.
{ rewrite Hval. change 0%Q with (inject_Z 0). rewrite <- Zle_Qle. lia. }
assert (min dists == 0)%Q as Hzero by lra.
split; [done|].
rewrite Hval in Hzero. change 0%Q with (inject_Z 0) in Hzero.
apply (proj1 (inject_Z_injective _ _)) in Hzero. lia.
Qed.

(** The prior bonus is positive exactly at distances below 15. *)
Lemma prior_score_pos_iff (prior_info : gmap Z Z) kp prior idx :
prior_info !! kp = Some prior →
(0 < Decoder.prior_score prior_info kp idx)%Q ↔ Z.abs (idx - prior) < 15.
Proof.
intros Hp. unfold Decoder.prior_score. rewrite Hp.
destruct (Z.ltb_spec (Z.abs (idx - prior)) 15) as [Hlt|Hge].
- split; [done|]. intros _.
  assert (0 <= inject_Z (Z.abs (idx - prior)) < 15)%Q as [? ?].
  { split.
    - change 0%Q with (inject_Z 0). rewrite <- Zle_Qle. lia.
    - change 15%Q with (inject_Z 15). by rewrite <- Zlt_Qlt. }
  assert (inject_Z (Z.abs (idx - prior)) / 15
          == inject_Z (Z.abs (idx - prior)) * (1 # 15))%Q as ->
    by reflexivity.
  lra.
- split; [intros H; by apply Qlt_irrefl in H|lia].
Qed.

Lemma min_in a : a ≠ [] → min a ∈ a.
Proof.
intros Hne. eapply list_elem_of_lookup_2. by apply argmin_min.
Qed.

Lemma depth_pct_lookup n i :
(i < n)%nat →
depth_pct n !! i
= Some (inject_Z (Z.of_nat i) / inject_Z (Z.max (Z.of_nat n - 1) 1))%Q.
Proof.
intros Hi. unfold depth_pct.
by rewrite map_fmap, list_lookup_fmap, lookup_seq_lt by done.
Qed.

Lemma depth_pct_denominator n :
(0 < inject_Z (Z.max (Z.of_nat n - 1) 1))%Q.
Proof. change 0%Q with (inject_Z 0). rewrite <- Zlt_Qlt. lia. Qed.

Lemma diff_fillna_length s : length (diff_fillna s) = length s.
Proof.
destruct s as [|x t]; [done|]. simpl. f_equal.
rewrite length_zip_with. simpl. lia.
Qed.

Lemma diff_fillna_0 s x : s !! 0%nat = Some x → diff_fillna s !! 0%nat = Some 0%Q.
Proof. by destruct s. Qed.

Lemma diff_fillna_S s j x y :
s !! j = Some x → s !! S j = Some y →
diff_fillna s !! S j = Some (y - x)%Q.
Proof.
destruct s as [|x0 t]; [done|]. intros Hx Hy. simpl in Hy. simpl.
rewrite lookup_zip_with, Hy. simpl. by rewrite Hx.
Qed.

Lemma steps_Forall (P : Q * Q → Prop) a :
Forall P (steps a)
↔ ∀ k x y, a !! k = Some x → a !! S k = Some y → P (x, y).
Proof.
destruct a as [|x0 t].
- split; [by intros _ k x y ?|constructor].
- change (steps (x0 :: t)) with (zip_with pair (x0 :: t) t).
  rewrite Forall_lookup. split.
  + intros H k x y Hx Hy. apply (H k).
    apply lookup_zip_with_Some. exists x, y. done.
  + intros H k z Hz.
    apply lookup_zip_with_Some in Hz as (x & y & -> & Hx & Hy).
    by apply (H k).
Qed.

Lemma window_values_length jx i w :
length (window_values jx i w) = (Nat.min (length jx) (i + w) - i)%nat.
Proof. unfold window_values. rewrite length_take, length_drop. lia. Qed.

Lemma window_values_lookup jx i w k :
(k < w)%nat → window_values jx i w !! k = jx !! (i + k)%nat.
Proof.
intros Hk. unfold window_values. rewrite lookup_take, lookup_drop.
destruct (decide _) as [Hlt|Hge]; [done|].
symmetry. apply lookup_ge_None. lia.
Qed.

Lemma window_values_lookup_Some jx i w k x :
window_values jx i w !! k = Some x → (k < w)%nat.
Proof.
intros H. apply lookup_lt_Some in H. rewrite window_values_length in H. lia.
Qed.

(** The flag of a column of windowed monotonicity flags, for a test [f] on
  the differences. *)
Lemma flag_lookup (f : Q → Q → bool) jx w i :
map (fun i =>
       let window := window_values jx i w in
       if (1 <? length window)%nat then
         if forallb (fun p => f p.1 p.2) (steps window) then 1 else 0
       else 0)
    (seq 0 (length jx)) !! i = Some 1
↔ (S i < length jx)%nat ∧ (2 ≤ w)%nat
  ∧ ∀ k x y, (S k < w)%nat →
      jx !! (i + k)%nat = Some x → jx !! (i + S k)%nat = Some y →
      f x y = true.
Proof.
rewrite map_fmap, list_lookup_fmap.
destruct (decide (i < length jx)%nat) as [Hi|Hi].
- rewrite lookup_seq_lt by done. simpl.
  rewrite window_values_length.
  destruct (Nat.ltb_spec 1 (Nat.min (length jx) (i + w) - i)) as [Hlen|Hlen].
  + destruct (forallb (fun p => f p.1 p.2) (steps (window_values jx i w)))
      eqn:Hall.
    * split; [intros _|done]. split; [lia|]. split; [lia|].
      intros k x y Hk Hx Hy.
      assert (Is_true (forallb (fun p => f p.1 p.2)
                         (steps (window_values jx i w)))) as Hf
        by (by rewrite Hall).
      apply forallb_True in Hf.
      apply Is_true_true.
      apply (proj1 (steps_Forall (fun p => f p.1 p.2) _) Hf k).
      -- rewrite window_values_lookup; [done|lia].
      -- rewrite window_values_lookup; [done|lia].
    * split; [done|]. intros (_ & _ & H). exfalso.
      assert (Is_true (forallb (fun p => f p.1 p.2)
                         (steps (window_values jx i w)))) as Hf.
      { apply forallb_True, steps_Forall. intros k x y Hx Hy.
        apply window_values_lookup_Some in Hy as Hk.
        rewrite window_values_lookup in Hx by lia.
        rewrite window_values_lookup in Hy by lia.
        apply Is_true_true, (H k x y Hk Hx Hy). }
      by rewrite Hall in Hf.
  + split; [done|]. intros (? & ? & _). lia.
- rewrite lookup_seq_ge by lia. simpl. split; [done|]. intros (? & _). lia.
Qed.

(** A flag is 0 or 1, and every row of the well has one. *)
Lemma flag_values (f : Q → Q → bool) jx w i :
(i < length jx)%nat →
∃ v, map (fun i =>
            let window := window_values jx i w in
            if (1 <? length window)%nat then
              if forallb (fun p => f p.1 p.2) (steps window) then 1 else 0
            else 0)
         (seq 0 (length jx)) !! i = Some v
     ∧ (v = 0 ∨ v = 1).
Proof.
intros Hi. rewrite map_fmap, list_lookup_fmap, lookup_seq_lt by done.
simpl. eexists. split; [done|]. repeat case_match; auto.
Qed.

Lemma monotonic_inc_lookup diff_ge jx w i :
monotonic_inc diff_ge jx w !! i = Some 1
↔ (S i < length jx)%nat ∧ (2 ≤ w)%nat
  ∧ ∀ k x y, (S k < w)%nat →
      jx !! (i + k)%nat = Some x → jx !! (i + S k)%nat = Some y →
      diff_ge x y = true.
Proof. apply flag_lookup. Qed.

Lemma monotonic_dec_lookup diff_le jx w i :
monotonic_dec diff_le jx w !! i = Some 1
↔ (S i < length jx)%nat ∧ (2 ≤ w)%nat
  ∧ ∀ k x y, (S k < w)%nat →
      jx !! (i + k)%nat = Some x → jx !! (i + S k)%nat = Some y →
      diff_le x y = true.
Proof. apply flag_lookup. Qed.

End FeatureFacts.

(** ** Facts about the sampling of hard negatives *)

Module SamplingFacts.
Import Np Sampling.

Lemma group_index_elem df w idx :
idx ∈ group_index df w ↔ ∃ r, df !! idx = Some r ∧ well_id r = w.
Proof.
unfold group_index. rewrite BatchFacts.where_elem.
rewrite NpFacts.map_fmap, list_lookup_fmap.
destruct (df !! idx) as [r|]; simpl.
- destruct (Z.eqb_spec (well_id r) w); naive_solver.
- naive_solver.
Qed.

Lemma label_at_lookup df idx r : df !! idx = Some r → label_at df idx = label r.
Proof. unfold label_at. by intros ->. Qed.

Lemma get_loc_Some index idx p :
NoDup index → index !! p = Some idx → get_loc index idx = Some p.
Proof.
intros Hnd Hp. unfold get_loc.
destruct (list_find (fun x => x = idx) index) as [[i x]|] eqn:Hf; simpl.
- apply list_find_Some in Hf as (Hi & -> & _).
  f_equal. by eapply NoDup_lookup.
- apply list_find_None in Hf.
  apply (proj1 (Forall_forall _ _)) with (x := idx) in Hf; [done|].
  by eapply list_elem_of_lookup_2.
Qed.

Lemma window_step_mono df index hard pos idx :
idx ∈ hard → idx ∈ window_step df index hard pos.
Proof.
intros H. unfold window_step.
destruct (index !! Z.to_nat pos); [|done].
destruct (label_at df _ =? 0); set_solver.
Qed.

Lemma window_step_sound df index hard pos idx :
idx ∈ window_step df index hard pos →
idx ∈ hard ∨ (idx ∈ index ∧ label_at df idx = 0).
Proof.
unfold window_step.
destruct (index !! Z.to_nat pos) as [i|] eqn:Hi; [|by left].
destruct (Z.eqb_spec (label_at df i) 0); [|by left].
rewrite elem_of_union, elem_of_singleton. intros [->|H]; [right|by left].
split; [by eapply list_elem_of_lookup_2|done].
Qed.

Lemma hard_window_mono df index window hard kp idx :
idx ∈ hard → idx ∈ hard_window df index window hard kp.
Proof.
intros H. unfold hard_window. destruct (get_loc index kp); [|done].
apply (NpFacts.foldl_invariant (fun h => idx ∈ h)); [|done].
intros h pos _. apply window_step_mono.
Qed.

Lemma hard_window_sound df index window hard kp idx :
idx ∈ hard_window df index window hard kp →
idx ∈ hard ∨ (idx ∈ index ∧ label_at df idx = 0).
Proof.
unfold hard_window. destruct (get_loc index kp); [|by left].
apply (NpFacts.foldl_invariant
         (fun h => idx ∈ h → idx ∈ hard ∨ (idx ∈ index ∧ label_at df idx = 0)));
  [|by left].
intros h pos _ IH Hin.
apply (window_step_sound df index h pos idx) in Hin as [Hin|Hin]; auto.
Qed.

Lemma hard_window_adds df index window hard kp_idx kp_pos p idx :
NoDup index →
index !! kp_pos = Some kp_idx →
index !! p = Some idx →
label_at df idx = 0 →
Z.abs (Z.of_nat p - Z.of_nat kp_pos) ≤ window →
idx ∈ hard_window df index window hard kp_idx.
Proof.
intros Hnd Hkp Hp Hl Hw. unfold hard_window.
rewrite (get_loc_Some index kp_idx kp_pos Hnd Hkp).
apply lookup_lt_Some in Hp as Hlt.
apply (NpFacts.foldl_reaches (fun _ => True) (fun h => idx ∈ h)) with
  (x := Z.of_nat p); try done.
- apply elem_of_seqZ. lia.
- intros h pos. apply window_step_mono.
- intros h _. unfold window_step. rewrite Nat2Z.id, Hp, Hl. simpl. set_solver.
Qed.

Lemma hard_fold_mono df index window kps hard idx :
idx ∈ hard → idx ∈ foldl (hard_window df index window) hard kps.
Proof.
intros H. apply (NpFacts.foldl_invariant (fun h => idx ∈ h)); [|done].
intros h kp _. apply hard_window_mono.
Qed.

Lemma hard_fold_sound df index window kps idx :
idx ∈ foldl (hard_window df index window) ∅ kps →
idx ∈ index ∧ label_at df idx = 0.
Proof.
intros H.
assert (idx ∈ (∅ : gset nat) ∨ (idx ∈ index ∧ label_at df idx = 0))
  as [Hin|Hin]; [|set_solver|done].
revert H.
apply (NpFacts.foldl_invariant
         (fun h => idx ∈ h →
                   idx ∈ (∅ : gset nat) ∨ (idx ∈ index ∧ label_at df idx = 0)));
  [|by left].
intros h kp _ IH Hin.
apply hard_window_sound in Hin as [Hin|Hin]; auto.
Qed.

Lemma hard_fold_adds df index window kps kp_idx kp_pos p idx :
NoDup index →
kp_idx ∈ kps →
index !! kp_pos = Some kp_idx →
index !! p = Some idx →
label_at df idx = 0 →
Z.abs (Z.of_nat p - Z.of_nat kp_pos) ≤ window →
idx ∈ foldl (hard_window df index window) ∅ kps.
Proof.
intros Hnd Hin Hkp Hp Hl Hw.
apply (NpFacts.foldl_reaches (fun _ => True) (fun h => idx ∈ h)) with
  (x := kp_idx); try done.
- intros h kp. apply hard_window_mono.
- intros h _. by eapply hard_window_adds.
Qed.

Lemma filter_nil_not_elem (P : nat → Prop) `{!∀ x, Decision (P x)} l x :
filter P l = [] → x ∈ l → ¬ P x.
Proof.
intros Hf Hx HP.
assert (x ∈ filter P l) as Hin by (apply list_elem_of_filter; done).
rewrite Hf in Hin. by apply elem_of_nil in Hin.
Qed.

Lemma submseteq_NoDup (l k : list nat) : l ⊆+ k → NoDup k → NoDup l.
Proof.
intros Hs Hk. apply submseteq_Permutation in Hs as [k' Hp].
rewrite Hp in Hk. by apply NoDup_app in Hk as (? & _ & _).
Qed.

Lemma NoDup_pieces (a b c : list nat) :
NoDup a → NoDup b → NoDup c →
(∀ x, x ∈ a → x ∉ b) → (∀ x, x ∈ a → x ∉ c) → (∀ x, x ∈ b → x ∉ c) →
NoDup (a ++ b ++ c ++ []).
Proof.
intros Ha Hb Hc Hab Hac Hbc. rewrite app_nil_r.
apply NoDup_app. split; [done|]. split.
- intros x Hx Hin. apply elem_of_app in Hin as [Hin|Hin].
  + by apply (Hab x).
  + by apply (Hac x).
- apply NoDup_app. split; [done|]. split; [|done]. apply Hbc.
Qed.

Lemma int_le (x : Q) (n : Z) : 0 ≤ n → (x <= inject_Z n)%Q → int x ≤ n.
Proof.
intros Hn Hle. unfold int. destruct x as [a b].
unfold Qle in Hle. simpl in *.
destruct (Z_lt_le_dec a 0) as [Ha|Ha].
- assert (Z.quot a (Z.pos b) ≤ 0); [|lia].
  apply Z.quot_le_upper_bound; lia.
- apply Z.quot_le_upper_bound; lia.
Qed.

Lemma n_sample_le (len : nat) (ratio : Q) :
(1 ≤ len)%nat → (ratio <= 1)%Q → (n_sample len ratio ≤ len)%nat.
Proof.
intros Hlen Hr. unfold n_sample.
assert (int (inject_Z (Z.of_nat len) * ratio) ≤ Z.of_nat len); [|lia].
apply int_le; [lia|].
assert (0 <= inject_Z (Z.of_nat len))%Q.
{ change 0%Q with (inject_Z 0). rewrite <- Zle_Qle. lia. }
nra.
Qed.

Section WithChoice.

Context {rng : Type}.
Variable choice : rng → list nat → nat → option (list nat * rng).

(** What one turn of the loop over wells appends. *)
Lemma sample_well_grows df window ratio sl g w sl' g' :
sample_well choice df window ratio (sl, g) w = Some (sl', g') →
∃ pieces,
sl' = sl ++ pieces
∧ (∀ idx, must_keep df window w idx → idx ∈ concat pieces)
∧ (group_index df w ≠ [] → pieces ≠ [])
∧ (draws_from_its_argument choice →
   NoDup (concat pieces)
   ∧ ∀ idx, idx ∈ concat pieces → idx ∈ group_index df w).
Proof.
unfold sample_well.
assert (Hnd : NoDup (group_index df w)) by apply NpFacts.where_NoDup.
unfold must_keep.
set (index := group_index df w) in *.
set (negs := filter (fun idx => label_at df idx = 0) index).
assert (Hnegs : ∀ x, x ∈ negs → x ∈ index ∧ label_at df x = 0).
{ intros x Hx. apply list_elem_of_filter in Hx. tauto. }
assert (Hnegs_nd : NoDup negs) by (by apply NoDup_filter).
destruct (filter (fun idx => label_at df idx ≠ 0) index) as [|k ks] eqn:Hk.
- intros H.
assert (Hno : ∀ idx, idx ∈ index → label_at df idx ≠ 0 → False).
{ intros idx Hin Hl. by apply (filter_nil_not_elem _ _ _ Hk Hin). }
assert (Hnone : ∀ idx l,
  (idx ∈ index ∧ label_at df idx ≠ 0)
  ∨ (∃ kp_idx kp_pos p,
       index !! kp_pos = Some kp_idx ∧ label_at df kp_idx ≠ 0
       ∧ index !! p = Some idx ∧ label_at df idx = 0
       ∧ Z.abs (Z.of_nat p - Z.of_nat kp_pos) ≤ window) →
  idx ∈ concat l).
{ intros idx l [[Hin Hl]|(kp_idx & kp_pos & p & Hkp & Hl & _)].
  - by destruct (Hno idx Hin Hl).
  - exfalso. eapply Hno; [by eapply list_elem_of_lookup_2|done]. }
destruct (Nat.ltb _ _) eqn:Hlen.
+ destruct (choice g _ _) as [[l g1]|] eqn:Hc; simpl in H; [|done].
  injection H as <- <-. exists [l].
  split; [done|]. split; [by intros; apply Hnone|]. split; [done|].
  intros Hsub. specialize (Hsub _ _ _ _ _ Hc). simpl.
  rewrite app_nil_r. split.
  * by eapply submseteq_NoDup.
  * intros idx Hin. eapply elem_of_submseteq in Hin; [|done].
    by apply Hnegs.
+ injection H as <- <-. exists []. rewrite app_nil_r.
  split; [done|]. split; [by intros; apply Hnone|].
  split; [|intros _; split].
  * intros Hne. exfalso. destruct index as [|x xs] eqn:Hix; [done|].
    apply Nat.ltb_ge in Hlen.
    assert (Hx : x ∈ x :: xs) by (apply elem_of_cons; by left).
    destruct (decide (label_at df x = 0)) as [Hz|Hz].
    -- assert (x ∈ negs) as Hf by (apply list_elem_of_filter; done).
       apply list_elem_of_lookup_1 in Hf as [i Hi].
       apply lookup_lt_Some in Hi. lia.
    -- by apply (Hno x).
  * constructor.
  * simpl. by intros idx ?%elem_of_nil.
- rewrite <- Hk. clear k ks Hk.
set (kps := filter (fun idx => label_at df idx ≠ 0) index).
set (hard := foldl (hard_window df index window) ∅ kps).
set (easy := list_to_set negs ∖ hard).
intros H.
assert (Hkps : ∀ x, x ∈ kps ↔ x ∈ index ∧ label_at df x ≠ 0).
{ intros x. unfold kps. rewrite list_elem_of_filter. tauto. }
assert (Hkps_nd : NoDup kps) by (by apply NoDup_filter).
assert (Hhard_in : ∀ x, x ∈ elements hard →
                        x ∈ index ∧ label_at df x = 0).
{ intros x Hx. apply elem_of_elements in Hx.
  by apply hard_fold_sound in Hx. }
assert (Heasy : ∀ x, x ∈ elements easy →
                     x ∈ index ∧ label_at df x = 0
                     ∧ x ∉ elements hard).
{ intros x Hx. apply elem_of_elements in Hx.
  apply elem_of_difference in Hx as [Hx Hnh].
  apply elem_of_list_to_set, Hnegs in Hx as [? ?].
  repeat split; try done. by rewrite elem_of_elements. }
assert (Hhard : ∀ kp_idx kp_pos p idx,
           index !! kp_pos = Some kp_idx → label_at df kp_idx ≠ 0 →
           index !! p = Some idx → label_at df idx = 0 →
           Z.abs (Z.of_nat p - Z.of_nat kp_pos) ≤ window →
           hard ≠ ∅ ∧ idx ∈ elements hard).
{ intros kp_idx kp_pos p idx Hkp Hl Hp Hz Hw.
  assert (idx ∈ hard) as Hin.
  { apply (hard_fold_adds df index window kps kp_idx kp_pos p idx);
      try done.
    apply Hkps. split; [by eapply list_elem_of_lookup_2|done]. }
  split; [set_solver|by apply elem_of_elements]. }
assert (Hkh : ∀ x, x ∈ kps → x ∉ elements hard).
{ intros x Hx Hh. apply Hkps in Hx as [_ Hx].
  apply Hhard_in in Hh as [_ Hh]. done. }
destruct (decide (hard ≠ ∅)) as [Hh|Hh];
  destruct (decide (easy ≠ ∅)) as [He|He];
  try (destruct (choice g _ _) as [[l g1]|] eqn:Hc; simpl in H; [|done]);
  injection H as <- <-.
+ exists [kps; elements hard; l]. rewrite <- !app_assoc.
  split; [done|]. split; [|split; [done|]].
  * simpl. intros idx [Hin|(kp_idx & kp_pos & p & Hkp & Hl & Hp & Hz & Hw)].
    -- apply elem_of_app. left. by apply Hkps.
    -- apply elem_of_app. right. apply elem_of_app. left.
       exact (proj2 (Hhard _ _ _ _ Hkp Hl Hp Hz Hw)).
  * intros Hsub. specialize (Hsub _ _ _ _ _ Hc).
    assert (Hl : ∀ x, x ∈ l → x ∈ elements easy).
    { intros x Hx. by eapply elem_of_submseteq. }
    split.
    -- apply (NoDup_pieces kps (elements hard) l); try done.
       ++ apply NoDup_elements.
       ++ eapply submseteq_NoDup; [done|apply NoDup_elements].
       ++ intros x Hx Hxl. apply Hkps in Hx as [_ Hx].
          apply Hl, Heasy in Hxl as (_ & Hxl & _). done.
       ++ intros x Hx Hxl. apply Hl, Heasy in Hxl as (_ & _ & Hxl). done.
    -- simpl. intros idx. rewrite !elem_of_app.
       intros [Hi|[Hi|[Hi|Hi]]].
       ++ by apply Hkps in Hi as [? _].
       ++ by apply Hhard_in in Hi as [? _].
       ++ by apply Hl, Heasy in Hi as [? _].
       ++ by apply elem_of_nil in Hi.
+ exists [kps; elements hard]. rewrite <- !app_assoc.
  split; [done|]. split; [|split; [done|]].
  * simpl. intros idx [Hin|(kp_idx & kp_pos & p & Hkp & Hl & Hp & Hz & Hw)].
    -- apply elem_of_app. left. by apply Hkps.
    -- apply elem_of_app. right. apply elem_of_app. left.
       exact (proj2 (Hhard _ _ _ _ Hkp Hl Hp Hz Hw)).
  * intros _. split.
    -- apply (NoDup_pieces kps (elements hard) []); try done.
       ++ apply NoDup_elements.
       ++ constructor.
       ++ intros x _. apply not_elem_of_nil.
       ++ intros x _. apply not_elem_of_nil.
    -- simpl. intros idx. rewrite !elem_of_app.
       intros [Hi|[Hi|Hi]].
       ++ by apply Hkps in Hi as [? _].
       ++ by apply Hhard_in in Hi as [? _].
       ++ by apply elem_of_nil in Hi.
+ exists [kps; l]. rewrite <- !app_assoc.
  split; [done|]. split; [|split; [done|]].
  * simpl. intros idx [Hin|(kp_idx & kp_pos & p & Hkp & Hl & Hp & Hz & Hw)].
    -- apply elem_of_app. left. by apply Hkps.
    -- destruct (Hhard _ _ _ _ Hkp Hl Hp Hz Hw) as [Hne _]. done.
  * intros Hsub. specialize (Hsub _ _ _ _ _ Hc).
    assert (Hl : ∀ x, x ∈ l → x ∈ elements easy).
    { intros x Hx. by eapply elem_of_submseteq. }
    split.
    -- apply (NoDup_pieces kps [] l); try done.
       ++ constructor.
       ++ eapply submseteq_NoDup; [done|apply NoDup_elements].
       ++ intros x _. apply not_elem_of_nil.
       ++ intros x Hx Hxl. apply Hkps in Hx as [_ Hx].
          apply Hl, Heasy in Hxl as (_ & Hxl & _). done.
       ++ intros x Hx. by apply elem_of_nil in Hx.
    -- simpl. intros idx. rewrite !elem_of_app.
       intros [Hi|[Hi|Hi]].
       ++ by apply Hkps in Hi as [? _].
       ++ by apply Hl, Heasy in Hi as [? _].
       ++ by apply elem_of_nil in Hi.
+ exists [kps].
  split; [done|]. split; [|split; [done|]].
  * simpl. intros idx [Hin|(kp_idx & kp_pos & p & Hkp & Hl & Hp & Hz & Hw)].
    -- apply elem_of_app. left. by apply Hkps.
    -- destruct (Hhard _ _ _ _ Hkp Hl Hp Hz Hw) as [Hne _]. done.
  * intros _. simpl. rewrite app_nil_r. split; [done|].
    intros idx Hi. by apply Hkps in Hi as [? _].
Qed.

Lemma sample_well_succeeds df window ratio st w :
draws_when_possible choice → (ratio <= 1)%Q →
is_Some (sample_well choice df window ratio st w).
Proof.
intros Hok Hr. destruct st as [sl g]. unfold sample_well.
destruct (filter (fun idx => label_at df idx ≠ 0) _) as [|k ks].
- destruct (Nat.ltb _ _) eqn:Hlen; [|done].
apply Nat.ltb_lt in Hlen.
match goal with
| |- is_Some (choice g ?a ?k ≫= _) =>
    destruct (Hok g a k) as [[l g1] ->]; [|done]
end.
apply n_sample_le; [lia|done].
- destruct (decide _); destruct (decide _); try done;
  match goal with
  | |- is_Some (choice g ?a ?k ≫= _) =>
      destruct (Hok g a k) as [[l g1] ->]; [|done]
  end; unfold size, set_size; simpl; lia.
Qed.

Lemma fold_step_None df window ratio ws :
foldl (sample_step choice df window ratio) None ws = None.
Proof. induction ws as [|w ws IH]; [done|]. cbn [foldl]. apply IH. Qed.

Lemma fold_succeeds df window ratio ws st :
draws_when_possible choice → (ratio <= 1)%Q →
is_Some (foldl (sample_step choice df window ratio) (Some st) ws).
Proof.
intros Hok Hr. revert st. induction ws as [|w ws IH]; intros st.
- by eexists.
- cbn [foldl].
destruct (sample_well_succeeds df window ratio st w Hok Hr) as [st' Hst].
change (sample_step choice df window ratio (Some st) w)
  with (sample_well choice df window ratio st w).
rewrite Hst. apply IH.
Qed.

(** The loop over wells only appends, and what it appends for a well holds
the rows that must be kept. *)
Lemma fold_grows df window ratio ws sl g sl' g' :
foldl (sample_step choice df window ratio) (Some (sl, g)) ws
= Some (sl', g') →
(∀ idx, idx ∈ concat sl → idx ∈ concat sl')
∧ (sl ≠ [] → sl' ≠ [])
∧ (∀ w idx, w ∈ ws → must_keep df window w idx → idx ∈ concat sl')
∧ (∀ w, w ∈ ws → group_index df w ≠ [] → sl' ≠ []).
Proof.
revert sl g. induction ws as [|w0 ws IH]; intros sl g H.
- injection H as <- <-. repeat split; try done.
+ intros w idx Hw. by apply elem_of_nil in Hw.
+ intros w Hw. by apply elem_of_nil in Hw.
- cbn [foldl] in H.
change (sample_step choice df window ratio (Some (sl, g)) w0)
  with (sample_well choice df window ratio (sl, g) w0) in H.
destruct (sample_well choice df window ratio (sl, g) w0)
  as [[sl1 g1]|] eqn:Hw0; [|by rewrite fold_step_None in H].
apply sample_well_grows in Hw0 as (pieces & -> & Hkeep & Hne & _).
apply IH in H as (Hmono & Hne' & Hkeep' & Hgrp).
repeat split.
+ intros idx Hin. apply Hmono. rewrite concat_app, elem_of_app. by left.
+ intros Hsl. apply Hne'. by destruct sl.
+ intros w idx Hw Hmk. apply elem_of_cons in Hw as [->|Hw].
  * apply Hmono. rewrite concat_app, elem_of_app. right. by apply Hkeep.
  * by eapply Hkeep'.
+ intros w Hw Hg. apply elem_of_cons in Hw as [->|Hw].
  * apply Hne'. specialize (Hne Hg). destruct sl; [by destruct pieces|done].
  * by eapply Hgrp.
Qed.

(** With a draw that returns elements of its argument, the pieces are
pairwise disjoint sets of rows of the frame. *)
Lemma fold_sound df window ratio ws :
draws_from_its_argument choice → NoDup ws →
∀ sl g sl' g',
foldl (sample_step choice df window ratio) (Some (sl, g)) ws
= Some (sl', g') →
NoDup (concat sl) →
(∀ idx, idx ∈ concat sl → ∃ r, df !! idx = Some r ∧ well_id r ∉ ws) →
NoDup (concat sl') ∧ ∀ idx, idx ∈ concat sl' → ∃ r, df !! idx = Some r.
Proof.
intros Hsub. induction ws as [|w0 ws IH]; intros Hws sl g sl' g' H Hnd Hin.
- injection H as <- <-. split; [done|].
intros idx Hi. destruct (Hin idx Hi) as (r & Hr & _). by exists r.
- apply NoDup_cons in Hws as [Hw0 Hws].
cbn [foldl] in H.
change (sample_step choice df window ratio (Some (sl, g)) w0)
  with (sample_well choice df window ratio (sl, g) w0) in H.
destruct (sample_well choice df window ratio (sl, g) w0)
  as [[sl1 g1]|] eqn:Hs; [|by rewrite fold_step_None in H].
apply sample_well_grows in Hs as (pieces & -> & _ & _ & Hp).
destruct (Hp Hsub) as [Hpnd Hpin].
apply (IH Hws _ _ _ _ H).
+ rewrite concat_app. apply NoDup_app. split; [done|]. split; [|done].
  intros idx Hi Hi'. destruct (Hin idx Hi) as (r & Hr & Hnot).
  apply Hpin, group_index_elem in Hi' as (r' & Hr' & Hw).
  apply Hnot. rewrite Hr in Hr'. injection Hr' as ->.
  rewrite Hw. apply elem_of_cons. by left.
+ intros idx Hi. rewrite concat_app in Hi.
  apply elem_of_app in Hi as [Hi|Hi].
  * destruct (Hin idx Hi) as (r & Hr & Hnot). exists r. split; [done|].
    intros Hr'. apply Hnot. apply elem_of_cons. by right.
  * apply Hpin, group_index_elem in Hi as (r & Hr & Hw).
    exists r. split; [done|]. by rewrite Hw.
Qed.

(** A result is the sorted concatenation of a non-empty list of pieces. *)
Lemma sample_hard_negatives_Some df window ratio g res g' :
sample_hard_negatives choice df window ratio g = Some (res, g') →
∃ sl,
foldl (sample_step choice df window ratio) (Some ([], g))
      (pd_unique (map well_id df)) = Some (sl, g')
∧ res = merge_sort (≤)%nat (concat sl).
Proof.
unfold sample_hard_negatives.
destruct (foldl _ _ _) as [[sl g1]|]; simpl; [|done].
destruct sl as [|p sl]; [done|].
intros H. injection H as <- <-. by eexists.
Qed.

Lemma well_in_frame df idx r :
df !! idx = Some r → well_id r ∈ pd_unique (map well_id df).
Proof.
intros Hr. apply BatchFacts.pd_unique_elem.
rewrite NpFacts.map_fmap. apply list_elem_of_fmap. exists r.
split; [done|]. by eapply list_elem_of_lookup_2.
Qed.

(** Every row that must be kept is in the result. *)
Lemma sample_hard_negatives_keeps df window ratio g res g' w idx :
sample_hard_negatives choice df window ratio g = Some (res, g') →
idx ∈ group_index df w →
must_keep df window w idx →
idx ∈ res.
Proof.
intros H Hin Hmk.
apply sample_hard_negatives_Some in H as (sl & Hf & ->).
rewrite merge_sort_Permutation.
apply fold_grows in Hf as (_ & _ & Hkeep & _).
apply (Hkeep w); [|done].
apply group_index_elem in Hin as (r & Hr & <-). by eapply well_in_frame.
Qed.

End WithChoice.

Lemma sorted_NoDup_lt (l : list nat) :
StronglySorted (≤)%nat l → NoDup l → StronglySorted (<)%nat l.
Proof.
induction 1 as [|x l Hl IH Hx]; intros Hnd; constructor.
- apply IH. by apply NoDup_cons in Hnd as [_ ?].
- apply NoDup_cons in Hnd as [Hnot _].
  apply Forall_forall. intros y Hy.
  apply (proj1 (Forall_forall _ _)) with (x := y) in Hx; [|done].
  assert (x ≠ y) by (intros ->; done). lia.
Qed.

Lemma choose_first_draws_from_its_argument :
draws_from_its_argument choose_first.
Proof.
intros g a k l g' H. unfold choose_first in H.
destruct (k <=? length a)%nat; [|done]. injection H as <- <-.
apply sublist_submseteq, sublist_take.
Qed.

Lemma choose_first_draws_when_possible : draws_when_possible choose_first.
Proof.
intros g a k Hk. unfold choose_first.
apply Nat.leb_le in Hk. rewrite Hk. by eexists.
Qed.

End SamplingFacts.

(** ** Facts about the alignment map *)

Module AlignmentFacts.
Import Np Sampling Alignment.

Lemma int_between (x : Q) (lo hi : Z) :
(inject_Z lo <= x)%Q → (x <= inject_Z hi)%Q → lo ≤ int x ≤ hi.
Proof.
intros Hlo Hhi. unfold int. destruct x as [a b].
unfold Qle in Hlo, Hhi. simpl in *.
destruct (Z_lt_le_dec a 0) as [Ha|Ha].
- replace a with (- (- a)) by lia. rewrite Z.quot_opp_l by lia.
  rewrite Z.quot_div_nonneg by lia.
  assert (- a / Z.pos b ≤ - lo).
  { apply Z.div_le_upper_bound; lia. }
  assert (0 ≤ - a / Z.pos b) by (apply Z.div_pos; lia).
  assert (- hi ≤ - a / Z.pos b); [|lia].
  destruct (Z_lt_le_dec hi 0) as [Hh|Hh]; [|lia].
  apply Z.div_le_lower_bound; lia.
- rewrite Z.quot_div_nonneg by lia. split.
  + destruct (Z_lt_le_dec lo 0) as [Hl|Hl].
    * assert (0 ≤ a / Z.pos b) by (apply Z.div_pos; lia). lia.
    * apply Z.div_le_lower_bound; lia.
  + assert (a / Z.pos b ≤ hi); [|lia].
    destruct (Z_lt_le_dec hi 0) as [Hh|Hh]; [nia|].
    apply Z.div_le_upper_bound; [lia|]. nia.
Qed.

Lemma Qsum_inject_between (v : list Z) (lo hi : Z) :
(∀ a, a ∈ v → lo ≤ a ≤ hi) →
(inject_Z lo * inject_Z (Z.of_nat (length v)) <= Qsum (map inject_Z v))%Q
∧ (Qsum (map inject_Z v) <= inject_Z hi * inject_Z (Z.of_nat (length v)))%Q.
Proof.
induction v as [|a v IH]; intros H.
- unfold Qsum. simpl. split; ring_simplify; apply Qle_refl.
- destruct IH as [IH1 IH2].
  { intros b Hb. apply H. apply elem_of_cons. by right. }
  destruct (H a) as [Ha1 Ha2]; [apply elem_of_cons; by left|].
  rewrite Zle_Qle in Ha1, Ha2.
  cbn [length]. rewrite Nat2Z.inj_succ. unfold Z.succ.
  rewrite inject_Z_plus. change (inject_Z 1) with 1%Q.
  change (Qsum (map inject_Z (a :: v)))
    with (inject_Z a + Qsum (map inject_Z v))%Q.
  split; lra.
Qed.

Lemma int_mean_between (v : list Z) (lo hi : Z) :
v ≠ [] → (∀ a, a ∈ v → lo ≤ a ≤ hi) → lo ≤ int_mean v ≤ hi.
Proof.
intros Hne H. unfold int_mean, mean.
destruct (Qsum_inject_between v lo hi H) as [H1 H2].
rewrite length_map.
assert (Hpos : (0 < inject_Z (Z.of_nat (length v)))%Q).
{ change 0%Q with (inject_Z 0). rewrite <- Zlt_Qlt. destruct v; [done|].
  simpl. lia. }
apply int_between.
- by apply Qle_shift_div_l.
- by apply Qle_shift_div_r.
Qed.

(** The lists gathered by the loop over the path. *)
Lemma gathered_sound path d v :
foldl append_pair ∅ path !! d = Some v →
v ≠ [] ∧ ∀ a, a ∈ v → (d, a) ∈ path.
Proof.
revert d v.
apply (NpFacts.foldl_invariant
         (fun m => ∀ d v, m !! d = Some v →
                          v ≠ [] ∧ ∀ a, a ∈ v → (d, a) ∈ path)).
- intros m [d' a'] Hin IH d v. unfold append_pair.
  destruct (decide (d = d')) as [->|Hd].
  + rewrite lookup_insert_eq. intros Hv. injection Hv as <-.
    split; [by destruct (default [] (m !! d'))|].
    intros a Ha. apply elem_of_app in Ha as [Ha|Ha].
    * destruct (m !! d') as [v'|] eqn:Hm; simpl in Ha.
      -- by apply (IH d' v').
      -- by apply elem_of_nil in Ha.
    * by apply list_elem_of_singleton in Ha as ->.
  + rewrite lookup_insert_ne by done. apply IH.
- intros d v Hv. by rewrite lookup_empty in Hv.
Qed.

Lemma gathered_complete path d a :
(d, a) ∈ path → is_Some (foldl append_pair ∅ path !! d).
Proof.
intros Hin.
apply (NpFacts.foldl_reaches (fun _ => True) (fun m => is_Some (m !! d)))
  with (x := (d, a)); try done.
- intros m [d' a'] Hm. unfold append_pair.
  destruct (decide (d = d')) as [->|Hd].
  + rewrite lookup_insert_eq. by eexists.
  + by rewrite lookup_insert_ne.
- intros m _. unfold append_pair. rewrite lookup_insert_eq. by eexists.
Qed.

Lemma alignment_map_lookup path d act :
alignment_map path !! d = Some act →
∃ v, v ≠ [] ∧ (∀ a, a ∈ v → (d, a) ∈ path) ∧ act = int_mean v.
Proof.
unfold alignment_map. rewrite lookup_fmap.
destruct (foldl append_pair ∅ path !! d) as [v|] eqn:Hv; simpl; [|done].
intros H. injection H as <-. exists v.
apply gathered_sound in Hv as [? ?]. done.
Qed.

Lemma list_max_exists (v : list Z) :
v ≠ [] → ∃ t, t ∈ v ∧ ∀ x, x ∈ v → x ≤ t.
Proof.
induction v as [|a v IH]; [done|]. intros _.
destruct v as [|b v].
- exists a. split; [by apply list_elem_of_singleton|].
  intros x Hx. apply list_elem_of_singleton in Hx. lia.
- destruct IH as (t & Ht & Hmax); [done|].
  exists (Z.max a t). split.
  + destruct (Z.max_spec a t) as [[_ ->]|[_ ->]].
    * apply elem_of_cons. by right.
    * apply elem_of_cons. by left.
  + intros x Hx. apply elem_of_cons in Hx as [->|Hx]; [lia|].
    specialize (Hmax x Hx). lia.
Qed.

Lemma list_min_exists (v : list Z) :
v ≠ [] → ∃ t, t ∈ v ∧ ∀ x, x ∈ v → t ≤ x.
Proof.
induction v as [|a v IH]; [done|]. intros _.
destruct v as [|b v].
- exists a. split; [by apply list_elem_of_singleton|].
  intros x Hx. apply list_elem_of_singleton in Hx. lia.
- destruct IH as (t & Ht & Hmin); [done|].
  exists (Z.min a t). split.
  + destruct (Z.min_spec a t) as [[_ ->]|[_ ->]].
    * apply elem_of_cons. by left.
    * apply elem_of_cons. by right.
  + intros x Hx. apply elem_of_cons in Hx as [->|Hx]; [lia|].
    specialize (Hmin x Hx). lia.
Qed.

(** The truncated mean of a non-empty list lies between two of its
  elements. *)
Lemma int_mean_within (v : list Z) :
v ≠ [] → ∃ lo hi, lo ∈ v ∧ hi ∈ v ∧ lo ≤ int_mean v ≤ hi.
Proof.
intros Hne.
destruct (list_min_exists v Hne) as (lo & Hlo & Hmin).
destruct (list_max_exists v Hne) as (hi & Hhi & Hmax).
exists lo, hi. repeat split; try done;
  apply (int_mean_between v lo hi Hne); intros a Ha;
  specialize (Hmin a Ha); specialize (Hmax a Ha); lia.
Qed.

End AlignmentFacts.

(** * The metric: claims *)

(** C8.  When the prediction equals the truth the tolerance adjustment
    changes nothing, and if moreover the three key point classes all occur
    (the arrays having the length of [well_ids]) the score is 1. *)
Theorem exact_match_noop_and_score_one (y well_ids : list Z) (tf tr : Z) :
  Metric.adjust y y well_ids tf tr = y
  ∧ (length well_ids = length y → 1 ∈ y → 2 ∈ y → 3 ∈ y →
     ∃ q, Metric.macro_f1_with_tolerance y y well_ids tf tr = Some q
          ∧ (q == 1)%Q).
Proof.
  split; [apply MetricFacts.adjust_exact|].
  intros Hlen H1 _ _. unfold Metric.macro_f1_with_tolerance.
  rewrite MetricFacts.shapes_ok_true by done.
  rewrite MetricFacts.adjust_exact.
  apply SkFacts.f1_score_macro_exact. intros ->. by apply elem_of_nil in H1.
Qed.

Lemma exact_match_noop_and_score_one_witness :
  Metric.adjust [0; 1; 0; 2; 0; 3] [0; 1; 0; 2; 0; 3] [7; 7; 7; 8; 8; 8] 1 2
    = [0; 1; 0; 2; 0; 3]
  ∧ ∃ q, Metric.macro_f1_with_tolerance
           [0; 1; 0; 2; 0; 3] [0; 1; 0; 2; 0; 3] [7; 7; 7; 8; 8; 8] 1 2 = Some q
         ∧ (q == 1)%Q.
Proof.
  destruct (exact_match_noop_and_score_one
              [0; 1; 0; 2; 0; 3] [7; 7; 7; 8; 8; 8] 1 2) as [Hnoop Hscore].
  split; [exact Hnoop|].
  apply Hscore; [reflexivity| | |]; rewrite !elem_of_cons; auto 10.
Defined.

(** C7 (amended).  On label vectors over [0..3] of the length of
    [well_ids], the returned value is the sum of the four per-class F1
    scores on the adjusted vectors divided by the number of classes that
    occur in the truth or in the adjusted prediction; a class that occurs in
    neither has F1 [0] and is not counted in the divisor. *)
Theorem macro_f1_averages_present_classes
    (y_true y_pred well_ids : list Z) (tf tr : Z) :
  length y_true = length well_ids →
  length y_pred = length well_ids →
  y_true ≠ [] →
  (∀ v, v ∈ y_true → 0 ≤ v ≤ 3) →
  (∀ v, v ∈ y_pred → 0 ≤ v ≤ 3) →
  let adj := Metric.adjust y_true y_pred well_ids tf tr in
  let present := filter (λ k, k ∈ y_true ++ adj) [0; 1; 2; 3] in
  (∃ q, Metric.macro_f1_with_tolerance y_true y_pred well_ids tf tr = Some q
        ∧ (q == (Sk.f1_class y_true adj 0 + Sk.f1_class y_true adj 1
                 + Sk.f1_class y_true adj 2 + Sk.f1_class y_true adj 3)
                / inject_Z (Z.of_nat (length present)))%Q)
  ∧ ∀ k, k ∉ y_true → k ∉ adj → Sk.f1_class y_true adj k = 0%Q.
Proof.
  intros Ht Hp Hne Hrt Hrp adj present.
  split; [|intros k; apply SkFacts.f1_class_absent].
  unfold Metric.macro_f1_with_tolerance.
  rewrite MetricFacts.shapes_ok_true by done. fold adj.
  unfold Sk.f1_score_macro.
  assert (length adj = length y_pred) as Hadj
    by apply MetricFacts.adjust_length.
  replace (length y_true =? length adj)%nat with true
    by (symmetry; apply Nat.eqb_eq; lia).
  destruct y_true as [|x yt]; [done|]. cbn [negb length Nat.eqb].
  eexists; split; [reflexivity|].
  assert (Sk.unique_labels (x :: yt) adj ≡ₚ present) as Hperm.
  { apply SkFacts.unique_labels_four. intros v Hv.
    apply elem_of_app in Hv as [Hv|Hv]; [by apply Hrt|].
    assert (Forall (λ v, 0 ≤ v ≤ 3) adj) as Hall.
    { apply MetricFacts.adjust_labels; try lia. by apply Forall_forall. }
    rewrite Forall_forall in Hall. by apply Hall. }
  unfold Np.mean. rewrite length_map.
  rewrite (Permutation_length Hperm).
  rewrite (SkFacts.Qsum_Permutation _ (map (Sk.f1_class (x :: yt) adj) present)).
  - unfold present. rewrite SkFacts.Qsum_present. reflexivity.
  - by apply Permutation_map.
Qed.

Lemma macro_f1_averages_present_classes_witness :
  ∃ q, Metric.macro_f1_with_tolerance
         [0; 1; 0; 0; 2; 0] [0; 0; 0; 1; 2; 0] [7; 7; 7; 7; 7; 7] 1 2 = Some q
       ∧ (q == 7 # 12)%Q.
Proof.
  destruct (macro_f1_averages_present_classes
              [0; 1; 0; 0; 2; 0] [0; 0; 0; 1; 2; 0] [7; 7; 7; 7; 7; 7] 1 2)
    as [(q & Hq & Heq) _]; try reflexivity; try discriminate.
  - intros v Hv. rewrite !elem_of_cons, elem_of_nil in Hv. lia.
  - intros v Hv. rewrite !elem_of_cons, elem_of_nil in Hv. lia.
  - exists q. split; [exact Hq|]. rewrite Heq. vm_compute. reflexivity.
Defined.

(** C7, as stated, fails: with only classes 0 and 1 in the data the returned
    macro F1 is 1, whereas the average over the four classes, the absent
    ones counting as 0, is 1/2. *)
Lemma macro_f1_not_four_class_average :
  ∃ q, Metric.macro_f1_with_tolerance [0; 1] [0; 1] [7; 7] 1 2 = Some q
       ∧ (q == 1)%Q
       ∧ ¬ Qeq q (Sk.macro_f1_four_classes
                    [0; 1] (Metric.adjust [0; 1] [0; 1] [7; 7] 1 2)).
Proof.
  eexists. split; [vm_compute; reflexivity|]. split; [reflexivity|].
  vm_compute. discriminate.
Qed.

(** C10.  Run on a store holding the three input arrays (of one common
    length, as the masking requires), the metric returns its score and
    leaves every array that was in the store as it was: its only effect is
    to append two arrays, the copy of [y_true], never written and so
    equal to the input when it is handed to the final F1 computation, and
    the copy of [y_pred] that carries all the forgiveness edits. *)
Theorem macro_f1_with_tolerance_frame
    (h : list (list Z)) (y_true y_pred well_ids : nat)
    (yt yp ids : list Z) (tf tr : Z) :
  h !! y_true = Some yt →
  h !! y_pred = Some yp →
  h !! well_ids = Some ids →
  length yt = length ids →
  length yp = length ids →
  yt ≠ [] →
  ∃ q h',
    Store.macro_f1_with_tolerance_st y_true y_pred well_ids tf tr h = Some (q, h')
    ∧ (∀ l, (l < length h)%nat → h' !! l = h !! l)
    ∧ h' !! y_true = Some yt
    ∧ h' !! y_pred = Some yp
    ∧ h' !! well_ids = Some ids
    ∧ h' = h ++ [yt; Metric.adjust yt yp ids tf tr]
    ∧ Sk.f1_score_macro yt (Metric.adjust yt yp ids tf tr) = Some q.
Proof.
  intros Hyt Hyp Hids Hlt Hlp Hne.
  assert (∃ q, Metric.macro_f1_with_tolerance yt yp ids tf tr = Some q)
    as [q Hq].
  { unfold Metric.macro_f1_with_tolerance, Sk.f1_score_macro.
    rewrite MetricFacts.shapes_ok_true by done.
    rewrite MetricFacts.adjust_length, Hlt, Hlp, Nat.eqb_refl.
    destruct ids; [by destruct yt|]. cbn. eauto. }
  exists q, (h ++ [yt; Metric.adjust yt yp ids tf tr]).
  split; [by eapply StoreFacts.macro_f1_with_tolerance_run|].
  split; [intros l Hl; by apply lookup_app_l|].
  repeat split; try (by apply lookup_app_l_Some).
  unfold Metric.macro_f1_with_tolerance in Hq.
  by rewrite MetricFacts.shapes_ok_true in Hq.
Qed.

Lemma macro_f1_with_tolerance_frame_witness :
  ∃ q h',
    Store.macro_f1_with_tolerance_st 0 1 2 1 2
      [[0; 1; 0; 0; 2; 0]; [1; 0; 0; 0; 0; 2]; [7; 7; 7; 7; 7; 7]]
      = Some (q, h')
    ∧ h' = [[0; 1; 0; 0; 2; 0]; [1; 0; 0; 0; 0; 2]; [7; 7; 7; 7; 7; 7];
            [0; 1; 0; 0; 2; 0]; [0; 1; 0; 0; 2; 0]].
Proof.
  destruct (macro_f1_with_tolerance_frame
              [[0; 1; 0; 0; 2; 0]; [1; 0; 0; 0; 0; 2]; [7; 7; 7; 7; 7; 7]]
              0 1 2 [0; 1; 0; 0; 2; 0] [1; 0; 0; 0; 0; 2] [7; 7; 7; 7; 7; 7]
              1 2)
    as (q & h' & Hrun & _ & _ & _ & _ & Hh' & _);
    try reflexivity; try discriminate.
  exists q, h'. split; [exact Hrun|exact Hh'].
Defined.

(** The forgiveness scenario of the specification: a class-1 prediction one
    sample off the truth is moved onto it, and the score is 1. *)
Example forgiveness_scenario :
  Metric.adjust (Wells.labels_at 50) (Wells.labels_at 51) Wells.one_well60 1 2
    = Wells.labels_at 50
  ∧ ∃ q, Metric.macro_f1_with_tolerance
           (Wells.labels_at 50) (Wells.labels_at 51) Wells.one_well60 1 2
         = Some q ∧ (q == 1)%Q.
Proof.
  split; [vm_compute; reflexivity|].
  eexists. split; [vm_compute; reflexivity|]. reflexivity.
Qed.

(** * The decoder: claims *)

(** C1, as stated, fails: two spikes 5 samples apart leave no spaced pair,
    and the fallback returns both positions. *)
Lemma fallback_breaks_spacing :
  ∃ a i1 i2,
    Decoder.dp_post_process Decoder.argsort_stable Np.std_lt_exact
      Wells.jx_flat30 Wells.proba_close ∅ = Some a
    ∧ (2 ≤ length a)%nat
    ∧ Decoder.position 1 a = Some i1
    ∧ Decoder.position 2 a = Some i2
    ∧ ¬ (i1 + 20 ≤ i2).
Proof.
  exists [(1, 5); (2, 10)], 5, 10. vm_compute.
  repeat split; try reflexivity; try lia. intros H; by apply H.
Qed.

(** C1 (amended).  Whenever the candidates searched (the first five of
    class 1 and of class 2) contain a pair spaced by at least 20, the
    decoder returns an assignment with position(1) + 20 <= position(2),
    and with position(2) + 20 <= position(3) if class 3 is present. *)
Theorem searched_assignment_is_spaced
    (argsort : list Q → list Z) (std_lt : list Q → Q → bool) (jx : list Q)
    (model_proba : list Decoder.proba_row) (prior_info : gmap Z Z)
    (c1 c2 : Decoder.candidate) :
  jx ≠ [] →
  c1 ∈ take 5 (Decoder.candidates argsort std_lt jx model_proba prior_info 1) →
  c2 ∈ take 5 (Decoder.candidates argsort std_lt jx model_proba prior_info 2) →
  c1.1 + 20 ≤ c2.1 →
  ∃ a i1 i2,
    Decoder.dp_post_process argsort std_lt jx model_proba prior_info = Some a
    ∧ Decoder.position 1 a = Some i1
    ∧ Decoder.position 2 a = Some i2
    ∧ i1 + 20 ≤ i2
    ∧ ∀ i3, Decoder.position 3 a = Some i3 → i2 + 20 ≤ i3.
Proof.
  intros Hjx Hc1 Hc2 H12.
  assert (-1 < c1.2 + c2.2)%Q as Hpos.
  { apply subseteq_take in Hc1, Hc2.
    apply SearchFacts.candidates_score_floor in Hc1, Hc2. lra. }
  destruct (SearchFacts.search_complete _ _
              (Decoder.candidates argsort std_lt jx model_proba prior_info 3)
              _ _ Hc1 Hc2 H12 Hpos) as [a Ha].
  pose proof (SearchFacts.search_sound _ _ _ a Ha) as Hsp.
  destruct (SearchFacts.spaced_positions a Hsp) as (i1 & i2 & ?).
  exists a, i1, i2. split; [|done].
  unfold Decoder.dp_post_process. destruct jx; [done|]. by rewrite Ha.
Qed.

Lemma searched_assignment_is_spaced_witness :
  ∃ a i1 i2,
    Decoder.dp_post_process Decoder.argsort_stable Np.std_lt_exact
      Wells.jx_flat60 Wells.proba_spaced ∅ = Some a
    ∧ Decoder.position 1 a = Some i1
    ∧ Decoder.position 2 a = Some i2
    ∧ i1 + 20 ≤ i2
    ∧ ∀ i3, Decoder.position 3 a = Some i3 → i2 + 20 ≤ i3.
Proof.
  apply (searched_assignment_is_spaced Decoder.argsort_stable Np.std_lt_exact
           Wells.jx_flat60 Wells.proba_spaced ∅
           (5, ((9 # 10) + 0 + 0)%Q) (40, ((9 # 10) + (3 # 10) + 0)%Q)).
  - discriminate.
  - vm_compute. apply elem_of_cons; left. reflexivity.
  - vm_compute. apply elem_of_cons; left. reflexivity.
  - simpl. lia.
Defined.

(** C2.  On a non-empty well, if no pair of searched candidates of classes
    1 and 2 is spaced by at least 20 (in particular if one of the two
    classes has no candidate), the decoder returns, for each class, the
    position of its highest-scoring candidate when it has one and nothing
    when it has none; the result is non-empty as soon as one class has a
    candidate. *)
Theorem fallback_returns_best_per_class
    (argsort : list Q → list Z) (std_lt : list Q → Q → bool) (jx : list Q)
    (model_proba : list Decoder.proba_row) (prior_info : gmap Z Z) :
  let cands := Decoder.candidates argsort std_lt jx model_proba prior_info in
  jx ≠ [] →
  (∀ c1 c2, c1 ∈ take 5 (cands 1) → c2 ∈ take 5 (cands 2) →
            c2.1 < c1.1 + 20) →
  ∃ a,
    Decoder.dp_post_process argsort std_lt jx model_proba prior_info = Some a
    ∧ (∀ kp, kp ∈ [1; 2; 3] →
         match cands kp with
         | [] => Decoder.position kp a = None
         | c :: _ =>
             Decoder.position kp a = Some c.1
             ∧ ∀ c', c' ∈ cands kp → (c'.2 <= c.2)%Q
         end)
    ∧ (∀ kp, kp ∈ [1; 2; 3] → cands kp ≠ [] → a ≠ []).
Proof.
  intros cands Hjx Hno. exists (Decoder.fallback cands).
  split; [|split].
  - unfold Decoder.dp_post_process. destruct jx; [done|]. fold cands.
    by rewrite (SearchFacts.search_none _ _ _ Hno).
  - intros kp Hkp. rewrite (SearchFacts.fallback_position _ _ Hkp).
    destruct (cands kp) as [|c l] eqn:E; [done|]. split; [done|].
    intros c' Hc'. apply (DecoderFacts.sorted_head_max c l); [|done].
    rewrite <- E. apply DecoderFacts.sort_desc_sorted.
  - intros kp. apply SearchFacts.fallback_nonempty.
Qed.

Lemma fallback_returns_best_per_class_witness :
  ∃ a,
    Decoder.dp_post_process Decoder.argsort_stable Np.std_lt_exact
      Wells.jx_flat30 Wells.proba_close ∅ = Some a
    ∧ Decoder.position 1 a = Some 5
    ∧ Decoder.position 2 a = Some 10
    ∧ Decoder.position 3 a = None
    ∧ a ≠ [].
Proof.
  destruct (fallback_returns_best_per_class Decoder.argsort_stable Np.std_lt_exact
              Wells.jx_flat30 Wells.proba_close ∅)
    as (a & Ha & Hpos & Hne).
  - discriminate.
  - intros c1 c2 H1 H2. vm_compute in H1, H2.
    apply list_elem_of_singleton in H1, H2. subst. simpl. lia.
  - exists a. split; [exact Ha|].
    pose proof (Hpos 1 ltac:(repeat constructor)) as P1.
    pose proof (Hpos 2 ltac:(repeat constructor)) as P2.
    pose proof (Hpos 3 ltac:(repeat constructor)) as P3.
    vm_compute in P1, P2, P3.
    split; [exact (proj1 P1)|]. split; [exact (proj1 P2)|].
    split; [exact P3|].
    apply (Hne 1); [repeat constructor|]. vm_compute. discriminate.
Defined.

(** C3, as stated, fails: a class-1 candidate at position 0 has its whole
    forward window inside the well and receives the trend bonus. *)
Lemma first_position_gets_trend_bonus :
  Decoder.phys_score Np.std_lt_exact 12 Wells.jx_step12
    (Np.diff_prepend Wells.jx_step12) 1 0 = (3 # 10)%Q
  ∧ ∃ s, Decoder.candidates Decoder.argsort_stable Np.std_lt_exact
           Wells.jx_step12 Wells.proba_first ∅ 1 = [(0, s)]
         ∧ (s == (9 # 10) + (3 # 10))%Q.
Proof.
  split; [vm_compute; reflexivity|].
  eexists. split; [vm_compute; reflexivity|]. reflexivity.
Qed.

(** C3 (amended).  For every class, a candidate at the last position
    [n - 1] receives no trend bonus, and neither does a class-2 candidate
    at position 0; a position 0 or [n - 1] that is among the top-K positions
    with probability above 0.1 enters the candidate list with its raw
    probability plus its bonuses. *)
Theorem boundary_candidates
    (argsort : list Q → list Z) (std_lt : list Q → Q → bool) (jx : list Q)
    (model_proba : list Decoder.proba_row) (prior_info : gmap Z Z) (kp : Z) :
  let n := Z.of_nat (length jx) in
  let jx_diff := Np.diff_prepend jx in
  let kp_proba := Decoder.column kp model_proba in
  Decoder.phys_score std_lt n jx jx_diff kp (n - 1) = 0%Q
  ∧ Decoder.phys_score std_lt n jx jx_diff 2 0 = 0%Q
  ∧ ∀ idx, idx = 0 ∨ idx = n - 1 →
      idx ∈ Decoder.top_k_indices argsort kp_proba →
      (1 # 10 < Decoder.at_ kp_proba idx)%Q →
      (idx, (Decoder.at_ kp_proba idx
             + Decoder.phys_score std_lt n jx jx_diff kp idx
             + Decoder.prior_score prior_info kp idx)%Q)
        ∈ Decoder.candidates argsort std_lt jx model_proba prior_info kp.
Proof.
  intros n jx_diff kp_proba. split; [|split].
  - unfold Decoder.phys_score.
    destruct (Z.ltb_spec (n - 1) (n - 10)); [lia|].
    rewrite andb_false_r. by repeat case_match.
  - done.
  - intros idx _ Htop Hp.
    apply SearchFacts.candidates_elem, SearchFacts.scored_elem. done.
Qed.

Lemma boundary_candidates_witness :
  Decoder.phys_score Np.std_lt_exact 20 Wells.jx_flat20
    (Np.diff_prepend Wells.jx_flat20) 2 19 = 0%Q
  ∧ ∃ s, (19, s) ∈ Decoder.candidates Decoder.argsort_stable Np.std_lt_exact
                     Wells.jx_flat20 Wells.proba_last20 ∅ 2
         ∧ (s == 9 # 10)%Q.
Proof.
  destruct (boundary_candidates Decoder.argsort_stable Np.std_lt_exact
              Wells.jx_flat20 Wells.proba_last20 ∅ 2)
    as (Hlast & _ & Hin).
  split; [exact Hlast|].
  eexists. split.
  - apply (Hin 19); [right; reflexivity| |reflexivity].
    vm_compute. repeat constructor.
  - vm_compute. reflexivity.
Defined.




(** C5, as stated, fails: position 50 (probability 0.5 plus the trend
    bonus 0.3) and position 5 (probability 0.8) have the same total score,
    and the larger position comes first. *)
Lemma equal_scores_larger_position_first :
  ∃ c c' rest,
    Decoder.candidates Decoder.argsort_stable Np.std_lt_exact
      Wells.jx_step70 Wells.proba_tie ∅ 1 = c :: c' :: rest
    ∧ (c.2 == c'.2)%Q
    ∧ c'.1 < c.1.
Proof.
  do 3 eexists. split; [vm_compute; reflexivity|].
  split; [vm_compute; reflexivity|]. simpl. lia.
Qed.

(** C5 (amended).  For every class the candidate list, and so its first
    five entries handed to the search, is in descending order of total
    score; candidates of equal total score keep the order in which they
    were generated. *)
Theorem candidates_sorted_descending_stable
    (argsort : list Q → list Z) (std_lt : list Q → Q → bool) (jx : list Q)
    (model_proba : list Decoder.proba_row) (prior_info : gmap Z Z) (kp : Z) :
  let cands := Decoder.candidates argsort std_lt jx model_proba prior_info kp in
  (∀ i j c c', (i < j)%nat → cands !! i = Some c → cands !! j = Some c' →
               (c'.2 <= c.2)%Q)
  ∧ (∀ i j c c', (i < j)%nat →
       take 5 cands !! i = Some c → take 5 cands !! j = Some c' →
       (c'.2 <= c.2)%Q)
  ∧ ∀ q, filter (λ c : Decoder.candidate, c.2 == q)%Q cands
         = filter (λ c : Decoder.candidate, c.2 == q)%Q
             (Decoder.scored argsort std_lt jx model_proba prior_info kp).
Proof.
  intros cands.
  assert (StronglySorted Decoder.desc cands) as Hs
    by apply DecoderFacts.sort_desc_sorted.
  split; [|split].
  - intros i j c c' Hij Hi Hj.
    by apply (DecoderFacts.sorted_lookup cands i j).
  - intros i j c c' Hij Hi Hj.
    apply (DecoderFacts.sorted_lookup (take 5 cands) i j); try done.
    by apply DecoderFacts.sorted_take.
  - intros q. apply DecoderFacts.sort_desc_stable.
Qed.

Lemma candidates_sorted_descending_stable_witness :
  ∃ c c',
    Decoder.candidates Decoder.argsort_stable Np.std_lt_exact
      Wells.jx_step70 Wells.proba_tie ∅ 1 !! 0%nat = Some c
    ∧ Decoder.candidates Decoder.argsort_stable Np.std_lt_exact
        Wells.jx_step70 Wells.proba_tie ∅ 1 !! 1%nat = Some c'
    ∧ (c'.2 <= c.2)%Q.
Proof.
  do 2 eexists. split; [vm_compute; reflexivity|].
  split; [vm_compute; reflexivity|].
  apply (proj1 (candidates_sorted_descending_stable
                  Decoder.argsort_stable Np.std_lt_exact
                  Wells.jx_step70 Wells.proba_tie ∅ 1) 0%nat 1%nat);
    [lia|vm_compute; reflexivity..].
Defined.

(** The end-to-end scenario of the specification. *)
Example end_to_end_scenario :
  Decoder.dp_post_process Decoder.argsort_stable Np.std_lt_exact
    Wells.jx_profile200 Wells.proba_spikes200 ∅
  = Some [(1, 45); (2, 100); (3, 160)].
Proof. vm_compute. reflexivity. Qed.

(** * The batch driver: claims *)

(** C6, as stated, fails: a distance column whose minimum is 950, below
    999, yields no hint, the code's threshold being 900. *)
Lemma no_hint_between_900_and_999 :
  let dists := map (Batch.dist_to_prior 1) Wells.group_far in
  1 ∈ [1; 2; 3]
  ∧ (Np.min dists < 999)%Q
  ∧ Batch.prior_keypoints [1; 2; 3] Wells.group_far !! 1 = None.
Proof.
  split; [repeat constructor|]. split; vm_compute; reflexivity.
Qed.

(** C6 (amended).  For a class [kp] of a non-empty well a prior hint is
    derived exactly when the column of distances to the prior of [kp] is
    present and its minimum is below 900; the hint is the first position
    at which the distance is minimal; without a hint the prior bonus of the
    class is 0. *)
Theorem prior_hint_condition
    (columns : list Z) (group : list Batch.sample) (kp i : Z) :
  kp ∈ [1; 2; 3] →
  group ≠ [] →
  let dists := map (Batch.dist_to_prior kp) group in
  let prior_keypoints := Batch.prior_keypoints columns group in
  (prior_keypoints !! kp = Some i
   ↔ kp ∈ columns ∧ (Np.min dists < 900)%Q
     ∧ i = Z.of_nat (Np.argmin dists))
  ∧ dists !! Np.argmin dists = Some (Np.min dists)
  ∧ (∀ d, d ∈ dists → (Np.min dists <= d)%Q)
  ∧ (∀ j d, (j < Np.argmin dists)%nat → dists !! j = Some d →
            (Np.min dists < d)%Q)
  ∧ (prior_keypoints !! kp = None →
     ∀ idx, Decoder.prior_score prior_keypoints kp idx = 0%Q).
Proof.
  intros Hkp Hne dists pk. split; [|split; [|split; [|split]]].
  - unfold pk. rewrite PriorFacts.prior_keypoints_lookup.
    rewrite (bool_decide_eq_true_2 _ Hkp). cbn [andb]. fold dists.
    case_bool_decide as Hc; cbn [andb].
    + destruct (Np.Qltb (Np.min dists) 900) eqn:E.
      * apply DecoderFacts.Qltb_lt in E. naive_solver.
      * split; [done|]. intros (_ & Hlt & _).
        apply DecoderFacts.Qltb_lt in Hlt. congruence.
    + naive_solver.
  - apply PriorFacts.argmin_min. unfold dists. by destruct group.
  - apply PriorFacts.min_le.
  - apply PriorFacts.argmin_first.
  - intros Hnone idx. unfold Decoder.prior_score. by rewrite Hnone.
Qed.

Lemma prior_hint_condition_witness :
  Batch.prior_keypoints [1; 2; 3] Wells.group_prior !! 1 = Some 1.
Proof.
  apply (prior_hint_condition [1; 2; 3] Wells.group_prior 1 1).
  - repeat constructor.
  - discriminate.
  - split; [repeat constructor|]. split; vm_compute; reflexivity.
Defined.

(** C9.  When the probability sources fuse, the driver handles the
    distinct well identifiers, each once, and returns a label vector of the
    length of the input.  The entry of every sample is the label that the
    assignment decoded for the sample's own well writes at the sample's
    position within the well: the class of the last entry of the
    assignment at that position, and 0 when the assignment has no entry
    there.  So a non-zero label at a global index [g] is a key point of the
    assignment decoded for the well of [g], written at the global index of
    its position, and every entry of the assignment within the well is
    written. *)
Theorem batch_labels_own_well
    (argsort : list Q → list Z) (std_lt : list Q → Q → bool)
    (test_features : Batch.frame)
    (tree_preds dl_preds : list (string * list Decoder.proba_row))
    (weights : gmap string Q) (final_proba : list Decoder.proba_row) :
  Batch.fuse (length (Batch.rows test_features)) tree_preds dl_preds weights
    = Some final_proba →
  let ids := map Batch.well_id (Batch.rows test_features) in
  NoDup (Np.pd_unique ids)
  ∧ (∀ w, w ∈ Np.pd_unique ids ↔ w ∈ ids)
  ∧ ∃ final_predictions,
      Batch.advanced_post_process argsort std_lt test_features tree_preds
        dl_preds weights = Some final_predictions
      ∧ length final_predictions = length (Batch.rows test_features)
      ∧ (∀ g w, ids !! g = Some w →
           ∃ best_combo j,
             Batch.decode_well argsort std_lt test_features final_proba w
             = Some best_combo
             ∧ Batch.group_indices test_features w !! j = Some g
             ∧ final_predictions !! g
               = Some (Batch.written_label best_combo (Z.of_nat j)))
      ∧ ∀ g kp, final_predictions !! g = Some kp → kp ≠ 0 →
          ∃ w best_combo idx,
            ids !! g = Some w
            ∧ Batch.decode_well argsort std_lt test_features final_proba w
              = Some best_combo
            ∧ (kp, idx) ∈ best_combo
            ∧ Batch.group_indices test_features w !! Z.to_nat idx = Some g.
Proof.
  intros Hf ids. split; [apply BatchFacts.pd_unique_NoDup|].
  split; [apply BatchFacts.pd_unique_elem|].
  destruct (BatchFacts.advanced_post_process_handled argsort std_lt
              _ _ _ _ _ Hf) as (preds & Hp & Hlen & Hh).
  destruct (BatchFacts.advanced_post_process_labelled argsort std_lt
              _ _ _ _ _ Hf) as (preds' & Hp' & _ & Hj).
  rewrite Hp in Hp'. injection Hp' as <-.
  exists preds. split; [done|]. split; [done|]. split; [|done].
  intros g w Hg. apply (Hh g w Hg).
  apply elem_of_reverse, BatchFacts.pd_unique_elem.
  by eapply list_elem_of_lookup_2.
Qed.

Lemma batch_labels_own_well_witness :
  ∃ final_predictions,
    Batch.advanced_post_process Decoder.argsort_stable Np.std_lt_exact
      Wells.two_wells Wells.tree_preds_lgb [] Wells.weights_lgb
    = Some final_predictions
    ∧ length final_predictions = 60%nat
    ∧ final_predictions !! 33%nat = Some 1
    ∧ final_predictions !! 34%nat = Some 0.
Proof.
  destruct (batch_labels_own_well Decoder.argsort_stable Np.std_lt_exact
              Wells.two_wells Wells.tree_preds_lgb [] Wells.weights_lgb
              (default [] (Batch.fuse 60 Wells.tree_preds_lgb []
                             Wells.weights_lgb)))
    as (_ & _ & preds & Hp & Hlen & Hw & _).
  - vm_compute. reflexivity.
  - exists preds. split; [exact Hp|]. split; [exact Hlen|].
    split.
    + destruct (Hw 33%nat 200) as (a & j & Ha & Hgi & ->); [reflexivity|].
      rewrite (BatchFacts.group_indices_inj _ _ j 3%nat _ Hgi)
        by reflexivity.
      vm_compute in Ha. injection Ha as <-. reflexivity.
    + destruct (Hw 34%nat 200) as (a & j & Ha & Hgi & ->); [reflexivity|].
      rewrite (BatchFacts.group_indices_inj _ _ j 4%nat _ Hgi)
        by reflexivity.
      vm_compute in Ha. injection Ha as <-. reflexivity.
Defined.

Example batch_two_wells_labels :
  Batch.advanced_post_process Decoder.argsort_stable Np.std_lt_exact Wells.two_wells
    Wells.tree_preds_lgb [] Wells.weights_lgb
  = Some (<[5%nat := 1]> (<[28%nat := 2]> (<[33%nat := 1]>
            (<[57%nat := 2]> (replicate 60 0))))).
Proof. vm_compute. reflexivity. Qed.

(** * Further properties of the metric *)

(** X1.  Whenever the metric returns a score, the score lies between 0
    and 1. *)
Theorem macro_f1_with_tolerance_range
    (y_true y_pred well_ids : list Z) (tf tr : Z) (q : Q) :
  Metric.macro_f1_with_tolerance y_true y_pred well_ids tf tr = Some q →
  (0 <= q <= 1)%Q.
Proof.
  unfold Metric.macro_f1_with_tolerance. case_match; [|done].
  apply MetricMore.f1_score_macro_range.
Qed.

Lemma macro_f1_with_tolerance_range_witness :
  ∃ q, Metric.macro_f1_with_tolerance
         [0; 1; 0; 0; 2; 0] [0; 0; 0; 1; 2; 0] [7; 7; 7; 7; 7; 7] 1 2 = Some q
       ∧ (0 <= q <= 1)%Q.
Proof.
  eexists. split; [vm_compute; reflexivity|].
  apply (macro_f1_with_tolerance_range
           [0; 1; 0; 0; 2; 0] [0; 0; 0; 1; 2; 0] [7; 7; 7; 7; 7; 7] 1 2).
  vm_compute. reflexivity.
Defined.

(** X2.  If, in one well, class [kp] first occurs at [t] in the truth and
    at [p] in the prediction, and [|t - p|] is within the tolerance of the
    class, then the adjusted prediction carries [kp] at [t], unless another
    class is predicted at [t]; and it carries 0 at [p] when [p] differs
    from [t] and is no true key point. *)
Theorem forgiveness_relocates
    (y_true y_pred well_ids : list Z) (tf tr w kp : Z) (t p : nat) :
  length y_true = length well_ids →
  length y_pred = length well_ids →
  Props.is_keypoint kp →
  Props.first_in_well well_ids y_true w kp t →
  Props.first_in_well well_ids y_pred w kp p →
  Z.abs (Z.of_nat t - Z.of_nat p) ≤ (if kp =? 1 then tf else tr) →
  let adjusted := Metric.adjust y_true y_pred well_ids tf tr in
  ((∀ kp', Props.is_keypoint kp' → kp' ≠ kp → y_pred !! t ≠ Some kp') →
   adjusted !! t = Some kp)
  ∧ (p ≠ t → (∀ kp', Props.is_keypoint kp' → y_true !! p ≠ Some kp') →
     adjusted !! p = Some 0).
Proof.
  intros Hlt Hlp Hkp Ht Hp Htol adjusted.
  pose proof (MetricMore.keypoints_first _ _ _ _ _ Hlt Hkp Ht) as Htk.
  pose proof (MetricMore.keypoints_first _ _ _ _ _ Hlp Hkp Hp) as Hpk.
  destruct Ht as (Hwt & Hyt & _). destruct Hp as (Hwp & Hyp & _).
  assert (w ∈ Np.unique well_ids) as Hw.
  { apply NpFacts.unique_elem. by eapply list_elem_of_lookup_2. }
  assert (t < length well_ids)%nat as Htlen by (by eapply lookup_lt_Some).
  assert (p < length well_ids)%nat as Hplen by (by eapply lookup_lt_Some).
  split.
  - intros Hfree. unfold adjusted, Metric.adjust.
    apply (NpFacts.foldl_reaches
             (λ adj, length adj = length well_ids)
             (λ adj, length adj = length well_ids ∧ adj !! t = Some kp)
             _ _ _ w Hw); try done.
    + intros adj x Hl. by rewrite MetricFacts.adjust_well_length.
    + intros adj x [Hl Hv]. split; [by rewrite MetricFacts.adjust_well_length|].
      destruct (decide (x = w)) as [->|Hne].
      * apply (MetricMore.adjust_well_only_class _ _ _ _ _ _ _ _ kp);
          try done.
        -- intros kp' _ Hne. congruence.
        -- intros adj' Hl'. eapply MetricMore.forgive_true_pos; try done. lia.
      * by rewrite (MetricMore.adjust_well_other_well _ _ _ _ _ _ x w).
    + intros adj Hl. split; [by rewrite MetricFacts.adjust_well_length|].
      apply (MetricMore.adjust_well_only_class _ _ _ _ _ _ _ _ kp); try done.
      * intros kp' _ Hne. congruence.
      * intros adj' Hl'. eapply MetricMore.forgive_true_pos; try done. lia.
  - intros Hne Hfree. unfold adjusted, Metric.adjust.
    apply (NpFacts.foldl_reaches
             (λ adj, length adj = length well_ids)
             (λ adj, length adj = length well_ids ∧ adj !! p = Some 0)
             _ _ _ w Hw); try done.
    + intros adj x Hl. by rewrite MetricFacts.adjust_well_length.
    + intros adj x [Hl Hv]. split; [by rewrite MetricFacts.adjust_well_length|].
      destruct (decide (x = w)) as [->|Hne'].
      * apply (MetricMore.adjust_well_only_class _ _ _ _ _ _ _ _ kp);
          try done.
        -- intros kp' Hkp' _. by apply Hfree.
        -- intros kp' _ Hne''. congruence.
        -- intros adj' Hl'. eapply MetricMore.forgive_pred_pos; try done. lia.
      * by rewrite (MetricMore.adjust_well_other_well _ _ _ _ _ _ x w).
    + intros adj Hl. split; [by rewrite MetricFacts.adjust_well_length|].
      apply (MetricMore.adjust_well_only_class _ _ _ _ _ _ _ _ kp); try done.
      * intros kp' Hkp' _. by apply Hfree.
      * intros kp' _ Hne''. congruence.
      * intros adj' Hl'. eapply MetricMore.forgive_pred_pos; try done. lia.
Qed.

Lemma forgiveness_relocates_witness :
  Metric.adjust [0; 1; 0; 0] [0; 0; 1; 0] [7; 7; 7; 7] 1 2 !! 1%nat = Some 1
  ∧ Metric.adjust [0; 1; 0; 0] [0; 0; 1; 0] [7; 7; 7; 7] 1 2 !! 2%nat = Some 0.
Proof.
  destruct (forgiveness_relocates
              [0; 1; 0; 0] [0; 0; 1; 0] [7; 7; 7; 7] 1 2 7 1 1%nat 2%nat)
    as [Ht Hp]; try reflexivity.
  - left. reflexivity.
  - repeat split; try reflexivity.
    intros t' Ht' _. destruct t' as [|t']; [discriminate|lia].
  - repeat split; try reflexivity.
    intros t' Ht' _. do 2 (destruct t' as [|t']; [discriminate|]). lia.
  - split.
    + apply Ht. intros kp' [-> | [-> | ->]] _; discriminate.
    + apply Hp; [lia|]. intros kp' [-> | [-> | ->]]; discriminate.
Defined.

(** X3.  The adjustment keeps the length of the prediction and changes
    nothing at a position where neither the truth nor the prediction
    carries a key point label. *)
Theorem adjust_leaves_background
    (y_true y_pred well_ids : list Z) (tf tr : Z) (g : nat) :
  (∀ kp, Props.is_keypoint kp → y_true !! g ≠ Some kp) →
  (∀ kp, Props.is_keypoint kp → y_pred !! g ≠ Some kp) →
  length (Metric.adjust y_true y_pred well_ids tf tr) = length y_pred
  ∧ Metric.adjust y_true y_pred well_ids tf tr !! g = y_pred !! g.
Proof.
  intros Ht Hp. split; [apply MetricFacts.adjust_length|].
  unfold Metric.adjust.
  apply (NpFacts.foldl_invariant (λ adj, adj !! g = y_pred !! g)); [|done].
  intros adj w _ Hadj. rewrite <- Hadj.
  apply MetricMore.adjust_well_untouched; intros kp Hkp _; auto.
Qed.

Lemma adjust_leaves_background_witness :
  Metric.adjust [0; 1; 0; 0] [0; 0; 1; 0] [7; 7; 7; 7] 1 2 !! 3%nat = Some 0.
Proof.
  apply (adjust_leaves_background
           [0; 1; 0; 0] [0; 0; 1; 0] [7; 7; 7; 7] 1 2 3).
  - intros kp [-> | [-> | ->]]; discriminate.
  - intros kp [-> | [-> | ->]]; discriminate.
Defined.

(** X4.  If, in one well, class [kp] first occurs at [t] in the truth and
    at [p] in the prediction, and [|t - p|] exceeds the tolerance of the
    class, the prediction is not moved: the adjusted prediction is the
    original one at [p] and at [t], as long as no other class is located at
    these positions. *)
Theorem out_of_tolerance_stays
    (y_true y_pred well_ids : list Z) (tf tr w kp : Z) (t p g : nat) :
  length y_true = length well_ids →
  length y_pred = length well_ids →
  Props.is_keypoint kp →
  Props.first_in_well well_ids y_true w kp t →
  Props.first_in_well well_ids y_pred w kp p →
  (if kp =? 1 then tf else tr) < Z.abs (Z.of_nat t - Z.of_nat p) →
  g = t ∨ g = p →
  (∀ kp', Props.is_keypoint kp' → kp' ≠ kp → y_true !! g ≠ Some kp') →
  (∀ kp', Props.is_keypoint kp' → kp' ≠ kp → y_pred !! g ≠ Some kp') →
  Metric.adjust y_true y_pred well_ids tf tr !! g = y_pred !! g.
Proof.
  intros Hlt Hlp Hkp Ht Hp Htol Hg Hft Hfp.
  pose proof (MetricMore.keypoints_first _ _ _ _ _ Hlt Hkp Ht) as Htk.
  pose proof (MetricMore.keypoints_first _ _ _ _ _ Hlp Hkp Hp) as Hpk.
  assert (well_ids !! g = Some w) as Hw.
  { destruct Ht as (? & _), Hp as (? & _). by destruct Hg as [-> | ->]. }
  unfold Metric.adjust.
  apply (NpFacts.foldl_invariant (λ adj, adj !! g = y_pred !! g)); [|done].
  intros adj x _ Hadj. rewrite <- Hadj.
  destruct (decide (x = w)) as [->|Hne].
  - by apply (MetricMore.adjust_well_rejected _ _ _ _ _ _ _ _ kp t p).
  - by apply (MetricMore.adjust_well_other_well _ _ _ _ _ _ x w).
Qed.

Lemma out_of_tolerance_stays_witness :
  Metric.adjust [0; 1; 0; 0] [0; 0; 0; 1] [7; 7; 7; 7] 1 2 !! 3%nat = Some 1.
Proof.
  apply (out_of_tolerance_stays
           [0; 1; 0; 0] [0; 0; 0; 1] [7; 7; 7; 7] 1 2 7 1 1%nat 3%nat 3%nat);
    try reflexivity.
  - left. reflexivity.
  - repeat split; try reflexivity.
    intros t' Ht' _. destruct t' as [|t']; [discriminate|lia].
  - repeat split; try reflexivity.
    intros t' Ht' _. do 3 (destruct t' as [|t']; [discriminate|]). lia.
  - right. reflexivity.
  - intros kp' [-> | [-> | ->]] _; discriminate.
  - intros kp' [-> | [-> | ->]] Hne; (discriminate || done).
Defined.

(** * Further properties of the decoder *)

(** X5.  On a non-empty well, if some enumerated combination is admissible,
    the decoder returns the assignment of an enumerated admissible
    combination whose score is at least that of every other one. *)
Theorem decoder_returns_best_combination
    (argsort : list Q → list Z) (std_lt : list Q → Q → bool) (jx : list Q)
    (model_proba : list Decoder.proba_row) (prior_info : gmap Z Z)
    (c' : Combos.combo) :
  let cands := Decoder.candidates argsort std_lt jx model_proba prior_info in
  jx ≠ [] →
  Combos.searched (cands 1) (cands 2) (cands 3) c' →
  Combos.admissible c' →
  ∃ c,
    Decoder.dp_post_process argsort std_lt jx model_proba prior_info
      = Some (Combos.combo_assignment c)
    ∧ Combos.searched (cands 1) (cands 2) (cands 3) c
    ∧ Combos.admissible c
    ∧ ∀ c'', Combos.searched (cands 1) (cands 2) (cands 3) c'' →
             Combos.admissible c'' →
             (Combos.combo_score c'' <= Combos.combo_score c)%Q.
Proof.
  intros cands Hjx Hs Ha.
  assert (is_Some (Decoder.search (cands 1) (cands 2) (cands 3)).1)
    as [a Hsome].
  { destruct Hs as (H1 & H2 & _), Ha as [H12 _].
    apply (SearchFacts.search_complete _ _ _ c'.1.1 c'.1.2); try done.
    pose proof (subseteq_take 5 (cands 1) _ H1) as F1.
    pose proof (subseteq_take 5 (cands 2) _ H2) as F2.
    apply SearchFacts.candidates_score_floor in F1, F2. lra. }
  destruct (SearchMore.search_achieved (cands 1) (cands 2) (cands 3) a Hsome)
    as (c & Hcs & Hca & -> & Hscore).
  exists c. repeat split; try done.
  - unfold Decoder.dp_post_process. destruct jx; [done|]. fold cands.
    by rewrite Hsome.
  - apply Hcs.
  - apply Hcs.
  - apply Hcs.
  - apply Hca.
  - apply Hca.
  - intros c'' Hs'' Ha''. rewrite <- Hscore.
    by apply SearchMore.search_upper_bound.
Qed.

Lemma decoder_returns_best_combination_witness :
  ∃ c,
    Decoder.dp_post_process Decoder.argsort_stable Np.std_lt_exact
      Wells.jx_flat60 Wells.proba_spaced ∅ = Some (Combos.combo_assignment c)
    ∧ Combos.admissible c.
Proof.
  destruct (decoder_returns_best_combination Decoder.argsort_stable Np.std_lt_exact
              Wells.jx_flat60 Wells.proba_spaced ∅
              ((5, ((9 # 10) + 0 + 0)%Q), (40, ((9 # 10) + (3 # 10) + 0)%Q),
               None))
    as (c & Hc & _ & Ha & _).
  - discriminate.
  - split; [|split]; [| |discriminate];
      vm_compute; apply elem_of_cons; left; reflexivity.
  - split; [simpl; lia|discriminate].
  - exists c. split; [exact Hc|exact Ha].
Defined.

(** X6.  When the returned assignment holds classes 1 and 2, their
    positions are at least 20 apart exactly when the candidates searched
    contain a pair that is: an assignment produced by the fallback never
    satisfies the spacing of classes 1 and 2. *)
Theorem spacing_iff_searched_pair
    (argsort : list Q → list Z) (std_lt : list Q → Q → bool) (jx : list Q)
    (model_proba : list Decoder.proba_row) (prior_info : gmap Z Z)
    (a : Decoder.assignment) (i1 i2 : Z) :
  let cands := Decoder.candidates argsort std_lt jx model_proba prior_info in
  Decoder.dp_post_process argsort std_lt jx model_proba prior_info = Some a →
  Decoder.position 1 a = Some i1 →
  Decoder.position 2 a = Some i2 →
  (i1 + 20 ≤ i2
   ↔ ∃ c1 c2, c1 ∈ take 5 (cands 1) ∧ c2 ∈ take 5 (cands 2)
              ∧ c1.1 + 20 ≤ c2.1).
Proof.
  intros cands Hdp H1 H2. unfold Decoder.dp_post_process in Hdp.
  destruct jx as [|x jx']; [done|]. fold cands in Hdp.
  destruct (Decoder.search (cands 1) (cands 2) (cands 3)).1 as [b|] eqn:Hs.
  - injection Hdp as ->.
    destruct (SearchMore.search_achieved _ _ _ a Hs)
      as ([[c1 c2] o] & (Hc1 & Hc2 & _) & [H12 _] & -> & _).
    destruct (SearchMore.combo_assignment_positions (c1, c2, o))
      as (P1 & P2 & _).
    rewrite P1 in H1. rewrite P2 in H2. simpl in *. simplify_eq.
    split; [|done]. intros _. by exists c1, c2.
  - injection Hdp as <-. split.
    + intros Hsp. exfalso.
      assert (i2 < i1 + 20); [|lia].
      apply (SearchMore.fallback_not_spaced cands); try done.
      intros kp c. apply SearchFacts.candidates_score_floor.
    + intros (c1 & c2 & Hc1 & Hc2 & H12). exfalso.
      assert (is_Some (Decoder.search (cands 1) (cands 2) (cands 3)).1)
        as [? ?]; [|congruence].
      apply (SearchFacts.search_complete _ _ _ c1 c2); try done.
      pose proof (subseteq_take 5 (cands 1) _ Hc1) as F1.
      pose proof (subseteq_take 5 (cands 2) _ Hc2) as F2.
      apply SearchFacts.candidates_score_floor in F1, F2. lra.
Qed.

Lemma spacing_iff_searched_pair_witness :
  ¬ ∃ c1 c2,
      c1 ∈ take 5 (Decoder.candidates Decoder.argsort_stable Np.std_lt_exact
                     Wells.jx_flat30 Wells.proba_close ∅ 1)
      ∧ c2 ∈ take 5 (Decoder.candidates Decoder.argsort_stable Np.std_lt_exact
                       Wells.jx_flat30 Wells.proba_close ∅ 2)
      ∧ c1.1 + 20 ≤ c2.1.
Proof.
  intros H.
  apply (spacing_iff_searched_pair Decoder.argsort_stable Np.std_lt_exact
           Wells.jx_flat30 Wells.proba_close ∅ [(1, 5); (2, 10)] 5 10) in H.
  - lia.
  - vm_compute. reflexivity.
  - reflexivity.
  - reflexivity.
Defined.

(** X7.  When a combination is recorded by the search and class 3 is left
    out of the returned assignment, no searched class-3 candidate lies 20
    or more after the returned class-2 position. *)
Theorem class3_left_out_only_if_none_fits
    (argsort : list Q → list Z) (std_lt : list Q → Q → bool) (jx : list Q)
    (model_proba : list Decoder.proba_row) (prior_info : gmap Z Z)
    (a : Decoder.assignment) (i1 i2 : Z) (c3 : Decoder.candidate) :
  let cands := Decoder.candidates argsort std_lt jx model_proba prior_info in
  Decoder.dp_post_process argsort std_lt jx model_proba prior_info = Some a →
  Decoder.position 1 a = Some i1 →
  Decoder.position 2 a = Some i2 →
  i1 + 20 ≤ i2 →
  Decoder.position 3 a = None →
  c3 ∈ take 5 (cands 3) →
  c3.1 < i2 + 20.
Proof.
  intros cands Hdp H1 H2 H12 H3 Hc3. unfold Decoder.dp_post_process in Hdp.
  destruct jx as [|x jx']; [done|]. fold cands in Hdp.
  destruct (Decoder.search (cands 1) (cands 2) (cands 3)).1 as [b|] eqn:Hs.
  - injection Hdp as ->.
    destruct (SearchMore.search_achieved _ _ _ a Hs)
      as ([[c1 c2] o] & (Hc1 & Hc2 & _) & [Hadm _] & -> & Hscore).
    destruct (SearchMore.combo_assignment_positions (c1, c2, o))
      as (P1 & P2 & P3).
    rewrite P1 in H1. rewrite P2 in H2. rewrite P3 in H3.
    destruct o as [c3'|]; [done|]. simpl in *. simplify_eq.
    destruct (Z.lt_ge_cases c3.1 (c2.1 + 20)) as [|Hge]; [done|]. exfalso.
    pose proof (SearchMore.search_upper_bound (cands 1) (cands 2) (cands 3)
                  (c1, c2, Some c3)) as Hub.
    rewrite Hscore in Hub. unfold Combos.combo_score in Hub. simpl in Hub.
    pose proof (subseteq_take 5 (cands 3) _ Hc3) as F3.
    apply SearchFacts.candidates_score_floor in F3.
    assert (c1.2 + c2.2 + c3.2 <= c1.2 + c2.2 + 0)%Q; [|lra].
    apply Hub.
    + repeat split; try done. by intros ? [= <-].
    + split; [done|]. intros ? [= <-]. simpl. lia.
  - injection Hdp as <-. exfalso.
    assert (i2 < i1 + 20); [|lia].
    apply (SearchMore.fallback_not_spaced cands); try done.
    intros kp c. apply SearchFacts.candidates_score_floor.
Qed.

Lemma class3_left_out_only_if_none_fits_witness :
  Forall (λ c3 : Decoder.candidate, c3.1 < 40 + 20)
    (take 5 (Decoder.candidates Decoder.argsort_stable Np.std_lt_exact
               Wells.jx_flat60 MoreWells.proba_class3_close ∅ 3)).
Proof.
  apply Forall_forall. intros c3.
  apply (class3_left_out_only_if_none_fits Decoder.argsort_stable Np.std_lt_exact
           Wells.jx_flat60 MoreWells.proba_class3_close ∅
           [(1, 5); (2, 40)] 5 40 c3).
  - vm_compute. reflexivity.
  - reflexivity.
  - reflexivity.
  - lia.
  - reflexivity.
Defined.

(** X8.  Every entry of a returned assignment belongs to a class 1, 2 or 3
    and holds the position of a candidate of that class, that is a top-K
    position whose probability exceeds 0.1; the classes appear in
    increasing order, each at most once. *)
Theorem assignment_entries_are_candidates
    (argsort : list Q → list Z) (std_lt : list Q → Q → bool) (jx : list Q)
    (model_proba : list Decoder.proba_row) (prior_info : gmap Z Z)
    (a : Decoder.assignment) :
  Decoder.dp_post_process argsort std_lt jx model_proba prior_info = Some a →
  StronglySorted Z.lt a.*1
  ∧ ∀ kp idx, (kp, idx) ∈ a →
      kp ∈ [1; 2; 3]
      ∧ idx ∈ Decoder.top_k_indices argsort (Decoder.column kp model_proba)
      ∧ (1 # 10 < Decoder.at_ (Decoder.column kp model_proba) idx)%Q.
Proof.
  intros Hdp. unfold Decoder.dp_post_process in Hdp.
  destruct jx as [|x jx1]; [done|].
  set (cands := Decoder.candidates argsort std_lt (x :: jx1) model_proba prior_info)
    in *.
  assert (Hcand : ∀ kp idx s, (idx, s) ∈ cands kp →
            idx ∈ Decoder.top_k_indices argsort (Decoder.column kp model_proba)
            ∧ (1 # 10 < Decoder.at_ (Decoder.column kp model_proba) idx)%Q).
  { intros kp idx s Hin.
    apply SearchFacts.candidates_elem, SearchFacts.scored_elem in Hin.
    simpl in Hin. tauto. }
  destruct (Decoder.search (cands 1) (cands 2) (cands 3)).1 as [b|] eqn:Hs.
  - injection Hdp as ->.
    destruct (SearchMore.search_achieved _ _ _ a Hs)
      as (c & Hcs & _ & -> & _).
    split; [apply SearchMore.combo_assignment_keys|].
    intros kp idx Hin.
    destruct (SearchMore.combo_assignment_entries _ _ _ _ _ _ Hcs Hin)
      as [[-> [s Hc]]|[[-> [s Hc]]|[-> [s Hc]]]];
      (split; [rewrite !elem_of_cons; auto|by eapply Hcand]).
  - injection Hdp as <-.
    split; [apply SearchMore.fallback_keys|].
    intros kp idx Hin.
    apply SearchMore.fallback_entries in Hin as (Hkp & c & l & Hc & ->).
    split; [done|]. apply (Hcand kp c.1 c.2). rewrite Hc.
    destruct c. apply elem_of_cons; by left.
Qed.

Lemma assignment_entries_are_candidates_witness :
  StronglySorted Z.lt [(1, 5); (2, 40)].*1
  ∧ (1 # 10 < Decoder.at_ (Decoder.column 2 MoreWells.proba_class3_close) 40)%Q.
Proof.
  destruct (assignment_entries_are_candidates Decoder.argsort_stable Np.std_lt_exact
              Wells.jx_flat60 MoreWells.proba_class3_close ∅ [(1, 5); (2, 40)])
    as [Hs Hin].
  - vm_compute. reflexivity.
  - split; [exact Hs|]. apply (Hin 2 40). repeat constructor.
Defined.

(** X9.  On a non-empty well in which no probability of the classes 1, 2
    and 3 exceeds 0.1, the decoder returns the empty assignment. *)
Theorem below_floor_gives_empty_assignment
    (argsort : list Q → list Z) (std_lt : list Q → Q → bool) (jx : list Q)
    (model_proba : list Decoder.proba_row) (prior_info : gmap Z Z) :
  jx ≠ [] →
  (∀ r, r ∈ model_proba →
        (Decoder.p1 r <= 1 # 10 ∧ Decoder.p2 r <= 1 # 10
         ∧ Decoder.p3 r <= 1 # 10)%Q) →
  Decoder.dp_post_process argsort std_lt jx model_proba prior_info = Some [].
Proof.
  intros Hjx Hlow.
  assert (Hnone : ∀ kp, kp ∈ [1; 2; 3] →
            Decoder.candidates argsort std_lt jx model_proba prior_info kp = []).
  { intros kp Hkp. unfold Decoder.candidates, Decoder.scored.
    rewrite SearchMore.omap_none; [done|]. intros idx.
    replace (Np.Qltb (1 # 10) (Decoder.at_ (Decoder.column kp model_proba) idx))
      with false; [done|].
    symmetry. apply not_true_iff_false. intros Hlt.
    apply DecoderFacts.Qltb_lt in Hlt. revert Hlt. apply Qle_not_lt.
    unfold Decoder.at_, Decoder.column.
    rewrite NpFacts.map_fmap, list_lookup_fmap.
    destruct (model_proba !! Z.to_nat idx) as [r|] eqn:E; simpl; [|done].
    apply list_elem_of_lookup_2, Hlow in E as (? & ? & ?).
    rewrite !elem_of_cons, elem_of_nil in Hkp.
    destruct Hkp as [-> | [-> | [-> | []]]]; done. }
  unfold Decoder.dp_post_process. destruct jx; [done|].
  unfold Decoder.fallback. cbn [foldl].
  rewrite !Hnone by (rewrite !elem_of_cons; auto). done.
Qed.

Lemma below_floor_gives_empty_assignment_witness :
  Decoder.dp_post_process Decoder.argsort_stable Np.std_lt_exact
    Wells.jx_flat30 MoreWells.proba_quiet ∅ = Some [].
Proof.
  apply (below_floor_gives_empty_assignment Decoder.argsort_stable Np.std_lt_exact
           Wells.jx_flat30 MoreWells.proba_quiet ∅).
  - discriminate.
  - intros r Hr. unfold MoreWells.proba_quiet, Wells.rows_of in Hr.
    rewrite NpFacts.map_fmap in Hr.
    apply list_elem_of_fmap in Hr as (i & -> & _). simpl.
    repeat split; apply Qle_refl.
Defined.

(** X10.  For every class at most K = 10 candidates are generated; each
    has a raw probability above 0.1, and its total score lies between that
    probability and the probability plus 0.5. *)
Theorem candidates_bounded
    (argsort : list Q → list Z) (std_lt : list Q → Q → bool) (jx : list Q)
    (model_proba : list Decoder.proba_row) (prior_info : gmap Z Z) (kp : Z) :
  let cands := Decoder.candidates argsort std_lt jx model_proba prior_info kp in
  (length cands ≤ 10)%nat
  ∧ ∀ c, c ∈ cands →
      let p := Decoder.at_ (Decoder.column kp model_proba) c.1 in
      (1 # 10 < p ∧ p <= c.2 ∧ c.2 <= p + (5 # 10))%Q.
Proof.
  intros cands. split.
  - unfold cands, Decoder.candidates.
    rewrite (Permutation_length (DecoderFacts.sort_desc_perm _)).
    unfold Decoder.scored.
    etransitivity; [apply SearchMore.omap_length_le|].
    apply (SearchMore.last_k_length Decoder.K).
  - intros c Hc p.
    apply SearchFacts.candidates_elem, SearchFacts.scored_elem in Hc
      as (_ & Hp & Hs).
    fold p in Hp, Hs. rewrite Hs.
    pose proof (SearchFacts.phys_score_nonneg std_lt (Z.of_nat (length jx)) jx
                  (Np.diff_prepend jx) kp c.1).
    pose proof (SearchMore.phys_score_le std_lt (Z.of_nat (length jx)) jx
                  (Np.diff_prepend jx) kp c.1).
    pose proof (SearchFacts.prior_score_nonneg prior_info kp c.1).
    pose proof (SearchMore.prior_score_le prior_info kp c.1).
    repeat split; lra.
Qed.

Lemma candidates_bounded_witness :
  (length (Decoder.candidates Decoder.argsort_stable Np.std_lt_exact
             Wells.jx_flat60 Wells.proba_spaced ∅ 2) ≤ 10)%nat
  ∧ (1 # 10 < Decoder.at_ (Decoder.column 2 Wells.proba_spaced) 40
     ∧ (9 # 10) + (3 # 10) + 0
       <= Decoder.at_ (Decoder.column 2 Wells.proba_spaced) 40 + (5 # 10))%Q.
Proof.
  destruct (candidates_bounded Decoder.argsort_stable Np.std_lt_exact
              Wells.jx_flat60 Wells.proba_spaced ∅ 2) as [Hlen Hc].
  split; [exact Hlen|].
  destruct (Hc (40, ((9 # 10) + (3 # 10) + 0)%Q)) as (Hp & _ & Hs).
  - vm_compute. apply elem_of_cons; left. reflexivity.
  - split; [exact Hp|exact Hs].
Defined.

(** X11.  Where a prior position is given for a class, the prior bonus lies
    between 0 and 0.2, is positive exactly at distances below 15, equals
    0.2 at the prior position itself, and never grows with the distance. *)
Theorem prior_bonus_shape
    (prior_info : gmap Z Z) (kp prior idx : Z) :
  prior_info !! kp = Some prior →
  (0 <= Decoder.prior_score prior_info kp idx <= 2 # 10)%Q
  ∧ ((0 < Decoder.prior_score prior_info kp idx)%Q ↔ Z.abs (idx - prior) < 15)
  ∧ (Decoder.prior_score prior_info kp prior == 2 # 10)%Q
  ∧ ∀ idx', Z.abs (idx - prior) ≤ Z.abs (idx' - prior) →
            (Decoder.prior_score prior_info kp idx'
             <= Decoder.prior_score prior_info kp idx)%Q.
Proof.
  intros Hp.
  assert (Hval : ∀ i, Z.abs (i - prior) < 15 →
            (Decoder.prior_score prior_info kp i
             == (2 # 10) * (1 - inject_Z (Z.abs (i - prior)) / 15))%Q).
  { intros i Hi. unfold Decoder.prior_score. rewrite Hp.
    destruct (Z.ltb_spec (Z.abs (i - prior)) 15); [reflexivity|lia]. }
  assert (Hzero : ∀ i, 15 ≤ Z.abs (i - prior) →
            Decoder.prior_score prior_info kp i = 0%Q).
  { intros i Hi. unfold Decoder.prior_score. rewrite Hp.
    destruct (Z.ltb_spec (Z.abs (i - prior)) 15); [lia|reflexivity]. }
  assert (Hdiv : ∀ d : Z, (inject_Z d / 15 == inject_Z d * (1 # 15))%Q)
    by (intros; reflexivity).
  assert (Hinj : ∀ d, 0 ≤ d < 15 → (0 <= inject_Z d < 15)%Q).
  { intros d [? ?]. split.
    - change 0%Q with (inject_Z 0). by rewrite <- Zle_Qle.
    - change 15%Q with (inject_Z 15). by rewrite <- Zlt_Qlt. }
  split; [|split; [|split]].
  - split; [apply SearchFacts.prior_score_nonneg|apply SearchMore.prior_score_le].
  - destruct (Z.lt_ge_cases (Z.abs (idx - prior)) 15) as [Hlt|Hge].
    + split; [done|]. intros _. rewrite Hval, Hdiv by done.
      destruct (Hinj (Z.abs (idx - prior))); [lia|]. lra.
    + rewrite Hzero by done. split; [intros H; by apply Qlt_irrefl in H|lia].
  - rewrite Hval, Z.sub_diag by (rewrite Z.sub_diag; simpl; lia).
    reflexivity.
  - intros idx' Hle.
    destruct (Z.lt_ge_cases (Z.abs (idx' - prior)) 15) as [Hlt'|Hge'].
    + rewrite !Hval, !Hdiv by lia.
      assert (inject_Z (Z.abs (idx - prior))
              <= inject_Z (Z.abs (idx' - prior)))%Q
        by (by rewrite <- Zle_Qle).
      lra.
    + rewrite (Hzero idx') by done. apply SearchFacts.prior_score_nonneg.
Qed.

Lemma prior_bonus_shape_witness :
  Qeq (Decoder.prior_score {[ 1 := 7 ]} 1 7) (2 # 10)
  ∧ Qlt 0 (Decoder.prior_score {[ 1 := 7 ]} 1 12).
Proof.
  destruct (prior_bonus_shape {[ 1 := 7 ]} 1 7 12) as (_ & Hpos & Hat & _).
  - reflexivity.
  - split; [exact Hat|]. apply Hpos. simpl. lia.
Defined.

(** * Further properties of the batch driver *)

(** X12.  The fusion of the probability sources succeeds exactly when every
    source has a weight and either as many rows as there are samples or a
    single row, which NumPy broadcasts to all samples (a weight without a
    source is ignored); the fused matrix then has one row per sample. *)
Theorem fuse_succeeds_iff
    (N : nat) (tree_preds dl_preds : list (string * list Decoder.proba_row))
    (weights : gmap string Q) :
  (is_Some (Batch.fuse N tree_preds dl_preds weights)
   ↔ ∀ e, e ∈ tree_preds ++ dl_preds →
          is_Some (weights !! e.1)
          ∧ (length e.2 = N ∨ length e.2 = 1%nat))
  ∧ ∀ final_proba,
      Batch.fuse N tree_preds dl_preds weights = Some final_proba →
      length final_proba = N.
Proof.
  unfold Batch.fuse. rewrite <- foldl_app. split.
  - rewrite BatchMore.foldl_accumulate_Some. by rewrite length_replicate.
  - intros fp H. apply BatchMore.foldl_accumulate_length in H.
    by rewrite length_replicate in H.
Qed.

Lemma fuse_succeeds_iff_witness :
  is_Some (Batch.fuse 60 Wells.tree_preds_lgb [] Wells.weights_lgb)
  ∧ is_Some (Batch.fuse 60 [("lgb"%string, [Wells.background])] []
               Wells.weights_lgb)
  ∧ ¬ is_Some (Batch.fuse 60 Wells.tree_preds_lgb [] ∅)
  ∧ ¬ is_Some (Batch.fuse 60
                 [("lgb"%string, [Wells.background; Wells.background])] []
                 Wells.weights_lgb).
Proof.
  destruct (fuse_succeeds_iff 60 Wells.tree_preds_lgb [] Wells.weights_lgb)
    as [[_ Hok] _].
  destruct (fuse_succeeds_iff 60 [("lgb"%string, [Wells.background])] []
              Wells.weights_lgb) as [[_ Hone] _].
  destruct (fuse_succeeds_iff 60 Wells.tree_preds_lgb [] ∅) as [[Hno _] _].
  destruct (fuse_succeeds_iff 60
              [("lgb"%string, [Wells.background; Wells.background])] []
              Wells.weights_lgb) as [[Htwo _] _].
  split; [|split; [|split]].
  - apply Hok. intros e He. apply list_elem_of_singleton in He as ->.
    split; [by eexists|left; by vm_compute].
  - apply Hone. intros e He. apply list_elem_of_singleton in He as ->.
    split; [by eexists|right; reflexivity].
  - intros H. destruct (Hno H ("lgb"%string, Wells.proba_two_wells))
      as [[w Hw] _]; [by apply list_elem_of_singleton|]. done.
  - intros H.
    destruct (Htwo H ("lgb"%string, [Wells.background; Wells.background]))
      as [_ [Hl|Hl]]; [by apply list_elem_of_singleton| |];
      simpl in Hl; lia.
Defined.

(** X13.  Every entry of the fused matrix is the sum over the sources of
    weight times probability, without renormalisation; a source of a single
    row contributes that row to every row of the matrix. *)
Theorem fuse_is_weighted_sum
    (N : nat) (tree_preds dl_preds : list (string * list Decoder.proba_row))
    (weights : gmap string Q) (final_proba : list Decoder.proba_row)
    (kp : Z) (i : nat) :
  Batch.fuse N tree_preds dl_preds weights = Some final_proba →
  (i < N)%nat →
  ∃ v, Decoder.column kp final_proba !! i = Some v
       ∧ (v == Fusion.weighted_sum N weights (tree_preds ++ dl_preds) kp i)%Q.
Proof.
  unfold Batch.fuse. rewrite <- foldl_app. intros Hf Hi.
  destruct (BatchMore.foldl_accumulate_column _ _ _ _ kp i 0%Q Hf)
    as (v & Hv & Heq).
  - erewrite BatchMore.column_lookup; [|by apply lookup_replicate_2].
    simpl. by repeat case_match.
  - exists v. split; [done|]. rewrite Heq, length_replicate. ring.
Qed.

Lemma fuse_is_weighted_sum_witness :
  (∃ final_proba v,
     Batch.fuse 60 Wells.tree_preds_lgb [] Wells.weights_lgb
     = Some final_proba
     ∧ Decoder.column 1 final_proba !! 5%nat = Some v
     ∧ (v == (9 # 10) * (7 # 10))%Q)
  ∧ ∃ final_proba v,
      Batch.fuse 3 [("lgb"%string, [Decoder.ProbaRow 0 (9 # 10) 0 0])] []
        Wells.weights_lgb = Some final_proba
      ∧ Decoder.column 1 final_proba !! 2%nat = Some v
      ∧ (v == (9 # 10) * (7 # 10))%Q.
Proof.
  split.
  - destruct (Batch.fuse 60 Wells.tree_preds_lgb [] Wells.weights_lgb)
      as [fp|] eqn:E; [|vm_compute in E; discriminate].
    destruct (fuse_is_weighted_sum 60 Wells.tree_preds_lgb []
                Wells.weights_lgb fp 1 5 E) as (v & Hv & Heq); [lia|].
    exists fp, v. split; [reflexivity|]. split; [exact Hv|].
    rewrite Heq. vm_compute. reflexivity.
  - destruct (Batch.fuse 3
                [("lgb"%string, [Decoder.ProbaRow 0 (9 # 10) 0 0])] []
                Wells.weights_lgb) as [fp|] eqn:E;
      [|vm_compute in E; discriminate].
    destruct (fuse_is_weighted_sum 3
                [("lgb"%string, [Decoder.ProbaRow 0 (9 # 10) 0 0])] []
                Wells.weights_lgb fp 1 2 E) as (v & Hv & Heq); [lia|].
    exists fp, v. split; [reflexivity|]. split; [exact Hv|].
    rewrite Heq. vm_compute. reflexivity.
Defined.

(** X14.  In the label vector returned by the driver every entry is 0, 1, 2
    or 3, and within one well a key point class labels at most one
    sample. *)
Theorem batch_one_sample_per_class
    (argsort : list Q → list Z) (std_lt : list Q → Q → bool)
    (test_features : Batch.frame)
    (tree_preds dl_preds : list (string * list Decoder.proba_row))
    (weights : gmap string Q) (final_predictions : list Z) :
  Batch.advanced_post_process argsort std_lt test_features tree_preds dl_preds
    weights = Some final_predictions →
  let ids := map Batch.well_id (Batch.rows test_features) in
  (∀ g v, final_predictions !! g = Some v → 0 ≤ v ≤ 3)
  ∧ ∀ g1 g2 w kp,
      ids !! g1 = Some w → ids !! g2 = Some w →
      final_predictions !! g1 = Some kp →
      final_predictions !! g2 = Some kp →
      kp ≠ 0 → g1 = g2.
Proof.
  intros Hrun ids.
  destruct (Batch.fuse (length (Batch.rows test_features)) tree_preds
              dl_preds weights) as [fp|] eqn:Hf.
  2: { unfold Batch.advanced_post_process in Hrun. by rewrite Hf in Hrun. }
  destruct (BatchFacts.advanced_post_process_labelled argsort std_lt _ _ _ _ _ Hf)
    as (preds & Hp & _ & Hj).
  rewrite Hrun in Hp. injection Hp as <-.
  split.
  - intros g v Hg. destruct (decide (v = 0)) as [->|Hne]; [lia|].
    destruct (Hj g v Hg Hne) as (w & a & idx & _ & Ha & Hin & _).
    unfold Batch.decode_well in Ha.
    apply BatchMore.dp_post_process_keys in Ha as [_ Hkeys].
    apply Hkeys in Hin. rewrite !elem_of_cons, elem_of_nil in Hin. lia.
  - intros g1 g2 w kp Hw1 Hw2 Hg1 Hg2 Hne.
    destruct (Hj g1 kp Hg1 Hne) as (w1 & a1 & idx1 & Hw1' & Ha1 & Hin1 & Hgi1).
    destruct (Hj g2 kp Hg2 Hne) as (w2 & a2 & idx2 & Hw2' & Ha2 & Hin2 & Hgi2).
    fold ids in Hw1', Hw2'. simplify_eq.
    unfold Batch.decode_well in Ha1.
    apply BatchMore.dp_post_process_keys in Ha1 as [Hsorted _].
    assert (idx1 = idx2) as ->
      by (by eapply BatchMore.sorted_keys_functional).
    congruence.
Qed.

Lemma batch_one_sample_per_class_witness :
  Forall (λ v, 0 ≤ v ≤ 3)
    (<[5%nat := 1]> (<[28%nat := 2]> (<[33%nat := 1]>
       (<[57%nat := 2]> (replicate 60 0))))).
Proof.
  apply Forall_forall. intros v Hv.
  apply list_elem_of_lookup_1 in Hv as [g Hg]. revert g v Hg.
  apply (batch_one_sample_per_class Decoder.argsort_stable
           Np.std_lt_exact Wells.two_wells
           Wells.tree_preds_lgb [] Wells.weights_lgb).
  vm_compute. reflexivity.
Defined.

(** * Properties of the design key points *)

(** X15.  The key points extracted from a design trajectory are classes 1,
    2 and 3 only; class 2 is present only with class 1 and class 3 only
    with class 2; positions start at 10, consecutive key points are at
    least 20 apart, and every position is more than 10 below the length of
    the smoothed series. *)
Theorem design_keypoints_ordered
    (savgol_filter : list Q → nat → nat → option (list Q))
    (jx_design smooth : list Q) (keypoints : gmap Z Z) :
  jx_design ≠ [] →
  savgol_filter (Np.diff_prepend jx_design)
    (Nat.min 11%nat (length (Np.diff_prepend jx_design))) 2%nat = Some smooth →
  Design.extract_keypoints_from_design savgol_filter (Some jx_design)
    = Some keypoints →
  (∀ kp i, keypoints !! kp = Some i →
           kp ∈ [1; 2; 3] ∧ 10 ≤ i < Z.of_nat (length smooth) - 10)
  ∧ (∀ i2, keypoints !! 2 = Some i2 →
           ∃ i1, keypoints !! 1 = Some i1 ∧ i1 + 20 ≤ i2)
  ∧ (∀ i3, keypoints !! 3 = Some i3 →
           ∃ i2, keypoints !! 2 = Some i2 ∧ i2 + 20 ≤ i3).
Proof.
  intros Hne Hs Hk. unfold Design.extract_keypoints_from_design in Hk.
  destruct jx_design as [|x jx]; [done|]. rewrite Hs in Hk.
  cbn [mbind option_bind] in Hk. injection Hk as <-.
  assert (H1 : ∀ i, Design.locate smooth !! 1 = Some i →
            10 ≤ i < Z.of_nat (length smooth) - 10).
  { intros i. rewrite DesignFacts.locate_1, DesignFacts.first_in_range_Some.
    tauto. }
  assert (H2 : ∀ i, Design.locate smooth !! 2 = Some i →
            ∃ i1, Design.locate smooth !! 1 = Some i1 ∧ i1 + 20 ≤ i
                  ∧ i < Z.of_nat (length smooth) - 10).
  { intros i. rewrite DesignFacts.locate_2.
    destruct (Design.locate smooth !! 1) as [i1|]; [|done]. simpl.
    rewrite DesignFacts.first_in_range_Some. intros ([? ?] & _).
    exists i1. split; [done|]. lia. }
  assert (H3 : ∀ i, Design.locate smooth !! 3 = Some i →
            ∃ i2, Design.locate smooth !! 2 = Some i2 ∧ i2 + 20 ≤ i
                  ∧ i < Z.of_nat (length smooth) - 10).
  { intros i. rewrite DesignFacts.locate_3.
    destruct (Design.locate smooth !! 2) as [i2|]; [|done]. simpl.
    rewrite DesignFacts.first_in_range_Some. intros ([? ?] & _).
    exists i2. split; [done|]. lia. }
  split; [|split].
  - intros kp i Hi.
    destruct (decide (kp ∈ [1; 2; 3])) as [Hkp|Hkp];
      [|by rewrite DesignFacts.locate_other in Hi].
    split; [done|]. rewrite !elem_of_cons, elem_of_nil in Hkp.
    destruct Hkp as [-> | [-> | [-> | []]]].
    + by apply H1.
    + destruct (H2 i Hi) as (i1 & Hi1 & ? & ?). apply H1 in Hi1. lia.
    + destruct (H3 i Hi) as (i2 & Hi2 & ? & ?).
      destruct (H2 i2 Hi2) as (i1 & Hi1 & ? & ?). apply H1 in Hi1. lia.
  - intros i2 Hi2. destruct (H2 i2 Hi2) as (i1 & ? & ? & _). eauto.
  - intros i3 Hi3. destruct (H3 i3 Hi3) as (i2 & ? & ? & _). eauto.
Qed.

Lemma design_keypoints_ordered_witness :
  ∃ keypoints,
    Design.extract_keypoints_from_design Design.no_smoothing
      (Some DesignWells.jx_design) = Some keypoints
    ∧ keypoints !! 1 = Some 12 ∧ keypoints !! 2 = Some 46
    ∧ keypoints !! 3 = Some 72
    ∧ ∃ i2, keypoints !! 2 = Some i2 ∧ i2 + 20 ≤ 72.
Proof.
  eexists. split; [reflexivity|].
  split; [vm_compute; reflexivity|]. split; [vm_compute; reflexivity|].
  split; [vm_compute; reflexivity|].
  eapply (design_keypoints_ordered Design.no_smoothing DesignWells.jx_design).
  - discriminate.
  - reflexivity.
  - reflexivity.
  - vm_compute. reflexivity.
Defined.

(** X16.  The class-1 design key point is the first index from 10 on, at
    least 10 before the end of the smoothed series, at which the rate of
    change turns from below 0.05 to above 0.15; there is none exactly when
    no index of that range does. *)
Theorem design_increase_point_is_first
    (savgol_filter : list Q → nat → nat → option (list Q))
    (jx_design smooth : list Q) (keypoints : gmap Z Z) :
  jx_design ≠ [] →
  savgol_filter (Np.diff_prepend jx_design)
    (Nat.min 11%nat (length (Np.diff_prepend jx_design))) 2%nat = Some smooth →
  Design.extract_keypoints_from_design savgol_filter (Some jx_design)
    = Some keypoints →
  let n := Z.of_nat (length smooth) in
  (∀ i, keypoints !! 1 = Some i ↔
        10 ≤ i < n - 10 ∧ Design.increase_at smooth i = true
        ∧ ∀ j, 10 ≤ j < i → Design.increase_at smooth j = false)
  ∧ (keypoints !! 1 = None ↔
     ∀ j, 10 ≤ j < n - 10 → Design.increase_at smooth j = false).
Proof.
  intros Hne Hs Hk n. unfold Design.extract_keypoints_from_design in Hk.
  destruct jx_design as [|x jx]; [done|]. rewrite Hs in Hk.
  cbn [mbind option_bind] in Hk. injection Hk as <-.
  rewrite DesignFacts.locate_1. split.
  - intros i. apply DesignFacts.first_in_range_Some.
  - apply DesignFacts.first_in_range_None.
Qed.

Lemma design_increase_point_is_first_witness :
  Design.increase_at (Np.diff_prepend DesignWells.jx_design) 11 = false.
Proof.
  destruct (design_increase_point_is_first Design.no_smoothing
              DesignWells.jx_design (Np.diff_prepend DesignWells.jx_design)
              (Design.locate (Np.diff_prepend DesignWells.jx_design)))
    as [Hfirst _].
  - discriminate.
  - reflexivity.
  - reflexivity.
  - destruct (proj1 (Hfirst 12)) as (_ & _ & Hbefore).
    + vm_compute. reflexivity.
    + apply Hbefore. lia.
Defined.

(** X17.  A missing or empty design yields the empty dictionary without
    the smoothing filter being consulted; on a non-empty design a failure
    of the filter is passed on; and a smoothed series of at most 20 samples
    yields no key point. *)
Theorem design_edge_cases
    (savgol_filter : list Q → nat → nat → option (list Q))
    (jx_design : list Q) :
  Design.extract_keypoints_from_design savgol_filter None = Some ∅
  ∧ Design.extract_keypoints_from_design savgol_filter (Some []) = Some ∅
  ∧ (jx_design ≠ [] →
     savgol_filter (Np.diff_prepend jx_design)
       (Nat.min 11%nat (length (Np.diff_prepend jx_design))) 2%nat = None →
     Design.extract_keypoints_from_design savgol_filter (Some jx_design)
       = None)
  ∧ (∀ smooth,
       jx_design ≠ [] →
       savgol_filter (Np.diff_prepend jx_design)
         (Nat.min 11%nat (length (Np.diff_prepend jx_design))) 2%nat = Some smooth →
       (length smooth ≤ 20)%nat →
       Design.extract_keypoints_from_design savgol_filter (Some jx_design)
         = Some ∅).
Proof.
  split; [done|]. split; [done|]. split.
  - intros Hne Hs. unfold Design.extract_keypoints_from_design.
    destruct jx_design; [done|]. by rewrite Hs.
  - intros smooth Hne Hs Hlen. unfold Design.extract_keypoints_from_design.
    destruct jx_design; [done|]. rewrite Hs. cbn [mbind option_bind].
    f_equal. unfold Design.locate.
    assert (Design.first_in_range (Design.increase_at smooth) 10
              (Z.of_nat (length smooth) - 10) = None) as ->; [|done].
    apply DesignFacts.first_in_range_None. intros j Hj. lia.
Qed.

Lemma design_edge_cases_witness :
  Design.extract_keypoints_from_design (λ _ _ _, None) (Some [1%Q]) = None.
Proof.
  apply (proj1 (proj2 (proj2 (design_edge_cases (λ _ _ _, None) [1%Q])))).
  - discriminate.
  - reflexivity.
Defined.

(** * Properties of the prior columns *)

(** X18.  For a class that has a design key point, the distance column
    written by the feature engineering and the prior hint read back by the
    batch driver fit together: if the key point is aligned to a position of
    the well, the hint is that position, and the samples flagged
    [near_prior] are exactly those that receive a positive prior bonus from
    it; if the key point is not aligned, the sentinel column yields no
    hint. *)
Theorem prior_column_round_trip
    (n : nat) (prior_keypoints : gmap Z Z) (alignment_map : option (gmap Z Z))
    (kp design_idx : Z) (columns : list Z) (group : list Batch.sample)
    (dist near : list Z) :
  kp ∈ [1; 2; 3] →
  kp ∈ columns →
  prior_keypoints !! kp = Some design_idx →
  Features.prior_columns n prior_keypoints alignment_map kp
    = Some (dist, near) →
  map (Batch.dist_to_prior kp) group = map inject_Z dist →
  let hints := Batch.prior_keypoints columns group in
  (∀ actual_idx,
     alignment_map ≫= (λ m, m !! design_idx) = Some actual_idx →
     0 ≤ actual_idx < Z.of_nat n →
     hints !! kp = Some actual_idx
     ∧ ∀ i, (i < n)%nat →
         (near !! i = Some 1
          ↔ (0 < Decoder.prior_score hints kp (Z.of_nat i))%Q))
  ∧ (alignment_map ≫= (λ m, m !! design_idx) = None →
     (0 < n)%nat → hints !! kp = None).
Proof.
  intros Hkp Hcol Hpk Hcols Hgroup hints.
  unfold Features.prior_columns in Hcols. rewrite Hpk in Hcols.
  assert (Hlook : hints !! kp =
            if Np.Qltb (Np.min (map inject_Z dist)) 900
            then Some (Z.of_nat (Np.argmin (map inject_Z dist))) else None).
  { unfold hints. rewrite PriorFacts.prior_keypoints_lookup, Hgroup.
    by rewrite !bool_decide_eq_true_2 by done. }
  split.
  - intros a Ha Hrange. rewrite Ha in Hcols. injection Hcols as <- <-.
    destruct (FeatureFacts.argmin_abs_distance n a Hrange) as [Hmin Harg].
    assert (hints !! kp = Some a) as Hhint.
    { rewrite Hlook, Harg.
      replace (Np.Qltb _ 900) with true.
      - f_equal. lia.
      - symmetry. apply DecoderFacts.Qltb_lt. rewrite Hmin. done. }
    split; [done|]. intros i Hi.
    rewrite (FeatureFacts.prior_score_pos_iff hints kp a) by done.
    rewrite NpFacts.map_fmap, list_lookup_fmap.
    rewrite FeatureFacts.abs_distance_lookup by done. simpl.
    destruct (Z.ltb_spec (Z.abs (Z.of_nat i - a)) 15); split;
      try done; lia.
  - intros Ha Hn. rewrite Ha in Hcols. injection Hcols as <- <-.
    rewrite Hlook.
    replace (Np.Qltb _ 900) with false; [done|].
    symmetry. apply not_true_iff_false. intros Hlt.
    apply DecoderFacts.Qltb_lt in Hlt.
    assert (Np.min (map inject_Z (replicate n 999)) ∈
              map inject_Z (replicate n 999)) as Hin.
    { apply FeatureFacts.min_in. destruct n; [lia|done]. }
    rewrite NpFacts.map_fmap in Hin.
    apply list_elem_of_fmap in Hin as (z & Hz & Hrep).
    apply elem_of_replicate in Hrep as [-> _].
    rewrite NpFacts.map_fmap, Hz in Hlt. revert Hlt. by vm_compute.
Qed.

Lemma prior_column_round_trip_witness :
  Batch.prior_keypoints [1; 2; 3] MoreWells.group_aligned !! 1 = Some 1.
Proof.
  refine (proj1 (proj1 (prior_column_round_trip 3 {[ 1 := 40 ]}
                          (Some {[ 40 := 1 ]}) 1 40 [1; 2; 3]
                          MoreWells.group_aligned [1; 0; 1] [1; 1; 1]
                          _ _ _ _ _) 1 _ _)).
  - repeat constructor.
  - repeat constructor.
  - reflexivity.
  - reflexivity.
  - reflexivity.
  - reflexivity.
  - lia.
Defined.

(** X19.  The relative depth of a well of [n] samples has [n] entries
    between 0 and 1 that increase strictly, starting at 0 and, for two or
    more samples, ending at 1; a well of a single sample gets 0, the
    divisor being [max(n-1, 1)]. *)
Theorem depth_pct_profile (n : nat) :
  length (Features.depth_pct n) = n
  ∧ (∀ i v, Features.depth_pct n !! i = Some v → (0 <= v <= 1)%Q)
  ∧ (∀ i j v v', (i < j)%nat → Features.depth_pct n !! i = Some v →
       Features.depth_pct n !! j = Some v' → (v < v')%Q)
  ∧ (∀ v, Features.depth_pct n !! 0%nat = Some v → (v == 0)%Q)
  ∧ (∀ v, (2 ≤ n)%nat → Features.depth_pct n !! (n - 1)%nat = Some v →
          (v == 1)%Q).
Proof.
  pose proof (FeatureFacts.depth_pct_denominator n) as Hden.
  assert (Hlen : length (Features.depth_pct n) = n).
  { unfold Features.depth_pct. by rewrite length_map, length_seq. }
  assert (Hval : ∀ i v, Features.depth_pct n !! i = Some v →
            (i < n)%nat
            ∧ v = (inject_Z (Z.of_nat i)
                   / inject_Z (Z.max (Z.of_nat n - 1) 1))%Q).
  { intros i v Hv. assert (i < n)%nat as Hi.
    { apply lookup_lt_Some in Hv. by rewrite Hlen in Hv. }
    rewrite FeatureFacts.depth_pct_lookup in Hv by done.
    split; [done|congruence]. }
  split; [done|]. split; [|split; [|split]].
  - intros i v Hv. apply Hval in Hv as [Hi ->]. split.
    + apply Qle_shift_div_l; [done|]. rewrite Qmult_0_l.
      change 0%Q with (inject_Z 0). rewrite <- Zle_Qle. lia.
    + apply Qle_shift_div_r; [done|]. rewrite Qmult_1_l.
      rewrite <- Zle_Qle. lia.
  - intros i j v v' Hij Hv Hv'.
    apply Hval in Hv as [Hi ->]. apply Hval in Hv' as [Hj ->].
    apply Qmult_lt_compat_r; [by apply Qinv_lt_0_compat|].
    rewrite <- Zlt_Qlt. lia.
  - intros v Hv. apply Hval in Hv as [_ ->]. simpl.
    unfold Qdiv. apply Qmult_0_l.
  - intros v Hn Hv. apply Hval in Hv as [_ ->].
    replace (Z.max (Z.of_nat n - 1) 1) with (Z.of_nat (n - 1)) by lia.
    apply Qmult_inv_r. intros E.
    change 0%Q with (inject_Z 0) in E.
    apply (proj1 (inject_Z_injective _ _)) in E. lia.
Qed.

Lemma depth_pct_profile_witness :
  ∃ v, Features.depth_pct 5 !! 4%nat = Some v ∧ (v == 1)%Q.
Proof.
  eexists. split; [reflexivity|].
  apply (proj2 (proj2 (proj2 (proj2 (depth_pct_profile 5))))); [lia|].
  reflexivity.
Defined.

(** * Properties of the sampling of hard negatives *)

(** X20.  Whatever the random draw returns, every key point row of the
    frame is among the rows that [sample_hard_negatives] keeps. *)
Theorem sampling_keeps_key_points {rng : Type}
    (choice : rng → list nat → nat → option (list nat * rng))
    (df : list Sampling.row) (window : Z) (ratio : Q) (g g' : rng)
    (res : list nat) (idx : nat) (r : Sampling.row) :
  Sampling.sample_hard_negatives choice df window ratio g = Some (res, g') →
  df !! idx = Some r →
  Sampling.label r ≠ 0 →
  idx ∈ res.
Proof.
  intros H Hr Hl.
  assert (Hin : idx ∈ Sampling.group_index df (Sampling.well_id r)).
  { apply SamplingFacts.group_index_elem. by exists r. }
  apply (SamplingFacts.sample_hard_negatives_keeps
           choice df window ratio g res g' (Sampling.well_id r) idx H Hin).
  left. split; [done|].
  by rewrite (SamplingFacts.label_at_lookup _ _ _ Hr).
Qed.

Lemma sampling_keeps_key_points_witness :
  ∃ res,
    Sampling.sample_hard_negatives Sampling.choose_first SamplingFrames.df
      1 (1 # 2) () = Some (res, ())
    ∧ 3%nat ∈ res.
Proof.
  eexists. split; [vm_compute; reflexivity|].
  apply (sampling_keeps_key_points Sampling.choose_first SamplingFrames.df
           1 (1 # 2) () () _ 3 (Sampling.Row 1 2)).
  - vm_compute. reflexivity.
  - reflexivity.
  - simpl. lia.
Defined.

(** X21.  Whatever the random draw returns, a negative row that lies at most
    [window] positions of its well away from a key point of that well is
    among the rows kept. *)
Theorem sampling_keeps_hard_negatives {rng : Type}
    (choice : rng → list nat → nat → option (list nat * rng))
    (df : list Sampling.row) (window : Z) (ratio : Q) (g g' : rng)
    (res : list nat) (w : Z) (kp_idx kp_pos p idx : nat) :
  Sampling.sample_hard_negatives choice df window ratio g = Some (res, g') →
  Sampling.group_index df w !! kp_pos = Some kp_idx →
  Sampling.label_at df kp_idx ≠ 0 →
  Sampling.group_index df w !! p = Some idx →
  Sampling.label_at df idx = 0 →
  Z.abs (Z.of_nat p - Z.of_nat kp_pos) ≤ window →
  idx ∈ res.
Proof.
  intros H Hkp Hl Hp Hz Hw.
  apply (SamplingFacts.sample_hard_negatives_keeps
           choice df window ratio g res g' w idx H).
  - by eapply list_elem_of_lookup_2.
  - right. by exists kp_idx, kp_pos, p.
Qed.

Lemma sampling_keeps_hard_negatives_witness :
  ∃ res,
    Sampling.sample_hard_negatives Sampling.choose_first SamplingFrames.df
      2 (1 # 4) () = Some (res, ())
    ∧ 1%nat ∈ res.
Proof.
  eexists. split; [vm_compute; reflexivity|].
  apply (sampling_keeps_hard_negatives Sampling.choose_first
           SamplingFrames.df 2 (1 # 4) () () _ 1 3 3 1 1).
  - vm_compute. reflexivity.
  - reflexivity.
  - vm_compute. discriminate.
  - reflexivity.
  - reflexivity.
  - simpl. lia.
Defined.

(** X22.  When the draw returns elements of the list it is given, each at
    most as often as it occurs there, the rows kept are rows of the frame,
    in strictly ascending order: no row is kept twice. *)
Theorem sampling_rows_distinct_and_sorted {rng : Type}
    (choice : rng → list nat → nat → option (list nat * rng))
    (df : list Sampling.row) (window : Z) (ratio : Q) (g g' : rng)
    (res : list nat) :
  Sampling.draws_from_its_argument choice →
  Sampling.sample_hard_negatives choice df window ratio g = Some (res, g') →
  StronglySorted (<)%nat res
  ∧ ∀ idx, idx ∈ res → (idx < length df)%nat.
Proof.
  intros Hsub H.
  apply SamplingFacts.sample_hard_negatives_Some in H as (sl & Hf & ->).
  apply (SamplingFacts.fold_sound choice df window ratio _ Hsub
           (BatchFacts.pd_unique_NoDup _)) in Hf as [Hnd Hin].
  - split.
    + apply SamplingFacts.sorted_NoDup_lt.
      * apply (StronglySorted_merge_sort (≤)%nat).
      * by rewrite merge_sort_Permutation.
    + intros idx Hi. rewrite merge_sort_Permutation in Hi.
      destruct (Hin idx Hi) as [r Hr]. by eapply lookup_lt_Some.
  - constructor.
  - intros idx Hi. by apply elem_of_nil in Hi.
Qed.

Lemma sampling_rows_distinct_and_sorted_witness :
  ∃ res,
    Sampling.sample_hard_negatives Sampling.choose_first SamplingFrames.df
      1 (1 # 2) () = Some (res, ())
    ∧ StronglySorted (<)%nat res
    ∧ ∀ idx, idx ∈ res → (idx < length SamplingFrames.df)%nat.
Proof.
  eexists. split; [vm_compute; reflexivity|].
  apply (sampling_rows_distinct_and_sorted Sampling.choose_first
           SamplingFrames.df 1 (1 # 2) () ()).
  - apply SamplingFacts.choose_first_draws_from_its_argument.
  - vm_compute. reflexivity.
Defined.

(** X23.  With a draw that succeeds whenever it is asked for no more
    elements than it is given, and a ratio of at most one, the sampling
    returns a result exactly when the frame has a row; on an empty frame
    the concatenation raises. *)
Theorem sampling_returns_iff_frame_not_empty {rng : Type}
    (choice : rng → list nat → nat → option (list nat * rng))
    (df : list Sampling.row) (window : Z) (ratio : Q) (g : rng) :
  Sampling.draws_when_possible choice →
  (ratio <= 1)%Q →
  is_Some (Sampling.sample_hard_negatives choice df window ratio g)
  ↔ df ≠ [].
Proof.
  intros Hok Hr. split.
  - intros [x Hx] ->. by vm_compute in Hx.
  - intros Hne. destruct df as [|r df']; [done|].
    destruct (SamplingFacts.fold_succeeds choice (r :: df') window ratio
                (Np.pd_unique (map Sampling.well_id (r :: df'))) ([], g)
                Hok Hr) as [[sl g1] Hf].
    unfold Sampling.sample_hard_negatives. rewrite Hf. simpl.
    apply SamplingFacts.fold_grows in Hf as (_ & _ & _ & Hgrp).
    assert (sl ≠ []) as Hsl.
    { apply (Hgrp (Sampling.well_id r)).
      - by apply (SamplingFacts.well_in_frame (r :: df') 0 r).
      - assert (0%nat ∈ Sampling.group_index (r :: df') (Sampling.well_id r))
          as Hin by (apply SamplingFacts.group_index_elem; by exists r).
        intros Hnil. rewrite Hnil in Hin. by apply elem_of_nil in Hin. }
    destruct sl; [done|by eexists].
Qed.

Lemma sampling_returns_iff_frame_not_empty_witness :
  is_Some (Sampling.sample_hard_negatives Sampling.choose_first
             SamplingFrames.df 1 (1 # 2) ())
  ∧ ¬ is_Some (Sampling.sample_hard_negatives Sampling.choose_first
                 [] 1 (1 # 2) ()).
Proof.
  split.
  - apply (sampling_returns_iff_frame_not_empty Sampling.choose_first
             SamplingFrames.df 1 (1 # 2) ()).
    + apply SamplingFacts.choose_first_draws_when_possible.
    + vm_compute. discriminate.
    + discriminate.
  - intros H.
    apply (sampling_returns_iff_frame_not_empty Sampling.choose_first
             [] 1 (1 # 2) ()) in H.
    + done.
    + apply SamplingFacts.choose_first_draws_when_possible.
    + vm_compute. discriminate.
Defined.

(** * Properties of the difference and monotonicity features *)

(** X24.  [JX_diff_2] is the difference of the zero-filled first
    difference: on a column that changes by the same step [c] from each
    sample to the next it is [c] at position 1 and zero at every other
    position. *)
Theorem second_difference_of_a_ramp (jx : list Q) (c : Q) (i : nat) (v : Q) :
  (∀ j x y, jx !! j = Some x → jx !! S j = Some y → (y - x == c)%Q) →
  Features.JX_diff_2 jx !! i = Some v →
  (i = 1%nat → (v == c)%Q) ∧ (i ≠ 1%nat → (v == 0)%Q).
Proof.
  intros Hstep Hv.
  assert (Hlen : (i < length jx)%nat).
  { apply lookup_lt_Some in Hv. unfold Features.JX_diff_2, Features.JX_diff_1 in Hv.
    by rewrite !FeatureFacts.diff_fillna_length in Hv. }
  assert (Hget : ∀ j, (j ≤ i)%nat → ∃ x, jx !! j = Some x).
  { intros j Hj. apply lookup_lt_is_Some. lia. }
  unfold Features.JX_diff_2, Features.JX_diff_1 in Hv.
  destruct i as [|[|j]].
  - destruct (Hget 0%nat) as [a Ha]; [lia|].
    rewrite (FeatureFacts.diff_fillna_0 _ 0%Q) in Hv
      by (by eapply FeatureFacts.diff_fillna_0).
    injection Hv as <-. split; [lia|done].
  - destruct (Hget 0%nat) as [a Ha]; [lia|].
    destruct (Hget 1%nat) as [b Hb]; [lia|].
    rewrite (FeatureFacts.diff_fillna_S _ 0 0%Q (b - a)%Q) in Hv.
    + injection Hv as <-. split; [intros _|lia].
      rewrite <- (Hstep 0%nat a b Ha Hb). ring.
    + by eapply FeatureFacts.diff_fillna_0.
    + by apply FeatureFacts.diff_fillna_S.
  - destruct (Hget j) as [a Ha]; [lia|].
    destruct (Hget (S j)) as [b Hb]; [lia|].
    destruct (Hget (S (S j))) as [d Hd]; [lia|].
    rewrite (FeatureFacts.diff_fillna_S _ (S j) (b - a)%Q (d - b)%Q) in Hv
      by (by apply FeatureFacts.diff_fillna_S).
    injection Hv as <-. split; [lia|intros _].
    rewrite (Hstep j a b Ha Hb), (Hstep (S j) b d Hb Hd). ring.
Qed.

Lemma second_difference_of_a_ramp_witness :
  Features.JX_diff_2 [1; 3; 5; 7]%Q !! 1%nat = Some (3 - 1 - 0)%Q
  ∧ (3 - 1 - 0 == 2)%Q.
Proof.
  split; [reflexivity|].
  apply (second_difference_of_a_ramp [1; 3; 5; 7]%Q 2 1 (3 - 1 - 0)%Q).
  - intros [|[|[|[|j]]]] x y Hx Hy; simplify_eq/=; reflexivity.
  - reflexivity.
  - reflexivity.
Defined.

(** X25.  [monotonic_inc_{w}] has one flag, 0 or 1, for every row of the
    well.  The flag is 1 exactly when the row is not the last of its well,
    the window has at least two samples, and every step between
    consecutive samples of the window, cut off at the end of the well,
    passes the test [diff >= -0.01] of the code.  The test is the float64
    comparison of the code, and the statement holds whatever its
    rounding. *)
Theorem monotonic_inc_flag
    (diff_ge : Q → Q → bool) (jx : list Q) (w i : nat) :
  (Features.monotonic_inc diff_ge jx w !! i = Some 1
   ↔ (S i < length jx)%nat ∧ (2 ≤ w)%nat
     ∧ ∀ j x y, (i ≤ j)%nat → (S j < i + w)%nat →
         jx !! j = Some x → jx !! S j = Some y →
         diff_ge x y = true)
  ∧ length (Features.monotonic_inc diff_ge jx w) = length jx
  ∧ ∀ v, Features.monotonic_inc diff_ge jx w !! i = Some v →
         v = 0 ∨ v = 1.
Proof.
  split; [|split].
  - rewrite FeatureFacts.monotonic_inc_lookup. split.
    + intros (Hi & Hw & H). repeat split; try done.
      intros j x y Hij Hj Hx Hy. apply (H (j - i)%nat); [lia| |].
      * by replace (i + (j - i))%nat with j by lia.
      * by replace (i + S (j - i))%nat with (S j) by lia.
    + intros (Hi & Hw & H). repeat split; try done.
      intros k x y Hk Hx Hy. apply (H (i + k)%nat); [lia|lia|done|].
      by replace (S (i + k)) with (i + S k)%nat by lia.
  - unfold Features.monotonic_inc. by rewrite length_map, length_seq.
  - intros v Hv.
    assert (i < length jx)%nat as Hi.
    { pose proof (lookup_lt_Some _ _ _ Hv) as Hlt.
      unfold Features.monotonic_inc in Hlt.
      by rewrite length_map, length_seq in Hlt. }
    destruct (FeatureFacts.flag_values diff_ge jx w i Hi) as (v' & Hv' & ?).
    change (Features.monotonic_inc diff_ge jx w !! i = Some v') in Hv'.
    rewrite Hv' in Hv. by injection Hv as <-.
Qed.

Lemma monotonic_inc_flag_witness :
  Features.monotonic_inc Features.diff_ge_exact [1; 2; 3; 2; 5]%Q 3 !! 0%nat
  = Some 1
  ∧ Features.monotonic_inc Features.diff_ge_exact [1; 2; 3; 2; 5]%Q 3 !! 1%nat
    ≠ Some 1
  ∧ Features.monotonic_inc Features.diff_ge_exact [1; 2; 3; 2; 5]%Q 3 !! 4%nat
    ≠ Some 1.
Proof.
  destruct (monotonic_inc_flag Features.diff_ge_exact [1; 2; 3; 2; 5]%Q 3 0)
    as [[_ H0] _].
  destruct (monotonic_inc_flag Features.diff_ge_exact [1; 2; 3; 2; 5]%Q 3 1)
    as [[H1 _] _].
  destruct (monotonic_inc_flag Features.diff_ge_exact [1; 2; 3; 2; 5]%Q 3 4)
    as [[H4 _] _].
  split; [|split].
  - apply H0. split; [simpl; lia|]. split; [lia|].
    intros [|[|j]] x y Hij Hj Hx Hy; simplify_eq/=; try reflexivity; lia.
  - intros E. destruct (H1 E) as (_ & _ & H).
    specialize (H 2%nat 3%Q 2%Q ltac:(lia) ltac:(lia) eq_refl eq_refl).
    discriminate H.
  - intros E. destruct (H4 E) as (H & _). simpl in H. lia.
Defined.

(** X26.  The monotonicity flags of the window sizes are nested: a row
    flagged for a window is flagged for every shorter window of at least
    two samples, for the rising and for the falling flag, whatever the
    rounding of the step tests. *)
Theorem monotonic_flags_nested
    (diff_ge diff_le : Q → Q → bool) (jx : list Q) (w w' i : nat) :
  (2 ≤ w')%nat → (w' ≤ w)%nat →
  (Features.monotonic_inc diff_ge jx w !! i = Some 1 →
   Features.monotonic_inc diff_ge jx w' !! i = Some 1)
  ∧ (Features.monotonic_dec diff_le jx w !! i = Some 1 →
     Features.monotonic_dec diff_le jx w' !! i = Some 1).
Proof.
  intros Hw' Hle. split.
  - rewrite !FeatureFacts.monotonic_inc_lookup.
    intros (Hi & _ & H). repeat split; try done.
    intros k x y Hk. apply H. lia.
  - rewrite !FeatureFacts.monotonic_dec_lookup.
    intros (Hi & _ & H). repeat split; try done.
    intros k x y Hk. apply H. lia.
Qed.

Lemma monotonic_flags_nested_witness :
  Features.monotonic_inc Features.diff_ge_exact
    [1; 2; 3; 4; 5; 6; 2]%Q 5 !! 1%nat = Some 1
  ∧ Features.monotonic_inc Features.diff_ge_exact
      [1; 2; 3; 4; 5; 6; 2]%Q 3 !! 1%nat = Some 1.
Proof.
  split; [reflexivity|].
  apply (proj1 (monotonic_flags_nested Features.diff_ge_exact
                  Features.diff_le_exact [1; 2; 3; 4; 5; 6; 2]%Q 5 3 1
                  ltac:(lia) ltac:(lia))).
  reflexivity.
Defined.

(** * Properties of the alignment map *)

(** X27.  An entry of the alignment map belongs to a design index that
    occurs on the path, and it lies within any bounds that hold for the
    actual indices paired with that design index. *)
Theorem alignment_within_paired_range
    (path : list (Z * Z)) (d act lo hi : Z) :
  Alignment.alignment_map path !! d = Some act →
  (∀ a, (d, a) ∈ path → lo ≤ a ≤ hi) →
  (∃ a, (d, a) ∈ path) ∧ lo ≤ act ≤ hi.
Proof.
  intros Hact Hb.
  apply AlignmentFacts.alignment_map_lookup in Hact as (v & Hne & Hv & ->).
  split.
  - destruct v as [|a v]; [done|]. exists a. apply Hv, elem_of_cons. by left.
  - apply AlignmentFacts.int_mean_between; [done|].
    intros a Ha. by apply Hb, Hv.
Qed.

Lemma alignment_within_paired_range_witness :
  Alignment.alignment_map [(0, 0); (0, 1); (1, 2); (2, 2); (2, 3); (2, 4)] !! 2
  = Some 3
  ∧ 2 ≤ 3 ≤ 4.
Proof.
  split; [vm_compute; reflexivity|].
  apply (alignment_within_paired_range
           [(0, 0); (0, 1); (1, 2); (2, 2); (2, 3); (2, 4)] 2 3 2 4).
  - vm_compute. reflexivity.
  - intros a Ha.
    repeat (apply elem_of_cons in Ha as [Ha|Ha]; [simplify_eq; lia|]).
    by apply elem_of_nil in Ha.
Defined.

(** X28.  Every design index on the path gets an entry. *)
Theorem alignment_covers_path (path : list (Z * Z)) (d a : Z) :
  (d, a) ∈ path → is_Some (Alignment.alignment_map path !! d).
Proof.
  intros Hin. unfold Alignment.alignment_map. rewrite lookup_fmap.
  destruct (AlignmentFacts.gathered_complete path d a Hin) as [v ->].
  by eexists.
Qed.

Lemma alignment_covers_path_witness :
  is_Some (Alignment.alignment_map [(0, 0); (0, 1); (1, 2)] !! 1).
Proof.
  apply (alignment_covers_path [(0, 0); (0, 1); (1, 2)] 1 2).
  apply elem_of_cons. right. apply elem_of_cons. right.
  apply elem_of_cons. by left.
Defined.

(** X29.  On a path that advances in both coordinates the alignment map
    keeps the order: a later design index is aligned to an actual index
    that is not earlier. *)
Theorem alignment_preserves_order
    (path : list (Z * Z)) (d1 d2 act1 act2 : Z) :
  Alignment.monotone_path path →
  Alignment.alignment_map path !! d1 = Some act1 →
  Alignment.alignment_map path !! d2 = Some act2 →
  d1 < d2 →
  act1 ≤ act2.
Proof.
  intros Hmono H1 H2 Hlt.
  apply AlignmentFacts.alignment_map_lookup in H1 as (v1 & Hne1 & Hv1 & ->).
  apply AlignmentFacts.alignment_map_lookup in H2 as (v2 & Hne2 & Hv2 & ->).
  destruct (AlignmentFacts.int_mean_within v1 Hne1)
    as (lo1 & hi1 & _ & Hhi1 & [_ Hle1]).
  destruct (AlignmentFacts.int_mean_within v2 Hne2)
    as (lo2 & hi2 & Hlo2 & _ & [Hle2 _]).
  assert (hi1 ≤ lo2); [|lia].
  apply (Hmono d1 hi1 d2 lo2); [by apply Hv1|by apply Hv2|done].
Qed.

Lemma alignment_preserves_order_witness :
  Alignment.alignment_map [(0, 0); (0, 1); (1, 2)] !! 0 = Some 0
  ∧ Alignment.alignment_map [(0, 0); (0, 1); (1, 2)] !! 1 = Some 2
  ∧ 0 ≤ 2.
Proof.
  split; [vm_compute; reflexivity|]. split; [vm_compute; reflexivity|].
  apply (alignment_preserves_order [(0, 0); (0, 1); (1, 2)] 0 1 0 2).
  - intros d1 a1 d2 a2 Hin1 Hin2 Hlt.
    repeat (apply elem_of_cons in Hin1 as [Hin1|Hin1];
            [|try (by apply elem_of_nil in Hin1)]);
      repeat (apply elem_of_cons in Hin2 as [Hin2|Hin2];
              [|try (by apply elem_of_nil in Hin2)]);
      simplify_eq; lia.
  - vm_compute. reflexivity.
  - vm_compute. reflexivity.
  - lia.
Defined.
